(** * Alerting upgrade: legacy alert migration and application upgrade

    Shallow embedding of [pkg/controllers/user/alert/deployer/upgradeimpl.go]:
    the [AlertService] methods [Upgrade], [migrateLegacyClusterAlert],
    [migrateLegacyProjectAlert] and [removeLegacyAlerting].

    The Go code talks to a Kubernetes-style resource store through typed
    clients.  Here every client call is an explicit step of a small state
    and error monad over a [World]: the step is recorded, with its answer,
    in a trace, so that statements such as "the application update is never
    invoked" are statements about the trace. *)

From stdpp Require Import gmap strings list fin_maps.
From Stdlib Require Import ZArith.

Local Open Scope string_scope.
Local Open Scope list_scope.

(** ** Errors *)

(** [k8s.io/apimachinery/pkg/api/errors]: the status reason carried by an
    error of the resource store.  Errors built by [fmt.Errorf] or
    [errors.Wrap] carry no status and have reason [StatusReasonUnknown]. *)
Inductive StatusReason :=
| StatusReasonUnknown
| StatusReasonNotFound
| StatusReasonAlreadyExists.

#[global] Instance StatusReason_eq_dec : EqDecision StatusReason.
Proof. solve_decision. Defined.

Record GoError := mkError { err_reason : StatusReason; err_msg : string }.

#[global] Instance GoError_eq_dec : EqDecision GoError.
Proof. solve_decision. Defined.

Definition IsNotFound (err : GoError) : bool :=
  bool_decide (err_reason err = StatusReasonNotFound).

Definition IsAlreadyExists (err : GoError) : bool :=
  bool_decide (err_reason err = StatusReasonAlreadyExists).

(** [fmt.Errorf] with the message already formatted. *)
Definition Errorf (msg : string) : GoError := mkError StatusReasonUnknown msg.

(** [errors.Wrap] / [errors.Wrapf] of github.com/pkg/errors: the message
    is prefixed, the result is no longer a status error. *)
Definition Wrap (err : GoError) (msg : string) : GoError :=
  mkError StatusReasonUnknown (msg +:+ ": " +:+ err_msg err).

(** The value a fallible call hands back: the object, or the error. *)
Inductive Result (A : Type) :=
| Ok (a : A)
| Fail (err : GoError).
Arguments Ok {A} a.
Arguments Fail {A} err.

#[global] Instance Result_eq_dec {A} `{EqDecision A} : EqDecision (Result A).
Proof. solve_decision. Defined.

Definition result_map {A B} (f : A → B) (r : Result A) : Result B :=
  match r with Ok a => Ok (f a) | Fail e => Fail e end.

Definition is_Ok {A} (r : Result A) : bool :=
  match r with Ok _ => true | Fail _ => false end.

(** ** Strings *)

(** [strings.Contains s substr]. *)
Fixpoint strings_Contains (s substr : string) : bool :=
  if String.prefix substr s then true
  else match s with
       | EmptyString => false
       | String _ s' => strings_Contains s' substr
       end.

(** ** Resource types

    Modelled from the spec: the declarations of the resource types
    (packages [v3] and [projectv3] of rancher/types, [metav1]) are not
    among the sources.  A record has the fields that the deployer reads
    or writes, under their Go names, prefixed where Rocq needs distinct
    projections; section 3 of the specification lists the same fields. *)

Definition defaultGroupIntervalSeconds : Z := 180%Z.

(** [metav1.ObjectMeta]; [ResourceVersion] stands for the server-side
    metadata that [DeepCopy] carries over. *)
Record ObjectMeta := mkMeta {
  Name : string;
  Namespace : string;
  ResourceVersion : string
}.

#[global] Instance ObjectMeta_eq_dec : EqDecision ObjectMeta.
Proof. solve_decision. Defined.

(** Modelled from the spec: a recipient is a notification target that is
    copied verbatim; its fields are not inspected by this code. *)
Definition Recipient := string.

Record TimingField := mkTiming {
  GroupWaitSeconds : Z;
  GroupIntervalSeconds : Z;
  RepeatIntervalSeconds : Z
}.

#[global] Instance TimingField_eq_dec : EqDecision TimingField.
Proof. solve_decision. Defined.

(** *** Legacy alerts *)

Record TargetNode := mkTargetNode {
  tn_NodeName : string;
  tn_Selector : gmap string string;
  tn_Condition : string;
  tn_MemThreshold : Z;
  tn_CPUThreshold : Z
}.

Record TargetEvent := mkTargetEvent {
  te_EventType : string;
  te_ResourceKind : string
}.

Record TargetSystemService := mkTargetSystemService {
  ts_Condition : string
}.

Record TargetPod := mkTargetPod {
  tp_PodName : string;
  tp_Condition : string;
  tp_RestartTimes : Z;
  tp_RestartIntervalSeconds : Z
}.

Record TargetWorkload := mkTargetWorkload {
  tw_WorkloadID : string;
  tw_Selector : gmap string string;
  tw_AvailablePercentage : Z
}.

#[global] Instance TargetNode_eq_dec : EqDecision TargetNode.
Proof. solve_decision. Defined.
#[global] Instance TargetEvent_eq_dec : EqDecision TargetEvent.
Proof. solve_decision. Defined.
#[global] Instance TargetSystemService_eq_dec : EqDecision TargetSystemService.
Proof. solve_decision. Defined.
#[global] Instance TargetPod_eq_dec : EqDecision TargetPod.
Proof. solve_decision. Defined.
#[global] Instance TargetWorkload_eq_dec : EqDecision TargetWorkload.
Proof. solve_decision. Defined.

(** [v3.ClusterAlert]: metadata and [Spec], the latter flattened.  The
    three targets are Go pointers: [None] is [nil]. *)
Record ClusterAlert := mkClusterAlert {
  ca_Meta : ObjectMeta;
  ca_DisplayName : string;
  ca_Severity : string;
  ca_Recipients : list Recipient;
  ca_InitialWaitSeconds : Z;
  ca_RepeatIntervalSeconds : Z;
  ca_TargetNode : option TargetNode;
  ca_TargetEvent : option TargetEvent;
  ca_TargetSystemService : option TargetSystemService
}.

(** [v3.ProjectAlert]. *)
Record ProjectAlert := mkProjectAlert {
  pa_Meta : ObjectMeta;
  pa_ProjectName : string;
  pa_DisplayName : string;
  pa_Severity : string;
  pa_Recipients : list Recipient;
  pa_InitialWaitSeconds : Z;
  pa_RepeatIntervalSeconds : Z;
  pa_TargetPod : option TargetPod;
  pa_TargetWorkload : option TargetWorkload
}.

#[global] Instance ClusterAlert_eq_dec : EqDecision ClusterAlert.
Proof. solve_decision. Defined.
#[global] Instance ProjectAlert_eq_dec : EqDecision ProjectAlert.
Proof. solve_decision. Defined.

(** *** Rules and groups of the new model *)

Record NodeRule := mkNodeRule {
  nr_NodeName : string;
  nr_Selector : gmap string string;
  nr_Condition : string;
  nr_MemThreshold : Z;
  nr_CPUThreshold : Z
}.

Record EventRule := mkEventRule {
  er_EventType : string;
  er_ResourceKind : string
}.

Record SystemServiceRule := mkSystemServiceRule {
  sr_Condition : string
}.

Record PodRule := mkPodRule {
  pr_PodName : string;
  pr_Condition : string;
  pr_RestartTimes : Z;
  pr_RestartIntervalSeconds : Z
}.

Record WorkloadRule := mkWorkloadRule {
  wr_WorkloadID : string;
  wr_Selector : gmap string string;
  wr_AvailablePercentage : Z
}.

#[global] Instance NodeRule_eq_dec : EqDecision NodeRule.
Proof. solve_decision. Defined.
#[global] Instance EventRule_eq_dec : EqDecision EventRule.
Proof. solve_decision. Defined.
#[global] Instance SystemServiceRule_eq_dec : EqDecision SystemServiceRule.
Proof. solve_decision. Defined.
#[global] Instance PodRule_eq_dec : EqDecision PodRule.
Proof. solve_decision. Defined.
#[global] Instance WorkloadRule_eq_dec : EqDecision WorkloadRule.
Proof. solve_decision. Defined.

(** [v3.CommonRuleField]. *)
Record CommonRuleField := mkCommonRule {
  crf_DisplayName : string;
  crf_Severity : string;
  crf_Timing : TimingField
}.

(** [v3.ClusterAlertRuleSpec]. *)
Record ClusterAlertRuleSpec := mkClusterRuleSpec {
  crs_ClusterName : string;
  crs_GroupName : string;
  crs_Common : CommonRuleField;
  crs_NodeRule : option NodeRule;
  crs_EventRule : option EventRule;
  crs_SystemServiceRule : option SystemServiceRule
}.

Record ClusterAlertRule := mkClusterRule {
  cr_Meta : ObjectMeta;
  cr_Spec : ClusterAlertRuleSpec
}.

(** [v3.ProjectAlertRuleSpec]. *)
Record ProjectAlertRuleSpec := mkProjectRuleSpec {
  prs_ProjectName : string;
  prs_GroupName : string;
  prs_Common : CommonRuleField;
  prs_PodRule : option PodRule;
  prs_WorkloadRule : option WorkloadRule
}.

Record ProjectAlertRule := mkProjectRule {
  prl_Meta : ObjectMeta;
  prl_Spec : ProjectAlertRuleSpec
}.

(** [v3.CommonGroupField]. *)
Record CommonGroupField := mkCommonGroup {
  cgf_DisplayName : string;
  cgf_Description : string;
  cgf_Timing : TimingField
}.

(** [v3.ClusterAlertGroup] with its [ClusterGroupSpec]. *)
Record ClusterAlertGroup := mkClusterGroup {
  cg_Meta : ObjectMeta;
  cg_ClusterName : string;
  cg_Common : CommonGroupField;
  cg_Recipients : list Recipient
}.

(** [v3.ProjectAlertGroup] with its [ProjectGroupSpec]. *)
Record ProjectAlertGroup := mkProjectGroup {
  pg_Meta : ObjectMeta;
  pg_ProjectName : string;
  pg_Common : CommonGroupField;
  pg_Recipients : list Recipient
}.

#[global] Instance CommonRuleField_eq_dec : EqDecision CommonRuleField.
Proof. solve_decision. Defined.
#[global] Instance ClusterAlertRuleSpec_eq_dec : EqDecision ClusterAlertRuleSpec.
Proof. solve_decision. Defined.
#[global] Instance ClusterAlertRule_eq_dec : EqDecision ClusterAlertRule.
Proof. solve_decision. Defined.
#[global] Instance ProjectAlertRuleSpec_eq_dec : EqDecision ProjectAlertRuleSpec.
Proof. solve_decision. Defined.
#[global] Instance ProjectAlertRule_eq_dec : EqDecision ProjectAlertRule.
Proof. solve_decision. Defined.
#[global] Instance CommonGroupField_eq_dec : EqDecision CommonGroupField.
Proof. solve_decision. Defined.
#[global] Instance ClusterAlertGroup_eq_dec : EqDecision ClusterAlertGroup.
Proof. solve_decision. Defined.
#[global] Instance ProjectAlertGroup_eq_dec : EqDecision ProjectAlertGroup.
Proof. solve_decision. Defined.

(** *** The deployed application and what the upgrade reads *)

(** [projectv3.App]: [Answers] is a Go map and may be [nil] ([None]);
    [reflect.DeepEqual] tells a nil map from an empty one, as [option]
    does. *)
Record App := mkApp {
  app_Meta : ObjectMeta;
  app_ExternalID : string;
  app_Answers : option (gmap string string)
}.

#[global] Instance App_eq_dec : EqDecision App.
Proof. solve_decision. Defined.

(** [v3.CatalogTemplate]. *)
Record CatalogTemplate := mkTemplate {
  tpl_DefaultVersion : string
}.

(** [v3.Project]. *)
Record Project := mkProject {
  proj_Name : string
}.

(** Modelled from the spec: a cluster descriptor carries the condition
    flag ready; the field is the answer of
    [v3.ClusterConditionReady.IsTrue]. *)
Record Cluster := mkCluster {
  ClusterConditionReady : bool
}.

(** Modelled from the spec: a catalog descriptor carries the condition
    flags upgraded, refreshed and disk-cached; the fields are the answers
    of the three [v3.CatalogCondition*.IsTrue] tests. *)
Record Catalog := mkCatalog {
  CatalogConditionUpgraded : bool;
  CatalogConditionRefreshed : bool;
  CatalogConditionDiskCached : bool
}.

#[global] Instance CatalogTemplate_eq_dec : EqDecision CatalogTemplate.
Proof. solve_decision. Defined.
#[global] Instance Project_eq_dec : EqDecision Project.
Proof. solve_decision. Defined.
#[global] Instance Cluster_eq_dec : EqDecision Cluster.
Proof. solve_decision. Defined.
#[global] Instance Catalog_eq_dec : EqDecision Catalog.
Proof. solve_decision. Defined.

(** ** The world the deployer runs against *)

(** One call of a typed client or lister, with its arguments. *)
Inductive Call :=
| TemplateLister_Get (namespace name : string)
| OldClusterAlerts_List
| OldProjectAlerts_List
| ClusterAlertRules_Get (name : string)
| ClusterAlertRules_Create (o : ClusterAlertRule)
| ClusterAlertRules_Update (o : ClusterAlertRule)
| ClusterAlertGroups_Create (o : ClusterAlertGroup)
| ProjectAlertRules_GetNamespaced (namespace name : string)
| ProjectAlertRules_Create (o : ProjectAlertRule)
| ProjectAlertRules_Update (o : ProjectAlertRule)
| ProjectAlertGroups_Create (o : ProjectAlertGroup)
| Namespaces_Delete (name : string)
| ProjectLister_List
| Apps_GetNamespaced (namespace name : string)
| Apps_Update (o : App)
| ClusterLister_Get (name : string)
| CatalogLister_Get (name : string).

(** The object a successful call answers with. *)
Inductive Value :=
| VNone
| VTemplate (t : CatalogTemplate)
| VClusterAlerts (items : list ClusterAlert)
| VProjectAlerts (items : list ProjectAlert)
| VClusterRule (o : ClusterAlertRule)
| VClusterGroup (o : ClusterAlertGroup)
| VProjectRule (o : ProjectAlertRule)
| VProjectGroup (o : ProjectAlertGroup)
| VProjects (items : list (option Project))
| VApp (o : App)
| VCluster (o : Cluster)
| VCatalog (o : Catalog).

#[global] Instance Call_eq_dec : EqDecision Call.
Proof. solve_decision. Defined.
#[global] Instance Value_eq_dec : EqDecision Value.
Proof. solve_decision. Defined.

Definition Event : Type := Call * Result Value.

(** Objects are stored under (namespace, name). *)
Definition Key : Type := string * string.

(** What the deployer only reads: the setting, the lister caches and the
    legacy alerts. *)
Record ReadOnly := mkReadOnly {
  SystemMonitoringCatalogID : string;
  templates : gmap Key CatalogTemplate;
  oldClusterAlerts : list ClusterAlert;
  oldProjectAlerts : list ProjectAlert;
  (** the answer of the project lister to the system-project selector;
      the entries are Go pointers *)
  systemProjects : list (option Project);
  clusters : gmap string Cluster;
  catalogs : gmap string Catalog
}.

(** What the deployer writes. *)
Record Stores := mkStores {
  clusterAlertRules : gmap Key ClusterAlertRule;
  clusterAlertGroups : gmap Key ClusterAlertGroup;
  projectAlertRules : gmap Key ProjectAlertRule;
  projectAlertGroups : gmap Key ProjectAlertGroup;
  namespaces : gset string;
  apps : gmap Key App
}.

(** [faults n c] is the failure, if any, that the store answers to call
    [c] made as the [n]-th call; [rangeOrder n ks] is the order in which a
    [range] over a Go map with keys [ks] visits them, when [n] calls have
    been made. *)
Record World := mkWorld {
  ro : ReadOnly;
  stores : Stores;
  faults : nat → Call → option GoError;
  rangeOrder : nat → list string → list string;
  trace : list Event
}.

(** ** The monad: state, Go errors and panics *)

Inductive Outcome (A : Type) :=
| Return (a : A)
| Error (err : GoError)
| Panic (msg : string).
Arguments Return {A} a.
Arguments Error {A} err.
Arguments Panic {A} msg.

Definition Go (A : Type) : Type := World → Outcome A * World.

#[global] Instance Go_ret : MRet Go := λ A a w, (Return a, w).

#[global] Instance Go_bind : MBind Go := λ A B k m w,
  match m w with
  | (Return a, w') => k a w'
  | (Error err, w') => (Error err, w')
  | (Panic msg, w') => (Panic msg, w')
  end.

(** [return "", err] (or [return err]). *)
Definition fail {A} (err : GoError) : Go A := λ w, (Error err, w).

Definition panic {A} (msg : string) : Go A := λ w, (Panic msg, w).

(** [for _, v := range xs { body }], left by the first [return err]. *)
Fixpoint forEach {A} (xs : list A) (body : A → Go unit) : Go unit :=
  match xs with
  | [] => mret tt
  | x :: xs' => body x ;; forEach xs' body
  end.

Definition record (ev : Event) (w : World) : World :=
  mkWorld (ro w) (stores w) (faults w) (rangeOrder w) (trace w ++ [ev]).

(** A client call: an injected failure leaves the stores alone, otherwise
    the store operation [op] answers.  Either way the call is traced. *)
Definition api {A} (c : Call) (inj : A → Value)
    (op : ReadOnly → Stores → Result A * Stores) : Go (Result A) := λ w,
  match faults w (length (trace w)) c with
  | Some err => (Return (Fail err), record (c, Fail err) w)
  | None =>
      let r := op (ro w) (stores w) in
      (Return r.1,
       mkWorld (ro w) r.2 (faults w) (rangeOrder w)
               (trace w ++ [(c, result_map inj r.1)]))
  end.

(** The events a computation adds to the trace, and its outcome. *)
Definition events_of {A} (m : Go A) (w : World) : list Event :=
  drop (length (trace w)) (trace (m w).2).

Definition outcome_of {A} (m : Go A) (w : World) : Outcome A := (m w).1.

(** ** Traces only grow *)

(** [w'] is [w] after the events [evs]: the trace grew by [evs], what is
    read-only and the environment's choices are the same. *)
Record extends (w w' : World) (evs : list Event) : Prop := mkExtends {
  ext_trace : trace w' = trace w ++ evs;
  ext_ro : ro w' = ro w;
  ext_faults : faults w' = faults w;
  ext_range : rangeOrder w' = rangeOrder w
}.

(** ** A weakest-precondition calculus for [Go]

    [wp m w Q]: running [m] from [w] extends the world by some events, and
    the outcome, the final world and these events satisfy [Q]. *)
Definition wp {A} (m : Go A) (w : World)
    (Q : Outcome A → World → list Event → Prop) : Prop :=
  ∃ evs, extends w (m w).2 evs ∧ Q (m w).1 (m w).2 evs.

(** ** The resource store

    Modelled from the spec: the resource store and its client library are
    not part of the deployer.  [get] answers the record or not-found,
    [create] answers already-exists for a taken name, [update] and
    [delete] answer not-found for a missing one; a record is stored as it
    is given. *)

Definition NewNotFound (name : string) : GoError :=
  mkError StatusReasonNotFound (name +:+ " not found").

Definition NewAlreadyExists (name : string) : GoError :=
  mkError StatusReasonAlreadyExists (name +:+ " already exists").

Definition key_of (m : ObjectMeta) : Key := (Namespace m, Name m).

Definition store_get {A} (k : Key) (m : gmap Key A) : Result A :=
  match m !! k with
  | Some o => Ok o
  | None => Fail (NewNotFound k.2)
  end.

Definition store_create {A} (k : Key) (o : A) (m : gmap Key A)
  : Result A * gmap Key A :=
  match m !! k with
  | Some _ => (Fail (NewAlreadyExists k.2), m)
  | None => (Ok o, <[k := o]> m)
  end.

Definition store_update {A} (k : Key) (o : A) (m : gmap Key A)
  : Result A * gmap Key A :=
  match m !! k with
  | Some _ => (Ok o, <[k := o]> m)
  | None => (Fail (NewNotFound k.2), m)
  end.

(** The effect on a store of create-if-absent, update-if-present: a new
    record is stored as given, an existing one is replaced by its merge
    with the new one. *)
Definition upsert {A} (merge : A → A → A) (k : Key) (new : A) (m : gmap Key A)
  : gmap Key A :=
  <[k := match m !! k with Some old => merge old new | None => new end]> m.

Definition upsert_all {A} (merge : A → A → A) (xs : list (Key * A)) (m : gmap Key A)
  : gmap Key A :=
  foldl (λ m x, upsert merge x.1 x.2 m) m xs.

(** What a sequence of upserts under one key does to the record stored
    under it. *)
Definition upsert_key {A} (merge : A → A → A) (o : option A) (news : list A)
  : option A :=
  foldl (λ o new, Some (match o with Some old => merge old new | None => new end))
        o news.

Definition with_clusterAlertRules (m : gmap Key ClusterAlertRule) (s : Stores) :=
  mkStores m (clusterAlertGroups s) (projectAlertRules s)
           (projectAlertGroups s) (namespaces s) (apps s).
Definition with_clusterAlertGroups (m : gmap Key ClusterAlertGroup) (s : Stores) :=
  mkStores (clusterAlertRules s) m (projectAlertRules s)
           (projectAlertGroups s) (namespaces s) (apps s).
Definition with_projectAlertRules (m : gmap Key ProjectAlertRule) (s : Stores) :=
  mkStores (clusterAlertRules s) (clusterAlertGroups s) m
           (projectAlertGroups s) (namespaces s) (apps s).
Definition with_projectAlertGroups (m : gmap Key ProjectAlertGroup) (s : Stores) :=
  mkStores (clusterAlertRules s) (clusterAlertGroups s) (projectAlertRules s)
           m (namespaces s) (apps s).
Definition with_namespaces (m : gset string) (s : Stores) :=
  mkStores (clusterAlertRules s) (clusterAlertGroups s) (projectAlertRules s)
           (projectAlertGroups s) m (apps s).
Definition with_apps (m : gmap Key App) (s : Stores) :=
  mkStores (clusterAlertRules s) (clusterAlertGroups s) (projectAlertRules s)
           (projectAlertGroups s) (namespaces s) m.

(** [AlertService]: the clients and listers are the [World]; the one
    field with a value of its own is the cluster name. *)
Record AlertService := mkAlertService {
  clusterName : string
}.

Section Clients.
Context (l : AlertService).

Definition templateLister_Get (namespace name : string) : Go (Result CatalogTemplate) :=
  api (TemplateLister_Get namespace name) VTemplate
      (λ r s, (store_get (namespace, name) (templates r), s)).

Definition oldClusterAlerts_List : Go (Result (list ClusterAlert)) :=
  api OldClusterAlerts_List VClusterAlerts (λ r s, (Ok (oldClusterAlerts r), s)).

Definition oldProjectAlerts_List : Go (Result (list ProjectAlert)) :=
  api OldProjectAlerts_List VProjectAlerts (λ r s, (Ok (oldProjectAlerts r), s)).

(** The cluster rule and group clients are bound to the namespace
    [clusterName]. *)
Definition clusterAlertRules_Get (name : string) : Go (Result ClusterAlertRule) :=
  api (ClusterAlertRules_Get name) VClusterRule
      (λ r s, (store_get (clusterName l, name) (clusterAlertRules s), s)).

Definition clusterAlertRules_Create (o : ClusterAlertRule) : Go (Result ClusterAlertRule) :=
  api (ClusterAlertRules_Create o) VClusterRule
      (λ r s, let c := store_create (key_of (cr_Meta o)) o (clusterAlertRules s) in
              (c.1, with_clusterAlertRules c.2 s)).

Definition clusterAlertRules_Update (o : ClusterAlertRule) : Go (Result ClusterAlertRule) :=
  api (ClusterAlertRules_Update o) VClusterRule
      (λ r s, let c := store_update (key_of (cr_Meta o)) o (clusterAlertRules s) in
              (c.1, with_clusterAlertRules c.2 s)).

Definition clusterAlertGroups_Create (o : ClusterAlertGroup) : Go (Result ClusterAlertGroup) :=
  api (ClusterAlertGroups_Create o) VClusterGroup
      (λ r s, let c := store_create (key_of (cg_Meta o)) o (clusterAlertGroups s) in
              (c.1, with_clusterAlertGroups c.2 s)).

Definition projectAlertRules_GetNamespaced (namespace name : string)
  : Go (Result ProjectAlertRule) :=
  api (ProjectAlertRules_GetNamespaced namespace name) VProjectRule
      (λ r s, (store_get (namespace, name) (projectAlertRules s), s)).

Definition projectAlertRules_Create (o : ProjectAlertRule) : Go (Result ProjectAlertRule) :=
  api (ProjectAlertRules_Create o) VProjectRule
      (λ r s, let c := store_create (key_of (prl_Meta o)) o (projectAlertRules s) in
              (c.1, with_projectAlertRules c.2 s)).

Definition projectAlertRules_Update (o : ProjectAlertRule) : Go (Result ProjectAlertRule) :=
  api (ProjectAlertRules_Update o) VProjectRule
      (λ r s, let c := store_update (key_of (prl_Meta o)) o (projectAlertRules s) in
              (c.1, with_projectAlertRules c.2 s)).

Definition projectAlertGroups_Create (o : ProjectAlertGroup) : Go (Result ProjectAlertGroup) :=
  api (ProjectAlertGroups_Create o) VProjectGroup
      (λ r s, let c := store_create (key_of (pg_Meta o)) o (projectAlertGroups s) in
              (c.1, with_projectAlertGroups c.2 s)).

Definition namespaces_Delete (name : string) : Go (Result unit) :=
  api (Namespaces_Delete name) (λ _, VNone)
      (λ r s, if decide (name ∈ namespaces s)
              then (Ok tt, with_namespaces (namespaces s ∖ {[name]}) s)
              else (Fail (NewNotFound name), s)).

Definition projectLister_List : Go (Result (list (option Project))) :=
  api ProjectLister_List VProjects (λ r s, (Ok (systemProjects r), s)).

Definition apps_GetNamespaced (namespace name : string) : Go (Result App) :=
  api (Apps_GetNamespaced namespace name) VApp
      (λ r s, (store_get (namespace, name) (apps s), s)).

Definition apps_Update (o : App) : Go (Result App) :=
  api (Apps_Update o) VApp
      (λ r s, let c := store_update (key_of (app_Meta o)) o (apps s) in
              (c.1, with_apps c.2 s)).

Definition clusterLister_Get (name : string) : Go (Result Cluster) :=
  api (ClusterLister_Get name) VCluster
      (λ r s, (match clusters r !! name with
               | Some c => Ok c
               | None => Fail (NewNotFound name)
               end, s)).

Definition catalogLister_Get (name : string) : Go (Result Catalog) :=
  api (CatalogLister_Get name) VCatalog
      (λ r s, (match catalogs r !! name with
               | Some c => Ok c
               | None => Fail (NewNotFound name)
               end, s)).
End Clients.

(** ** The deployer *)

Section Deployer.
(** Helpers of other packages, used as black boxes:
    [common.SplitExternalID], [common.ParseExternalID],
    [monitorutil.ClusterAlertManagerInfo], [alertutil.GetGroupID],
    [ref.Parse] and [controller.ObjectInCluster]. *)
Variable SplitExternalID : string → Result (string * string * string * string * string).
Variable ParseExternalID : string → Result (string * string).
Variable ClusterAlertManagerInfo : string * string.
Variable GetGroupID : string → string → string.
Variable ref_Parse : string → string * string.
Variable ObjectInCluster : string → ProjectAlert → bool.

Variable l : AlertService.

#[local] Set Default Proof Using "Type".

(** *** Translation of one legacy cluster alert (lines 182-227) *)

Definition with_NodeRule (x : option NodeRule) (r : ClusterAlertRule) : ClusterAlertRule :=
  let s := cr_Spec r in
  mkClusterRule (cr_Meta r)
    (mkClusterRuleSpec (crs_ClusterName s) (crs_GroupName s) (crs_Common s)
                       x (crs_EventRule s) (crs_SystemServiceRule s)).

Definition with_EventRule (x : option EventRule) (r : ClusterAlertRule) : ClusterAlertRule :=
  let s := cr_Spec r in
  mkClusterRule (cr_Meta r)
    (mkClusterRuleSpec (crs_ClusterName s) (crs_GroupName s) (crs_Common s)
                       (crs_NodeRule s) x (crs_SystemServiceRule s)).

Definition with_SystemServiceRule (x : option SystemServiceRule) (r : ClusterAlertRule)
  : ClusterAlertRule :=
  let s := cr_Spec r in
  mkClusterRule (cr_Meta r)
    (mkClusterRuleSpec (crs_ClusterName s) (crs_GroupName s) (crs_Common s)
                       (crs_NodeRule s) (crs_EventRule s) x).

Definition newClusterRule (v : ClusterAlert) : ClusterAlertRule :=
  let migrationGroupName := "migrate-group-" +:+ Name (ca_Meta v) in
  let groupID := GetGroupID (clusterName l) migrationGroupName in
  let name := "migrate-" +:+ Name (ca_Meta v) in
  let newClusterRule :=
    {| cr_Meta := {| Name := name; Namespace := clusterName l; ResourceVersion := "" |};
       cr_Spec := {| crs_ClusterName := clusterName l;
                     crs_GroupName := groupID;
                     crs_Common :=
                       {| crf_DisplayName := ca_DisplayName v;
                          crf_Severity := ca_Severity v;
                          crf_Timing :=
                            {| GroupWaitSeconds := ca_InitialWaitSeconds v;
                               GroupIntervalSeconds := defaultGroupIntervalSeconds;
                               RepeatIntervalSeconds := ca_RepeatIntervalSeconds v |} |};
                     crs_NodeRule := None;
                     crs_EventRule := None;
                     crs_SystemServiceRule := None |} |} in
  let newClusterRule :=
    match ca_TargetNode v with
    | Some t =>
        with_NodeRule
          (Some {| nr_NodeName := tn_NodeName t;
                   nr_Selector := tn_Selector t;
                   nr_Condition := tn_Condition t;
                   nr_MemThreshold := tn_MemThreshold t;
                   nr_CPUThreshold := tn_CPUThreshold t |}) newClusterRule
    | None => newClusterRule
    end in
  let newClusterRule :=
    match ca_TargetEvent v with
    | Some t =>
        with_EventRule
          (Some {| er_EventType := te_EventType t;
                   er_ResourceKind := te_ResourceKind t |}) newClusterRule
    | None => newClusterRule
    end in
  match ca_TargetSystemService v with
  | Some t =>
      with_SystemServiceRule (Some {| sr_Condition := ts_Condition t |}) newClusterRule
  | None => newClusterRule
  end.

(** The cluster [legacyGroup] of lines 245-263. *)
Definition clusterLegacyGroup (v : ClusterAlert) : ClusterAlertGroup :=
  let migrationGroupName := "migrate-group-" +:+ Name (ca_Meta v) in
  {| cg_Meta := {| Name := migrationGroupName; Namespace := clusterName l;
                   ResourceVersion := "" |};
     cg_ClusterName := clusterName l;
     cg_Common :=
       {| cgf_DisplayName := "Migrate group";
          cgf_Description := "Migrate alert from last version";
          cgf_Timing :=
            {| GroupWaitSeconds := ca_InitialWaitSeconds v;
               GroupIntervalSeconds := defaultGroupIntervalSeconds;
               RepeatIntervalSeconds := ca_RepeatIntervalSeconds v |} |};
     cg_Recipients := ca_Recipients v |}.

Definition migrateLegacyClusterAlert : Go unit :=
  r ← oldClusterAlerts_List;
  match r with
  | Fail err => fail (Errorf ("get old cluster alert failed, " +:+ err_msg err))
  | Ok oldClusterAlert =>
    forEach oldClusterAlert (λ v,
      let migrationGroupName := "migrate-group-" +:+ Name (ca_Meta v) in
      let newClusterRule := newClusterRule v in
      r ← clusterAlertRules_Get l (Name (cr_Meta newClusterRule));
      match r with
      | Fail err =>
          if negb (IsNotFound err) then
            fail (Errorf ("migrate " +:+ Namespace (ca_Meta v) +:+ ":" +:+ Name (ca_Meta v)
                          +:+ " failed, get alert rule failed, " +:+ err_msg err))
          else
            r ← clusterAlertRules_Create newClusterRule;
            match r with
            | Fail err =>
                if negb (IsAlreadyExists err) then
                  fail (Errorf ("migrate " +:+ Namespace (ca_Meta v) +:+ ":"
                                +:+ Name (ca_Meta v)
                                +:+ " failed, create alert rule failed, " +:+ err_msg err))
                else mret tt
            | Ok _ => mret tt
            end
      | Ok oldClusterRule =>
          let updatedClusterRule :=
            mkClusterRule (cr_Meta oldClusterRule) (cr_Spec newClusterRule) in
          r ← clusterAlertRules_Update updatedClusterRule;
          match r with
          | Fail err =>
              fail (Errorf ("migrate " +:+ Namespace (ca_Meta v) +:+ ":" +:+ Name (ca_Meta v)
                            +:+ " failed, update alert rule failed, " +:+ err_msg err))
          | Ok _ => mret tt
          end
      end;;
      let legacyGroup := clusterLegacyGroup v in
      r ← clusterAlertGroups_Create legacyGroup;
      match r with
      | Fail err =>
          if negb (IsAlreadyExists err) then
            fail (Errorf ("migrate failed, create alert group " +:+ clusterName l +:+ ":"
                          +:+ migrationGroupName +:+ " failed, " +:+ err_msg err))
          else mret tt
      | Ok _ => mret tt
      end)
  end.

(** *** Translation of one legacy project alert (lines 290-329) *)

Definition with_PodRule (x : option PodRule) (r : ProjectAlertRule) : ProjectAlertRule :=
  let s := prl_Spec r in
  mkProjectRule (prl_Meta r)
    (mkProjectRuleSpec (prs_ProjectName s) (prs_GroupName s) (prs_Common s)
                       x (prs_WorkloadRule s)).

Definition with_WorkloadRule (x : option WorkloadRule) (r : ProjectAlertRule)
  : ProjectAlertRule :=
  let s := prl_Spec r in
  mkProjectRule (prl_Meta r)
    (mkProjectRuleSpec (prs_ProjectName s) (prs_GroupName s) (prs_Common s)
                       (prs_PodRule s) x).

Definition newProjectRule (projectID : string) (v : ProjectAlert) : ProjectAlertRule :=
  let projectName := (ref_Parse projectID).2 in
  let migrationGroupName := "migrate-group-" +:+ Name (pa_Meta v) in
  let groupID := GetGroupID projectName migrationGroupName in
  let migrationRuleName := "migrate-rule-" +:+ Name (pa_Meta v) in
  let newProjectRule :=
    {| prl_Meta := {| Name := migrationRuleName; Namespace := projectName;
                      ResourceVersion := "" |};
       prl_Spec := {| prs_ProjectName := projectID;
                      prs_GroupName := groupID;
                      prs_Common :=
                        {| crf_DisplayName := pa_DisplayName v;
                           crf_Severity := pa_Severity v;
                           crf_Timing :=
                             {| GroupWaitSeconds := pa_InitialWaitSeconds v;
                                GroupIntervalSeconds := defaultGroupIntervalSeconds;
                                RepeatIntervalSeconds := pa_RepeatIntervalSeconds v |} |};
                      prs_PodRule := None;
                      prs_WorkloadRule := None |} |} in
  let newProjectRule :=
    match pa_TargetPod v with
    | Some t =>
        with_PodRule
          (Some {| pr_PodName := tp_PodName t;
                   pr_Condition := tp_Condition t;
                   pr_RestartTimes := tp_RestartTimes t;
                   pr_RestartIntervalSeconds := tp_RestartIntervalSeconds t |})
          newProjectRule
    | None => newProjectRule
    end in
  match pa_TargetWorkload v with
  | Some t =>
      with_WorkloadRule
        (Some {| wr_WorkloadID := tw_WorkloadID t;
                 wr_Selector := tw_Selector t;
                 wr_AvailablePercentage := tw_AvailablePercentage t |})
        newProjectRule
  | None => newProjectRule
  end.

(** The project [legacyGroup] of lines 348-366. *)
Definition projectLegacyGroup (projectID : string) (v : ProjectAlert) : ProjectAlertGroup :=
  let projectName := (ref_Parse projectID).2 in
  let migrationGroupName := "migrate-group-" +:+ Name (pa_Meta v) in
  {| pg_Meta := {| Name := migrationGroupName; Namespace := projectName;
                   ResourceVersion := "" |};
     pg_ProjectName := projectID;
     pg_Common :=
       {| cgf_DisplayName := "Migrate group";
          cgf_Description := "Migrate alert from last version";
          cgf_Timing :=
            {| GroupWaitSeconds := pa_InitialWaitSeconds v;
               GroupIntervalSeconds := defaultGroupIntervalSeconds;
               RepeatIntervalSeconds := pa_RepeatIntervalSeconds v |} |};
     pg_Recipients := pa_Recipients v |}.

(** Lines 279-284: the alerts of this cluster, grouped by project id;
    [append] keeps the listing order inside a group. *)
Definition oldProjectAlertGroup (items : list ProjectAlert) : gmap string (list ProjectAlert) :=
  foldl (λ (m : gmap string (list ProjectAlert)) v,
           if ObjectInCluster (clusterName l) v
           then <[pa_ProjectName v := default [] (m !! pa_ProjectName v) ++ [v]]> m
           else m)
        ∅ items.

(** [for k, v := range m]: the keys come in the order the runtime picks. *)
Definition range_map {V} (m : gmap string (list V)) (body : string → list V → Go unit)
  : Go unit := λ w,
  forEach (rangeOrder w (length (trace w)) (map_to_list m).*1)
          (λ k, body k (default [] (m !! k))) w.

Definition migrateLegacyProjectAlert : Go unit :=
  r ← oldProjectAlerts_List;
  match r with
  | Fail err => fail (Errorf ("get old project alert failed, " +:+ err_msg err))
  | Ok oldProjectAlert =>
    range_map (oldProjectAlertGroup oldProjectAlert) (λ projectID oldAlerts,
      let projectName := (ref_Parse projectID).2 in
      forEach oldAlerts (λ v,
        let newProjectRule := newProjectRule projectID v in
        r ← projectAlertRules_GetNamespaced projectName (Name (prl_Meta newProjectRule));
        match r with
        | Fail err =>
            if negb (IsNotFound err) then
              fail (Errorf ("migrate " +:+ Namespace (pa_Meta v) +:+ ":" +:+ Name (pa_Meta v)
                            +:+ " failed, get alert rule failed, " +:+ err_msg err))
            else
              r ← projectAlertRules_Create newProjectRule;
              match r with
              | Fail err =>
                  if negb (IsAlreadyExists err) then
                    fail (Errorf ("migrate " +:+ Namespace (pa_Meta v) +:+ ":"
                                  +:+ Name (pa_Meta v)
                                  +:+ " failed, create alert rule failed, " +:+ err_msg err))
                  else mret tt
              | Ok _ => mret tt
              end
        | Ok oldProjectRule =>
            let updatedProjectRule :=
              mkProjectRule (prl_Meta oldProjectRule) (prl_Spec newProjectRule) in
            r ← projectAlertRules_Update updatedProjectRule;
            match r with
            | Fail err =>
                fail (Errorf ("migrate " +:+ Namespace (pa_Meta v) +:+ ":"
                              +:+ Name (pa_Meta v)
                              +:+ " failed, update alert rule failed, " +:+ err_msg err))
            | Ok _ => mret tt
            end
        end;;
        let legacyGroup := projectLegacyGroup projectID v in
        r ← projectAlertGroups_Create legacyGroup;
        match r with
        | Fail err =>
            (* [legacyGroup] was overwritten by the answer of [Create],
               which on failure is the client's empty object *)
            if negb (IsAlreadyExists err) then
              fail (Errorf ("create migrate alert group " +:+ "" +:+ ":" +:+ ""
                            +:+ " failed, " +:+ err_msg err))
            else mret tt
        | Ok _ => mret tt
        end))
  end.

Definition removeLegacyAlerting : Go unit :=
  let legacyAlertmanagerNamespace := "cattle-alerting" in
  r ← namespaces_Delete legacyAlertmanagerNamespace;
  match r with
  | Fail err =>
      if negb (IsNotFound err) then
        fail (Wrap err "failed to remove legacy alerting namespace when upgrade")
      else mret tt
  | Ok _ => mret tt
  end.

(** [settings.SystemMonitoringCatalogID.Get()]. *)
Definition settings_SystemMonitoringCatalogID_Get : Go string :=
  λ w, (Return (SystemMonitoringCatalogID (ro w)), w).

(** Line 102. *)
Definition newExternalID (systemCatalogName templateName : string)
    (template : CatalogTemplate) : string :=
  "catalog://?catalog=" +:+ systemCatalogName +:+ "&template=" +:+ templateName
    +:+ "&version=" +:+ tpl_DefaultVersion template.

(** Lines 146-148: the copy of [app] with the two fields set; a nil
    [Answers] map cannot be assigned to. *)
Definition newApp (newExternalID : string) (app : App) : option App :=
  match app_Answers app with
  | None => None
  | Some answers =>
      Some {| app_Meta := app_Meta app;
              app_ExternalID := newExternalID;
              app_Answers := Some (<["operator.enabled" := "false"]> answers) |}
  end.

Definition Upgrade (currentVersion : string) : Go string :=
  catalogID ← settings_SystemMonitoringCatalogID_Get;
  match SplitExternalID catalogID with
  | Fail err => fail err
  | Ok (templateVersionNamespace, systemCatalogName, _, templateName, _) =>
    let templateID := systemCatalogName +:+ "-" +:+ templateName in
    r ← templateLister_Get templateVersionNamespace templateID;
    match r with
    | Fail err => fail (Wrap err ("get template " +:+ templateID +:+ " failed"))
    | Ok template =>
      let newExternalID := newExternalID systemCatalogName templateName template in
      match ParseExternalID newExternalID with
      | Fail err => fail err
      | Ok (newVersion, _) =>
        let appName := ClusterAlertManagerInfo.1 in
        (* migrate legacy *)
        (if negb (strings_Contains currentVersion "system-library-rancher-monitoring")
         then
           migrateLegacyClusterAlert;;
           migrateLegacyProjectAlert;;
           removeLegacyAlerting
         else mret tt);;
        (* upgrade old app *)
        r ← projectLister_List;
        match r with
        | Fail err => fail (Errorf ("list system project failed, " +:+ err_msg err))
        | Ok defaultSystemProjects =>
          match defaultSystemProjects with
          | [] => fail (Errorf "get system project failed")
          | None :: _ => fail (Errorf "get system project failed")
          | Some systemProject :: _ =>
            r ← apps_GetNamespaced (proj_Name systemProject) appName;
            match r with
            | Fail err =>
                if IsNotFound err then mret newVersion
                else fail (Errorf ("get app " +:+ proj_Name systemProject +:+ ":"
                                   +:+ appName +:+ " failed, " +:+ err_msg err))
            | Ok app =>
              match newApp newExternalID app with
              | None => panic "assignment to entry in nil map"
              | Some newApp =>
                (if bool_decide (newApp ≠ app) then
                   (* check cluster ready before upgrade *)
                   r ← clusterLister_Get (clusterName l);
                   match r with
                   | Fail err =>
                       fail (Errorf ("get cluster " +:+ clusterName l +:+ " failed, "
                                     +:+ err_msg err))
                   | Ok cluster =>
                     if negb (ClusterConditionReady cluster) then
                       fail (Errorf ("cluster " +:+ clusterName l +:+ " not ready"))
                     else
                       r ← catalogLister_Get systemCatalogName;
                       match r with
                       | Fail err =>
                           fail (Errorf ("get catalog " +:+ systemCatalogName
                                         +:+ " failed, " +:+ err_msg err))
                       | Ok systemCatalog =>
                         if negb (CatalogConditionUpgraded systemCatalog)
                            || negb (CatalogConditionRefreshed systemCatalog)
                            || negb (CatalogConditionDiskCached systemCatalog)
                         then fail (Errorf ("catalog " +:+ systemCatalogName
                                            +:+ " not ready"))
                         else
                           r ← apps_Update newApp;
                           match r with
                           | Fail err =>
                               fail (Errorf ("update app " +:+ Namespace (app_Meta app)
                                             +:+ ":" +:+ Name (app_Meta app)
                                             +:+ " failed, " +:+ err_msg err))
                           | Ok _ => mret tt
                           end
                       end
                   end
                 else mret tt);;
                mret newVersion
              end
            end
          end
        end
      end
    end
  end.

(** Lines 82-89. *)
Definition Version : Go string :=
  catalogID ← settings_SystemMonitoringCatalogID_Get;
  match ParseExternalID catalogID with
  | Fail err =>
      fail (Errorf ("get system monitor catalog version failed, " +:+ err_msg err))
  | Ok (templateVersionID, _) => mret templateVersionID
  end.

(** ** Vocabulary of the statements *)

(** The calls that [migrateLegacyClusterAlert] may make when the legacy
    cluster alerts are [items]: every rule or group it reads or writes
    is the translation of one of them. *)
Definition cluster_migration_call (items : list ClusterAlert) (c : Call) : Prop :=
  match c with
  | OldClusterAlerts_List => True
  | ClusterAlertRules_Get name =>
      ∃ v, v ∈ items ∧ name = Name (cr_Meta (newClusterRule v))
  | ClusterAlertRules_Create o => ∃ v, v ∈ items ∧ o = newClusterRule v
  | ClusterAlertRules_Update o =>
      ∃ v, v ∈ items ∧ cr_Spec o = cr_Spec (newClusterRule v)
  | ClusterAlertGroups_Create o => ∃ v, v ∈ items ∧ o = clusterLegacyGroup v
  | _ => False
  end.

(** The legacy project alerts of this cluster. *)
Definition in_cluster (items : list ProjectAlert) (v : ProjectAlert) : Prop :=
  v ∈ items ∧ ObjectInCluster (clusterName l) v = true.

Definition project_migration_call (items : list ProjectAlert) (c : Call) : Prop :=
  match c with
  | OldProjectAlerts_List => True
  | ProjectAlertRules_GetNamespaced namespace name =>
      ∃ v, in_cluster items v
           ∧ namespace = Namespace (prl_Meta (newProjectRule (pa_ProjectName v) v))
           ∧ name = Name (prl_Meta (newProjectRule (pa_ProjectName v) v))
  | ProjectAlertRules_Create o =>
      ∃ v, in_cluster items v ∧ o = newProjectRule (pa_ProjectName v) v
  | ProjectAlertRules_Update o =>
      ∃ v, in_cluster items v
           ∧ prl_Spec o = prl_Spec (newProjectRule (pa_ProjectName v) v)
  | ProjectAlertGroups_Create o =>
      ∃ v, in_cluster items v ∧ o = projectLegacyGroup (pa_ProjectName v) v
  | _ => False
  end.

(** The calls of the migration and of the legacy cleanup. *)
Definition is_migration_call (c : Call) : bool :=
  match c with
  | OldClusterAlerts_List | OldProjectAlerts_List
  | ClusterAlertRules_Get _ | ClusterAlertRules_Create _ | ClusterAlertRules_Update _
  | ClusterAlertGroups_Create _
  | ProjectAlertRules_GetNamespaced _ _ | ProjectAlertRules_Create _
  | ProjectAlertRules_Update _ | ProjectAlertGroups_Create _
  | Namespaces_Delete _ => true
  | _ => false
  end.

(** The timing of a rule. *)
Definition cr_Timing (o : ClusterAlertRule) : TimingField :=
  crf_Timing (crs_Common (cr_Spec o)).

Definition prl_Timing (o : ProjectAlertRule) : TimingField :=
  crf_Timing (prs_Common (prl_Spec o)).

(** The target specializations. *)
Inductive Specialization :=
| SpecNode | SpecEvent | SpecSystemService | SpecPod | SpecWorkload.

Definition tag {A} (s : Specialization) (o : option A) : list Specialization :=
  match o with Some _ => [s] | None => [] end.

(** The specializations a legacy alert carries, and the ones set in a
    rule specification. *)
Definition cluster_targets (v : ClusterAlert) : list Specialization :=
  tag SpecNode (ca_TargetNode v) ++ tag SpecEvent (ca_TargetEvent v)
    ++ tag SpecSystemService (ca_TargetSystemService v).

Definition cluster_specializations (s : ClusterAlertRuleSpec) : list Specialization :=
  tag SpecNode (crs_NodeRule s) ++ tag SpecEvent (crs_EventRule s)
    ++ tag SpecSystemService (crs_SystemServiceRule s).

Definition project_targets (v : ProjectAlert) : list Specialization :=
  tag SpecPod (pa_TargetPod v) ++ tag SpecWorkload (pa_TargetWorkload v).

Definition project_specializations (s : ProjectAlertRuleSpec) : list Specialization :=
  tag SpecPod (prs_PodRule s) ++ tag SpecWorkload (prs_WorkloadRule s).

(** The failures that the migration and the cleanup recover from:
    not-found when a rule is read or the legacy namespace is deleted,
    already-exists when a rule or a group is created. *)
Definition tolerated (c : Call) (err : GoError) : bool :=
  match c with
  | ClusterAlertRules_Get _ | ProjectAlertRules_GetNamespaced _ _
  | Namespaces_Delete _ => IsNotFound err
  | ClusterAlertRules_Create _ | ClusterAlertGroups_Create _
  | ProjectAlertRules_Create _ | ProjectAlertGroups_Create _ => IsAlreadyExists err
  | _ => false
  end.

(** The environment visits every key of a map exactly once. *)
Definition range_ok (w : World) : Prop :=
  ∀ n ks, rangeOrder w n ks ≡ₚ ks.

(** *** The migration as a store transformation *)

(** No call fails for a reason of the environment. *)
Definition no_faults (w : World) : Prop := ∀ n c, faults w n c = None.

(** Every rule is stored under its own namespace and name. *)
Definition rules_ok (s : Stores) : Prop :=
  (∀ k o, clusterAlertRules s !! k = Some o → key_of (cr_Meta o) = k)
  ∧ (∀ k o, projectAlertRules s !! k = Some o → key_of (prl_Meta o) = k).

(** Lines 239-240 and 341-342: the stored rule keeps its metadata and
    takes the new specification; a stored group is left alone. *)
Definition merge_cluster_rule (old new : ClusterAlertRule) : ClusterAlertRule :=
  mkClusterRule (cr_Meta old) (cr_Spec new).

Definition merge_project_rule (old new : ProjectAlertRule) : ProjectAlertRule :=
  mkProjectRule (prl_Meta old) (prl_Spec new).

Definition keep {A} (old new : A) : A := old.

Definition cluster_rule_upserts (items : list ClusterAlert)
  : list (Key * ClusterAlertRule) :=
  (λ v, (key_of (cr_Meta (newClusterRule v)), newClusterRule v)) <$> items.

Definition cluster_group_upserts (items : list ClusterAlert)
  : list (Key * ClusterAlertGroup) :=
  (λ v, (key_of (cg_Meta (clusterLegacyGroup v)), clusterLegacyGroup v)) <$> items.

(** The stores after the migration of the legacy cluster alerts
    [items], when no call fails for a reason of the environment. *)
Definition cluster_migrated (items : list ClusterAlert) (s : Stores) : Stores :=
  with_clusterAlertGroups
    (upsert_all keep (cluster_group_upserts items) (clusterAlertGroups s))
    (with_clusterAlertRules
       (upsert_all merge_cluster_rule (cluster_rule_upserts items) (clusterAlertRules s))
       s).

(** The legacy project alerts in the order they are migrated when the
    projects are visited in the order [order], each with its project. *)
Definition project_work (items : list ProjectAlert) (order : list string)
  : list (string * ProjectAlert) :=
  order ≫= λ projectID,
    (λ v, (projectID, v)) <$> default [] (oldProjectAlertGroup items !! projectID).

Definition project_rule_upserts (work : list (string * ProjectAlert))
  : list (Key * ProjectAlertRule) :=
  (λ x, (key_of (prl_Meta (newProjectRule x.1 x.2)), newProjectRule x.1 x.2)) <$> work.

Definition project_group_upserts (work : list (string * ProjectAlert))
  : list (Key * ProjectAlertGroup) :=
  (λ x, (key_of (pg_Meta (projectLegacyGroup x.1 x.2)), projectLegacyGroup x.1 x.2))
    <$> work.

Definition project_migrated (work : list (string * ProjectAlert)) (s : Stores) : Stores :=
  with_projectAlertGroups
    (upsert_all keep (project_group_upserts work) (projectAlertGroups s))
    (with_projectAlertRules
       (upsert_all merge_project_rule (project_rule_upserts work) (projectAlertRules s))
       s).

(** The rules and groups of all the legacy alerts are in the stores. *)
Definition cluster_saturated (items : list ClusterAlert) (s : Stores) : Prop :=
  ∀ v, v ∈ items →
       is_Some (clusterAlertRules s !! key_of (cr_Meta (newClusterRule v)))
       ∧ is_Some (clusterAlertGroups s !! key_of (cg_Meta (clusterLegacyGroup v))).

Definition project_saturated (items : list ProjectAlert) (s : Stores) : Prop :=
  ∀ v, in_cluster items v →
       is_Some (projectAlertRules s
                  !! key_of (prl_Meta (newProjectRule (pa_ProjectName v) v)))
       ∧ is_Some (projectAlertGroups s
                    !! key_of (pg_Meta (projectLegacyGroup (pa_ProjectName v) v))).

(** A call of a migration that finds everything in place: no rule is
    created, the creation of a group is answered already-exists, every
    other call succeeds. *)
Definition replayed (ev : Event) : bool :=
  match ev.1 with
  | ClusterAlertRules_Create _ | ProjectAlertRules_Create _ => false
  | ClusterAlertGroups_Create _ | ProjectAlertGroups_Create _ =>
      match ev.2 with
      | Fail err => IsAlreadyExists err
      | Ok _ => false
      end
  | _ => is_Ok ev.2
  end.

(** Among the calls [evs], the rule of the legacy alert [v] was fetched
    under its derived name and updated in place. *)
Definition cluster_rule_updated (evs : list Event) (v : ClusterAlert) : Prop :=
  ∃ old,
    (ClusterAlertRules_Get (Name (cr_Meta (newClusterRule v))), Ok (VClusterRule old))
      ∈ evs
    ∧ (ClusterAlertRules_Update (merge_cluster_rule old (newClusterRule v)),
       Ok (VClusterRule (merge_cluster_rule old (newClusterRule v)))) ∈ evs.

Definition project_rule_updated (evs : list Event) (v : ProjectAlert) : Prop :=
  ∃ old,
    (ProjectAlertRules_GetNamespaced
       (Namespace (prl_Meta (newProjectRule (pa_ProjectName v) v)))
       (Name (prl_Meta (newProjectRule (pa_ProjectName v) v))),
     Ok (VProjectRule old)) ∈ evs
    ∧ (ProjectAlertRules_Update
         (merge_project_rule old (newProjectRule (pa_ProjectName v) v)),
       Ok (VProjectRule (merge_project_rule old (newProjectRule (pa_ProjectName v) v))))
        ∈ evs.

(** The project names of the project ids of this cluster's legacy
    alerts are pairwise distinct. *)
Definition project_names_distinct (items : list ProjectAlert) : Prop :=
  ∀ v v', in_cluster items v → in_cluster items v' →
          (ref_Parse (pa_ProjectName v)).2 = (ref_Parse (pa_ProjectName v')).2 →
          pa_ProjectName v = pa_ProjectName v'.

Definition no_panic {A} (out : Outcome A) : Prop :=
  match out with Panic _ => False | _ => True end.

(** Lines 110-123 of [Upgrade]: the migration, skipped when the previous
    version carries the marker. *)
Definition migration_block (currentVersion : string) : Go unit :=
  if negb (strings_Contains currentVersion "system-library-rancher-monitoring")
  then
    migrateLegacyClusterAlert;;
    migrateLegacyProjectAlert;;
    removeLegacyAlerting
  else mret tt.

(** The paths through lines 125-173 of [Upgrade] (the upgrade of the
    deployed application), as outcome and calls made, for catalog name
    [cat], new external id [eid] and new version [nv]. *)
Inductive App_path (cat eid nv : string) : Outcome string → list Event → Prop :=
| app_list_fails err :
    App_path cat eid nv
      (Error (Errorf ("list system project failed, " +:+ err_msg err)))
      [(ProjectLister_List, Fail err)]
| app_no_project ps :
    head ps = None ∨ head ps = Some None →
    App_path cat eid nv
      (Error (Errorf "get system project failed"))
      [(ProjectLister_List, Ok (VProjects ps))]
| app_not_found sp ps err :
    IsNotFound err = true →
    App_path cat eid nv
      (Return nv)
      [(ProjectLister_List, Ok (VProjects (Some sp :: ps)));
       (Apps_GetNamespaced (proj_Name sp) ClusterAlertManagerInfo.1, Fail err)]
| app_get_fails sp ps err :
    IsNotFound err = false →
    App_path cat eid nv
      (Error (Errorf ("get app " +:+ proj_Name sp +:+ ":" +:+ ClusterAlertManagerInfo.1
                      +:+ " failed, " +:+ err_msg err)))
      [(ProjectLister_List, Ok (VProjects (Some sp :: ps)));
       (Apps_GetNamespaced (proj_Name sp) ClusterAlertManagerInfo.1, Fail err)]
| app_nil_answers sp ps app :
    app_Answers app = None →
    App_path cat eid nv
      (Panic "assignment to entry in nil map")
      [(ProjectLister_List, Ok (VProjects (Some sp :: ps)));
       (Apps_GetNamespaced (proj_Name sp) ClusterAlertManagerInfo.1, Ok (VApp app))]
| app_unchanged sp ps app :
    newApp eid app = Some app →
    App_path cat eid nv
      (Return nv)
      [(ProjectLister_List, Ok (VProjects (Some sp :: ps)));
       (Apps_GetNamespaced (proj_Name sp) ClusterAlertManagerInfo.1, Ok (VApp app))]
| app_cluster_fails sp ps app app' err :
    newApp eid app = Some app' → app' ≠ app →
    App_path cat eid nv
      (Error (Errorf ("get cluster " +:+ clusterName l +:+ " failed, " +:+ err_msg err)))
      [(ProjectLister_List, Ok (VProjects (Some sp :: ps)));
       (Apps_GetNamespaced (proj_Name sp) ClusterAlertManagerInfo.1, Ok (VApp app));
       (ClusterLister_Get (clusterName l), Fail err)]
| app_cluster_not_ready sp ps app app' cluster :
    newApp eid app = Some app' → app' ≠ app →
    ClusterConditionReady cluster = false →
    App_path cat eid nv
      (Error (Errorf ("cluster " +:+ clusterName l +:+ " not ready")))
      [(ProjectLister_List, Ok (VProjects (Some sp :: ps)));
       (Apps_GetNamespaced (proj_Name sp) ClusterAlertManagerInfo.1, Ok (VApp app));
       (ClusterLister_Get (clusterName l), Ok (VCluster cluster))]
| app_catalog_fails sp ps app app' cluster err :
    newApp eid app = Some app' → app' ≠ app →
    ClusterConditionReady cluster = true →
    App_path cat eid nv
      (Error (Errorf ("get catalog " +:+ cat +:+ " failed, " +:+ err_msg err)))
      [(ProjectLister_List, Ok (VProjects (Some sp :: ps)));
       (Apps_GetNamespaced (proj_Name sp) ClusterAlertManagerInfo.1, Ok (VApp app));
       (ClusterLister_Get (clusterName l), Ok (VCluster cluster));
       (CatalogLister_Get cat, Fail err)]
| app_catalog_not_ready sp ps app app' cluster catalog :
    newApp eid app = Some app' → app' ≠ app →
    ClusterConditionReady cluster = true →
    CatalogConditionUpgraded catalog && CatalogConditionRefreshed catalog
      && CatalogConditionDiskCached catalog = false →
    App_path cat eid nv
      (Error (Errorf ("catalog " +:+ cat +:+ " not ready")))
      [(ProjectLister_List, Ok (VProjects (Some sp :: ps)));
       (Apps_GetNamespaced (proj_Name sp) ClusterAlertManagerInfo.1, Ok (VApp app));
       (ClusterLister_Get (clusterName l), Ok (VCluster cluster));
       (CatalogLister_Get cat, Ok (VCatalog catalog))]
| app_update_fails sp ps app app' cluster catalog err :
    newApp eid app = Some app' → app' ≠ app →
    ClusterConditionReady cluster = true →
    CatalogConditionUpgraded catalog && CatalogConditionRefreshed catalog
      && CatalogConditionDiskCached catalog = true →
    App_path cat eid nv
      (Error (Errorf ("update app " +:+ Namespace (app_Meta app) +:+ ":"
                      +:+ Name (app_Meta app) +:+ " failed, " +:+ err_msg err)))
      [(ProjectLister_List, Ok (VProjects (Some sp :: ps)));
       (Apps_GetNamespaced (proj_Name sp) ClusterAlertManagerInfo.1, Ok (VApp app));
       (ClusterLister_Get (clusterName l), Ok (VCluster cluster));
       (CatalogLister_Get cat, Ok (VCatalog catalog));
       (Apps_Update app', Fail err)]
| app_updated sp ps app app' cluster catalog stored :
    newApp eid app = Some app' → app' ≠ app →
    ClusterConditionReady cluster = true →
    CatalogConditionUpgraded catalog && CatalogConditionRefreshed catalog
      && CatalogConditionDiskCached catalog = true →
    App_path cat eid nv
      (Return nv)
      [(ProjectLister_List, Ok (VProjects (Some sp :: ps)));
       (Apps_GetNamespaced (proj_Name sp) ClusterAlertManagerInfo.1, Ok (VApp app));
       (ClusterLister_Get (clusterName l), Ok (VCluster cluster));
       (CatalogLister_Get cat, Ok (VCatalog catalog));
       (Apps_Update app', Ok (VApp stored))].

(** The paths through [Upgrade currentVersion] from the world [w]. *)
Inductive Upgrade_path (currentVersion : string) (w : World)
  : Outcome string → list Event → Prop :=
| path_split_fails err :
    SplitExternalID (SystemMonitoringCatalogID (ro w)) = Fail err →
    Upgrade_path currentVersion w (Error err) []
| path_template_fails tns cat kind tn extra err :
    SplitExternalID (SystemMonitoringCatalogID (ro w)) = Ok (tns, cat, kind, tn, extra) →
    Upgrade_path currentVersion w
      (Error (Wrap err ("get template " +:+ (cat +:+ "-" +:+ tn) +:+ " failed")))
      [(TemplateLister_Get tns (cat +:+ "-" +:+ tn), Fail err)]
| path_parse_fails tns cat kind tn extra template err :
    SplitExternalID (SystemMonitoringCatalogID (ro w)) = Ok (tns, cat, kind, tn, extra) →
    ParseExternalID (newExternalID cat tn template) = Fail err →
    Upgrade_path currentVersion w
      (Error err)
      [(TemplateLister_Get tns (cat +:+ "-" +:+ tn), Ok (VTemplate template))]
| path_migration_fails tns cat kind tn extra template nv extra' w1 err :
    SplitExternalID (SystemMonitoringCatalogID (ro w)) = Ok (tns, cat, kind, tn, extra) →
    ParseExternalID (newExternalID cat tn template) = Ok (nv, extra') →
    extends w w1 [(TemplateLister_Get tns (cat +:+ "-" +:+ tn), Ok (VTemplate template))] →
    stores w1 = stores w →
    outcome_of (migration_block currentVersion) w1 = Error err →
    Upgrade_path currentVersion w
      (Error err)
      ((TemplateLister_Get tns (cat +:+ "-" +:+ tn), Ok (VTemplate template))
         :: events_of (migration_block currentVersion) w1)
| path_migrated tns cat kind tn extra template nv extra' w1 out rest :
    SplitExternalID (SystemMonitoringCatalogID (ro w)) = Ok (tns, cat, kind, tn, extra) →
    ParseExternalID (newExternalID cat tn template) = Ok (nv, extra') →
    extends w w1 [(TemplateLister_Get tns (cat +:+ "-" +:+ tn), Ok (VTemplate template))] →
    stores w1 = stores w →
    outcome_of (migration_block currentVersion) w1 = Return tt →
    App_path cat (newExternalID cat tn template) nv out rest →
    Upgrade_path currentVersion w
      out
      ((TemplateLister_Get tns (cat +:+ "-" +:+ tn), Ok (VTemplate template))
         :: events_of (migration_block currentVersion) w1 ++ rest).

(** A run of [Upgrade] from [w] with calls [evs] resolved the catalog
    name [cat], the new external id [eid] and the new version [nv]:
    the setting was split, the template was fetched, and the version
    was parsed from the external id built with its default version. *)
Definition resolved (w : World) (evs : list Event) (cat eid nv : string) : Prop :=
  ∃ tns kind tn extra template extra',
    SplitExternalID (SystemMonitoringCatalogID (ro w)) = Ok (tns, cat, kind, tn, extra)
    ∧ (TemplateLister_Get tns (cat +:+ "-" +:+ tn), Ok (VTemplate template)) ∈ evs
    ∧ eid = newExternalID cat tn template
    ∧ ParseExternalID eid = Ok (nv, extra').

(** The world [w] lets [Upgrade] resolve the catalog name [cat], the new
    external id [eid] and the new version [nv]: the setting splits, the
    template lister asked in [w] answers the template, and the version
    parses from the external id built with its default version.  Nothing
    here speaks of a run of [Upgrade]. *)
Definition resolvable (w : World) (cat eid nv : string) : Prop :=
  ∃ tns kind tn extra template extra',
    SplitExternalID (SystemMonitoringCatalogID (ro w)) = Ok (tns, cat, kind, tn, extra)
    ∧ outcome_of (templateLister_Get tns (cat +:+ "-" +:+ tn)) w = Return (Ok template)
    ∧ eid = newExternalID cat tn template
    ∧ ParseExternalID eid = Ok (nv, extra').

(** The calls of the three migration steps run one after the other from
    [w]: a step runs only if the steps before it returned no error. *)
Definition migration_events (w : World) : list Event :=
  events_of migrateLegacyClusterAlert w
  ++ match outcome_of migrateLegacyClusterAlert w with
     | Return _ =>
         let w2 := (migrateLegacyClusterAlert w).2 in
         events_of migrateLegacyProjectAlert w2
         ++ match outcome_of migrateLegacyProjectAlert w2 with
            | Return _ => events_of removeLegacyAlerting (migrateLegacyProjectAlert w2).2
            | _ => []
            end
     | _ => []
     end.

(** *** The trace as a log of the stores

    What the store answers to the call [c] made on the stores [s], and
    the stores afterwards: the store operations of the clients, call by
    call. *)
Definition answer (r : ReadOnly) (s : Stores) (c : Call) : Result Value * Stores :=
  match c with
  | TemplateLister_Get namespace name =>
      (result_map VTemplate (store_get (namespace, name) (templates r)), s)
  | OldClusterAlerts_List => (Ok (VClusterAlerts (oldClusterAlerts r)), s)
  | OldProjectAlerts_List => (Ok (VProjectAlerts (oldProjectAlerts r)), s)
  | ClusterAlertRules_Get name =>
      (result_map VClusterRule (store_get (clusterName l, name) (clusterAlertRules s)), s)
  | ClusterAlertRules_Create o =>
      let c := store_create (key_of (cr_Meta o)) o (clusterAlertRules s) in
      (result_map VClusterRule c.1, with_clusterAlertRules c.2 s)
  | ClusterAlertRules_Update o =>
      let c := store_update (key_of (cr_Meta o)) o (clusterAlertRules s) in
      (result_map VClusterRule c.1, with_clusterAlertRules c.2 s)
  | ClusterAlertGroups_Create o =>
      let c := store_create (key_of (cg_Meta o)) o (clusterAlertGroups s) in
      (result_map VClusterGroup c.1, with_clusterAlertGroups c.2 s)
  | ProjectAlertRules_GetNamespaced namespace name =>
      (result_map VProjectRule (store_get (namespace, name) (projectAlertRules s)), s)
  | ProjectAlertRules_Create o =>
      let c := store_create (key_of (prl_Meta o)) o (projectAlertRules s) in
      (result_map VProjectRule c.1, with_projectAlertRules c.2 s)
  | ProjectAlertRules_Update o =>
      let c := store_update (key_of (prl_Meta o)) o (projectAlertRules s) in
      (result_map VProjectRule c.1, with_projectAlertRules c.2 s)
  | ProjectAlertGroups_Create o =>
      let c := store_create (key_of (pg_Meta o)) o (projectAlertGroups s) in
      (result_map VProjectGroup c.1, with_projectAlertGroups c.2 s)
  | Namespaces_Delete name =>
      if decide (name ∈ namespaces s)
      then (Ok VNone, with_namespaces (namespaces s ∖ {[name]}) s)
      else (Fail (NewNotFound name), s)
  | ProjectLister_List => (Ok (VProjects (systemProjects r)), s)
  | Apps_GetNamespaced namespace name =>
      (result_map VApp (store_get (namespace, name) (apps s)), s)
  | Apps_Update o =>
      let c := store_update (key_of (app_Meta o)) o (apps s) in
      (result_map VApp c.1, with_apps c.2 s)
  | ClusterLister_Get name =>
      (match clusters r !! name with
       | Some c => Ok (VCluster c)
       | None => Fail (NewNotFound name)
       end, s)
  | CatalogLister_Get name =>
      (match catalogs r !! name with
       | Some c => Ok (VCatalog c)
       | None => Fail (NewNotFound name)
       end, s)
  end.

(** What an answered call does to the stores: a write that succeeded
    stores or removes its object, anything else changes nothing. *)
Definition effect (ev : Event) (s : Stores) : Stores :=
  match ev with
  | (ClusterAlertRules_Create o, Ok _) | (ClusterAlertRules_Update o, Ok _) =>
      with_clusterAlertRules (<[key_of (cr_Meta o) := o]> (clusterAlertRules s)) s
  | (ClusterAlertGroups_Create o, Ok _) =>
      with_clusterAlertGroups (<[key_of (cg_Meta o) := o]> (clusterAlertGroups s)) s
  | (ProjectAlertRules_Create o, Ok _) | (ProjectAlertRules_Update o, Ok _) =>
      with_projectAlertRules (<[key_of (prl_Meta o) := o]> (projectAlertRules s)) s
  | (ProjectAlertGroups_Create o, Ok _) =>
      with_projectAlertGroups (<[key_of (pg_Meta o) := o]> (projectAlertGroups s)) s
  | (Namespaces_Delete name, Ok _) => with_namespaces (namespaces s ∖ {[name]}) s
  | (Apps_Update o, Ok _) => with_apps (<[key_of (app_Meta o) := o]> (apps s)) s
  | _ => s
  end.

Definition replay (evs : list Event) (s : Stores) : Stores :=
  foldl (λ s ev, effect ev s) s evs.

(** The events [evs], made from the [n]-th call on and starting on the
    stores [s], are what the environment answers: the injected failure
    where there is one, the answer of the store otherwise. *)
Fixpoint valid (r : ReadOnly) (f : nat → Call → option GoError) (n : nat)
    (s : Stores) (evs : list Event) : Prop :=
  match evs with
  | [] => True
  | ev :: evs' =>
      match f n ev.1 with
      | Some err => ev.2 = Fail err
      | None => ev.2 = (answer r s ev.1).1
      end
      ∧ valid r f (S n) (effect ev s) evs'
  end.

(** A computation keeps the log: its events are valid and its final
    stores are the replay of its events. *)
Definition tracks {A} (m : Go A) : Prop :=
  ∀ w, wp m w (λ _ w' evs,
                 valid (ro w) (faults w) (length (trace w)) (stores w) evs
                 ∧ stores w' = replay evs (stores w)).

(** Every application is stored under its own namespace and name. *)
Definition apps_ok (s : Stores) : Prop :=
  ∀ k o, apps s !! k = Some o → key_of (app_Meta o) = k.

(** The rules, the groups and the namespaces of [s'] are those of [s]. *)
Definition same_alerting (s s' : Stores) : Prop :=
  clusterAlertRules s' = clusterAlertRules s
  ∧ clusterAlertGroups s' = clusterAlertGroups s
  ∧ projectAlertRules s' = projectAlertRules s
  ∧ projectAlertGroups s' = projectAlertGroups s
  ∧ namespaces s' = namespaces s.


(** A call that succeeded was answered by the store. *)
Definition genuine_ok (r : ReadOnly) (s : Stores) (ev : Event) : Prop :=
  ∀ v, ev.2 = Ok v → Ok v = (answer r s ev.1).1.

(** From [s] to [s'] nothing is lost: every group is kept as it is, every
    rule and every application is still there, and of the namespaces only
    the legacy one may be gone. *)
Definition nothing_lost (s s' : Stores) : Prop :=
  (∀ k g, clusterAlertGroups s !! k = Some g → clusterAlertGroups s' !! k = Some g)
  ∧ (∀ k g, projectAlertGroups s !! k = Some g → projectAlertGroups s' !! k = Some g)
  ∧ (∀ k, is_Some (clusterAlertRules s !! k) → is_Some (clusterAlertRules s' !! k))
  ∧ (∀ k, is_Some (projectAlertRules s !! k) → is_Some (projectAlertRules s' !! k))
  ∧ (∀ k, is_Some (apps s !! k) → is_Some (apps s' !! k))
  ∧ namespaces s' ⊆ namespaces s
  ∧ namespaces s ∖ {["cattle-alerting"]} ⊆ namespaces s'.

(** The message [msg] ends with the message [cause]. *)
Definition mentions (msg cause : string) : Prop := ∃ p, msg = p +:+ cause.

(** A function stops at the first failure it does not recover from: when
    it returns an error, its last call is a failure that is not tolerated,
    the only one of its calls, and the error carries its message and no
    status of the store; when it returns no error, every failure among its
    calls is one it tolerates. *)
Definition failed_fast (out : Outcome unit) (evs : list Event) : Prop :=
  match out with
  | Return _ => ∀ c err, (c, Fail err) ∈ evs → tolerated c err = true
  | Error e =>
      ∃ pre c err,
        evs = pre ++ [(c, Fail err)]
        ∧ tolerated c err = false
        ∧ (∀ c' err', (c', Fail err') ∈ pre → tolerated c' err' = true)
        ∧ err_reason e = StatusReasonUnknown
        ∧ mentions (err_msg e) (err_msg err)
  | Panic _ => False
  end.

(** The answer to a creation that leaves the object in the store: it was
    created, or it was there already. *)
Definition accepted (r : Result Value) : Prop :=
  match r with
  | Ok _ => True
  | Fail err => IsAlreadyExists err = true
  end.

(** The state in which [Upgrade] has nothing left to do and answers the
    version [v]: the version resolves to [v], there is a first system
    project, and the deployed application, if there is one, is in its
    desired state. *)
Definition settled (r : ReadOnly) (s : Stores) (v : string) : Prop :=
  ∃ tns cat kind tn extra template extra' sp ps,
    SplitExternalID (SystemMonitoringCatalogID r) = Ok (tns, cat, kind, tn, extra)
    ∧ templates r !! (tns, cat +:+ "-" +:+ tn) = Some template
    ∧ ParseExternalID (newExternalID cat tn template) = Ok (v, extra')
    ∧ systemProjects r = Some sp :: ps
    ∧ (apps s !! (proj_Name sp, ClusterAlertManagerInfo.1) = None
       ∨ ∃ app, apps s !! (proj_Name sp, ClusterAlertManagerInfo.1) = Some app
                ∧ newApp (newExternalID cat tn template) app = Some app).

(** Among the calls [evs] of the migration of the legacy cluster alerts
    [items], a rule is created directly after the read of its name was
    answered not-found, and a rule is updated directly after the read of
    the derived name, as the rule that was read with the specification
    translated from the alert. *)
Definition cluster_protocol (items : list ClusterAlert) (evs : list Event) : Prop :=
  (∀ pre post o r,
      evs = pre ++ (ClusterAlertRules_Create o, r) :: post →
      ∃ v err, v ∈ items ∧ o = newClusterRule v
               ∧ last pre = Some (ClusterAlertRules_Get (Name (cr_Meta o)), Fail err)
               ∧ IsNotFound err = true)
  ∧ (∀ pre post o r,
        evs = pre ++ (ClusterAlertRules_Update o, r) :: post →
        ∃ v old, v ∈ items
                 ∧ last pre
                   = Some (ClusterAlertRules_Get (Name (cr_Meta (newClusterRule v))),
                           Ok (VClusterRule old))
                 ∧ o = mkClusterRule (cr_Meta old) (cr_Spec (newClusterRule v))).

Definition project_protocol (items : list ProjectAlert) (evs : list Event) : Prop :=
  (∀ pre post o r,
      evs = pre ++ (ProjectAlertRules_Create o, r) :: post →
      ∃ v err, in_cluster items v ∧ o = newProjectRule (pa_ProjectName v) v
               ∧ last pre
                 = Some (ProjectAlertRules_GetNamespaced (Namespace (prl_Meta o))
                                                         (Name (prl_Meta o)), Fail err)
               ∧ IsNotFound err = true)
  ∧ (∀ pre post o r,
        evs = pre ++ (ProjectAlertRules_Update o, r) :: post →
        ∃ v old, in_cluster items v
                 ∧ last pre
                   = Some (ProjectAlertRules_GetNamespaced
                             (Namespace (prl_Meta (newProjectRule (pa_ProjectName v) v)))
                             (Name (prl_Meta (newProjectRule (pa_ProjectName v) v))),
                           Ok (VProjectRule old))
                 ∧ o = mkProjectRule (prl_Meta old)
                         (prl_Spec (newProjectRule (pa_ProjectName v) v))).

(** * Reasoning about runs *)

Lemma extends_refl w : extends w w [].
Proof. split; try done. by rewrite app_nil_r. Qed.

Lemma extends_trans w1 w2 w3 evs1 evs2 :
extends w1 w2 evs1 → extends w2 w3 evs2 → extends w1 w3 (evs1 ++ evs2).
Proof.
intros [T1 R1 F1 O1] [T2 R2 F2 O2]. split; try congruence.
by rewrite T2, T1, app_assoc.
Qed.

Lemma wp_elim {A} (m : Go A) w Q :
wp m w Q → Q (outcome_of m w) (m w).2 (events_of m w).
Proof.
intros (evs & E & HQ). unfold outcome_of, events_of.
by rewrite (ext_trace _ _ _ E), drop_app_length.
Qed.

Lemma wp_extends {A} (m : Go A) w Q : wp m w Q → ∃ evs, extends w (m w).2 evs.
Proof. intros (evs & E & _). eauto. Qed.

Lemma wp_intro {A} (m : Go A) w :
(∃ evs, extends w (m w).2 evs) →
wp m w (λ out w' evs, out = outcome_of m w ∧ w' = (m w).2 ∧ evs = events_of m w).
Proof.
intros (evs & E). exists evs. split; [done|]. unfold outcome_of, events_of.
by rewrite (ext_trace _ _ _ E), drop_app_length.
Qed.

Lemma wp_mono {A} (m : Go A) w (Q Q' : Outcome A → World → list Event → Prop) :
wp m w Q → (∀ out w' evs, extends w w' evs → Q out w' evs → Q' out w' evs) → wp m w Q'.
Proof. intros (evs & E & HQ) H. exists evs. eauto. Qed.

Lemma wp_and {A} (m : Go A) w (Q Q' : Outcome A → World → list Event → Prop) :
wp m w Q → wp m w Q' → wp m w (λ out w' evs, Q out w' evs ∧ Q' out w' evs).
Proof.
intros (evs & E & HQ) (evs' & E' & HQ').
assert (evs' = evs) as ->.
{ pose proof (ext_trace _ _ _ E) as T. rewrite (ext_trace _ _ _ E') in T.
  by apply app_inv_head in T. }
by exists evs.
Qed.

Lemma wp_ret {A} (a : A) w (Q : Outcome A → World → list Event → Prop) :
Q (Return a) w [] → wp (mret a) w Q.
Proof. intros. exists []. split; [apply extends_refl | done]. Qed.

Lemma wp_fail {A} err w (Q : Outcome A → World → list Event → Prop) :
Q (Error err) w [] → wp (fail err) w Q.
Proof. intros. exists []. split; [apply extends_refl | done]. Qed.

Lemma wp_panic {A} msg w (Q : Outcome A → World → list Event → Prop) :
Q (Panic msg) w [] → wp (panic msg) w Q.
Proof. intros. exists []. split; [apply extends_refl | done]. Qed.

Lemma wp_bind {A B} (m : Go A) (k : A → Go B) w
  (Q : Outcome B → World → list Event → Prop) :
wp m w (λ out w1 evs1,
          match out with
          | Return a => wp (k a) w1 (λ out2 w2 evs2, Q out2 w2 (evs1 ++ evs2))
          | Error err => Q (Error err) w1 evs1
          | Panic msg => Q (Panic msg) w1 evs1
          end) →
wp (m ≫= k) w Q.
Proof.
intros (evs1 & E1 & H). unfold wp, mbind, Go_bind.
destruct (m w) as [[a|err|msg] w1]; simpl in *; [|by exists evs1..].
destruct H as (evs2 & E2 & H). exists (evs1 ++ evs2).
split; [by eapply extends_trans | done].
Qed.

(** The two ways a client call can go. *)
Lemma wp_api {A} c inj (op : ReadOnly → Stores → Result A * Stores) w
  (Q : Outcome (Result A) → World → list Event → Prop) :
(∀ err, faults w (length (trace w)) c = Some err →
        Q (Return (Fail err)) (record (c, Fail err) w) [(c, Fail err)]) →
(faults w (length (trace w)) c = None →
 Q (Return (op (ro w) (stores w)).1)
   (mkWorld (ro w) (op (ro w) (stores w)).2 (faults w) (rangeOrder w)
            (trace w ++ [(c, result_map inj (op (ro w) (stores w)).1)]))
   [(c, result_map inj (op (ro w) (stores w)).1)]) →
wp (api c inj op) w Q.
Proof.
intros Hf Hg. unfold wp, api.
destruct (faults w (length (trace w)) c) as [err|].
- exists [(c, Fail err)]. split; [by split | by apply Hf].
- eexists. split; [by split | by apply Hg].
Qed.

(** A client call seen from outside: one event, with some answer. *)
Lemma wp_api_any {A} c inj (op : ReadOnly → Stores → Result A * Stores) w
  (Q : Outcome (Result A) → World → list Event → Prop) :
(∀ r w', extends w w' [(c, result_map inj r)] →
         Q (Return r) w' [(c, result_map inj r)]) →
wp (api c inj op) w Q.
Proof.
intros H. apply wp_api.
- intros err _. apply (H (Fail err)). by split.
- intros _. apply H. by split.
Qed.

(** The loop rule: [I pre] holds when the elements [pre] have been
  processed without error; an iteration that fails or panics must
  establish the postcondition itself. *)
Lemma wp_forEach {A} (xs : list A) (body : A → Go unit) w
  (I : list A → World → list Event → Prop)
  (Q : Outcome unit → World → list Event → Prop) :
I [] w [] →
(∀ pre x post w1 evs1,
   xs = pre ++ x :: post → extends w w1 evs1 → I pre w1 evs1 →
   wp (body x) w1 (λ out w2 evs2,
                     match out with
                     | Return _ => I (pre ++ [x]) w2 (evs1 ++ evs2)
                     | Error err => Q (Error err) w2 (evs1 ++ evs2)
                     | Panic msg => Q (Panic msg) w2 (evs1 ++ evs2)
                     end)) →
(∀ w' evs, extends w w' evs → I xs w' evs → Q (Return tt) w' evs) →
wp (forEach xs body) w Q.
Proof.
revert w I Q. induction xs as [|x xs IH]; intros w I Q H0 Hstep Hend; simpl.
- apply wp_ret. apply Hend; [apply extends_refl | done].
- apply wp_bind. eapply wp_mono.
  { apply (Hstep [] x xs w []); [done | apply extends_refl | done]. }
  intros [[]|err|msg] w1 evs1 E1 H1; simpl in *; try done.
  apply (IH w1 (λ pre w' evs, I (x :: pre) w' (evs1 ++ evs))
            (λ out w' evs, Q out w' (evs1 ++ evs))).
  + by rewrite app_nil_r.
  + intros pre y post w2 evs2 -> E2 H2.
    eapply wp_mono.
    { apply (Hstep (x :: pre) y post w2 (evs1 ++ evs2));
        [done | by eapply extends_trans | done]. }
    intros [[]|?|?] w3 evs3 _ H3; simpl in *; by rewrite app_assoc.
  + intros w' evs E2 H2. apply Hend; [by eapply extends_trans | done].
Qed.

(** The loop rule with an invariant that does not look at the position. *)
Lemma wp_forEach_inv {A} (xs : list A) (body : A → Go unit) w
  (I : World → list Event → Prop)
  (Q : Outcome unit → World → list Event → Prop) :
I w [] →
(∀ x w1 evs1,
   x ∈ xs → extends w w1 evs1 → I w1 evs1 →
   wp (body x) w1 (λ out w2 evs2,
                     match out with
                     | Return _ => I w2 (evs1 ++ evs2)
                     | Error err => Q (Error err) w2 (evs1 ++ evs2)
                     | Panic msg => Q (Panic msg) w2 (evs1 ++ evs2)
                     end)) →
(∀ w' evs, extends w w' evs → I w' evs → Q (Return tt) w' evs) →
wp (forEach xs body) w Q.
Proof.
intros H0 Hstep Hend. apply (wp_forEach xs body w (λ _, I) Q); try done.
intros pre x post w1 evs1 -> E1 H1. apply Hstep; try done.
apply elem_of_app. right. left.
Qed.

(** ** Substrings *)

Lemma prefix_app p s : String.prefix p s = true ↔ ∃ b, s = p +:+ b.
Proof.
  revert s. induction p as [|c p IH]; intros s.
  - split; [by exists s | intros _; by destruct s].
  - assert (∀ b, String c p +:+ b = String c (p +:+ b)) as Happ by done.
    destruct s as [|c' s]; simpl.
    { split; [done|]. intros [b Hb]. by rewrite Happ in Hb. }
    destruct (Ascii.ascii_dec c c') as [<-|Hne].
    + rewrite IH. split; intros [b Hb]; exists b; rewrite Happ in *; congruence.
    + split; [done|]. intros [b Hb]. rewrite Happ in Hb. congruence.
Qed.

Lemma strings_Contains_unfold s substr :
  strings_Contains s substr
  = if String.prefix substr s then true
    else match s with
         | EmptyString => false
         | String _ s' => strings_Contains s' substr
         end.
Proof. by destruct s. Qed.

(** [strings_Contains s substr] holds exactly when [substr] occurs in [s]. *)
Lemma strings_Contains_spec s substr :
  strings_Contains s substr = true ↔ ∃ a b, s = a +:+ substr +:+ b.
Proof.
  split.
  - induction s as [|c s IH]; rewrite strings_Contains_unfold;
      destruct (String.prefix substr _) eqn:Hp; try done.
    + intros _. apply prefix_app in Hp as [b Hb]. by exists "", b.
    + intros _. apply prefix_app in Hp as [b Hb]. by exists "", b.
    + intros H. destruct (IH H) as (a & b & ->). by exists (String c a), b.
  - intros (a & b & ->). induction a as [|c a IH]; rewrite strings_Contains_unfold.
    + replace (String.prefix substr ("" +:+ substr +:+ b)) with true; [done|].
      symmetry. apply prefix_app. by exists b.
    + destruct (String.prefix substr _); [done|]. apply IH.
Qed.

(** ** Stepping through a computation *)

Ltac wp_client :=
  unfold templateLister_Get, oldClusterAlerts_List, oldProjectAlerts_List,
    clusterAlertRules_Get, clusterAlertRules_Create, clusterAlertRules_Update,
    clusterAlertGroups_Create, projectAlertRules_GetNamespaced,
    projectAlertRules_Create, projectAlertRules_Update, projectAlertGroups_Create,
    namespaces_Delete, projectLister_List, apps_GetNamespaced, apps_Update,
    clusterLister_Get, catalogLister_Get.

(** One step, with the answer of a client call left open. *)
Ltac wp_step :=
  lazymatch goal with
  | |- wp (mbind _ _) _ _ => apply wp_bind
  | |- wp (mret _) _ _ => apply wp_ret
  | |- wp (fail _) _ _ => apply wp_fail
  | |- wp (panic _) _ _ => apply wp_panic
  | |- wp (if ?b then _ else _) _ _ => destruct b eqn:?
  | |- wp (match ?r with Ok _ => _ | Fail _ => _ end) _ _ => destruct r
  | |- wp (api _ _ _) _ _ => apply wp_api_any; intros ? ? ?; cbv beta iota
  | |- wp _ _ _ => progress wp_client
  end.

(** ** The translation of one alert *)

Lemma newClusterRule_Meta v :
  cr_Meta (newClusterRule v)
  = {| Name := "migrate-" +:+ Name (ca_Meta v); Namespace := clusterName l;
       ResourceVersion := "" |}.
Proof.
  unfold newClusterRule.
  by destruct (ca_TargetNode v), (ca_TargetEvent v), (ca_TargetSystemService v).
Qed.

Lemma newProjectRule_Meta projectID v :
  prl_Meta (newProjectRule projectID v)
  = {| Name := "migrate-rule-" +:+ Name (pa_Meta v); Namespace := (ref_Parse projectID).2;
       ResourceVersion := "" |}.
Proof. unfold newProjectRule. by destruct (pa_TargetPod v), (pa_TargetWorkload v). Qed.

(** A client call followed by the rest of the function. *)
Ltac wp_call :=
  apply wp_bind; wp_client; apply wp_api_any; intros ? ? ?; cbv beta iota.

(** ** What the migration calls *)

Lemma migrateLegacyClusterAlert_calls w :
  wp migrateLegacyClusterAlert w
     (λ out _ evs,
        no_panic out
        ∧ Forall (λ ev, cluster_migration_call (oldClusterAlerts (ro w)) ev.1) evs
        ∧ ∃ r rest, evs = (OldClusterAlerts_List, r) :: rest).
Proof.
  unfold migrateLegacyClusterAlert. apply wp_bind. apply wp_api.
  { intros err _. cbv beta iota. apply wp_fail.
    split; [exact I|]. split; [by repeat constructor | simpl; eauto]. }
  intros _. cbv beta iota. cbn [fst snd].
  apply wp_forEach_inv
    with (I := λ _ evs,
            Forall (λ ev, cluster_migration_call (oldClusterAlerts (ro w)) ev.1) evs).
  - constructor.
  - intros v w1 evs1 Hv E1 H1.
    assert (∀ c r, cluster_migration_call (oldClusterAlerts (ro w)) c →
              Forall (λ ev : Event, cluster_migration_call (oldClusterAlerts (ro w)) ev.1)
                     [(c, r)]) as Hone by (by repeat constructor).
    repeat wp_step; try (split; [exact I | split; [|simpl; eauto]]);
      rewrite ?app_nil_r; repeat apply Forall_app_2; try done;
      apply Hone; simpl; eauto.
  - intros w' evs _ H. split; [exact I | split; [by constructor | simpl; eauto]].
Qed.

(** The group of a project id holds the in-cluster alerts of that
    project, in listing order. *)
Lemma oldProjectAlertGroup_lookup items projectID :
  default [] (oldProjectAlertGroup items !! projectID)
  = filter (λ v, ObjectInCluster (clusterName l) v = true ∧ pa_ProjectName v = projectID)
           items.
Proof.
  unfold oldProjectAlertGroup.
  induction items as [|x xs IH] using rev_ind; [done|].
  rewrite foldl_app, filter_app. simpl.
  destruct (ObjectInCluster (clusterName l) x) eqn:Hc.
  - destruct (decide (pa_ProjectName x = projectID)) as [<-|Hne].
    + rewrite lookup_insert_eq. simpl. rewrite IH.
      rewrite (filter_cons_True _ x); [done | by split].
    + rewrite lookup_insert_ne by done. rewrite IH.
      rewrite filter_cons_False by (by intros [? ?]).
      by rewrite filter_nil, app_nil_r.
  - rewrite IH, filter_cons_False by (intros [? ?]; congruence).
    by rewrite filter_nil, app_nil_r.
Qed.

Lemma oldProjectAlertGroup_elem items projectID v :
  v ∈ default [] (oldProjectAlertGroup items !! projectID) →
  in_cluster items v ∧ pa_ProjectName v = projectID.
Proof.
  rewrite oldProjectAlertGroup_lookup, list_elem_of_filter. unfold in_cluster.
  by intros [[? ?] ?].
Qed.

Lemma wp_range_map {V} (m : gmap string (list V)) body w
    (Q : Outcome unit → World → list Event → Prop) :
  wp (forEach (rangeOrder w (length (trace w)) (map_to_list m).*1)
              (λ k, body k (default [] (m !! k)))) w Q →
  wp (range_map m body) w Q.
Proof. done. Qed.

Lemma migrateLegacyProjectAlert_calls w :
  wp migrateLegacyProjectAlert w
     (λ out _ evs,
        no_panic out
        ∧ Forall (λ ev, project_migration_call (oldProjectAlerts (ro w)) ev.1) evs
        ∧ ∃ r rest, evs = (OldProjectAlerts_List, r) :: rest).
Proof.
  unfold migrateLegacyProjectAlert. apply wp_bind. apply wp_api.
  { intros err _. cbv beta iota. apply wp_fail.
    split; [exact I|]. split; [by repeat constructor | simpl; eauto]. }
  intros _. cbv beta iota. cbn [fst snd].
  set (P := λ ev : Event, project_migration_call (oldProjectAlerts (ro w)) ev.1).
  assert (∀ c r, project_migration_call (oldProjectAlerts (ro w)) c → Forall P [(c, r)])
    as Hone by (by repeat constructor).
  apply wp_range_map.
  apply wp_forEach_inv with (I := λ _ evs, Forall P evs).
  - constructor.
  - intros projectID w1 evs1 _ E1 H1.
    apply wp_forEach_inv with (I := λ _ evs, Forall P (evs1 ++ evs)).
    + by rewrite app_nil_r.
    + intros v w2 evs2 Hv E2 H2.
      apply oldProjectAlertGroup_elem in Hv as [Hv <-].
      apply Forall_app in H2 as [_ H2].
      repeat wp_step; try (split; [exact I | split; [|simpl; eauto]]);
        rewrite ?app_nil_r; repeat apply Forall_app_2; try done;
        apply Hone; simpl; eauto;
        exists v; by rewrite newProjectRule_Meta.
    + done.
  - intros w' evs _ H. split; [exact I | split; [by constructor | simpl; eauto]].
Qed.

Lemma cluster_migration_call_is_migration items c :
  cluster_migration_call items c → is_migration_call c = true.
Proof. by destruct c. Qed.

Lemma project_migration_call_is_migration items c :
  project_migration_call items c → is_migration_call c = true.
Proof. by destruct c. Qed.

Lemma removeLegacyAlerting_calls w :
  wp removeLegacyAlerting w
     (λ out _ evs,
        no_panic out ∧ ∃ r, evs = [(Namespaces_Delete "cattle-alerting", r)]).
Proof.
  unfold removeLegacyAlerting.
  repeat wp_step; (split; [exact I | rewrite ?app_nil_r; eauto]).
Qed.

Lemma migration_block_calls currentVersion w :
  wp (migration_block currentVersion) w
     (λ out _ evs,
        no_panic out
        ∧ Forall (λ ev, is_migration_call ev.1 = true) evs
        ∧ (strings_Contains currentVersion "system-library-rancher-monitoring" = true →
           evs = [] ∧ out = Return tt)).
Proof.
  unfold migration_block.
  destruct (strings_Contains currentVersion _); simpl.
  { apply wp_ret. by repeat split. }
  apply wp_bind. eapply wp_mono; [apply migrateLegacyClusterAlert_calls|].
  intros out1 w1 evs1 _ (Hp1 & H1 & _).
  assert (Forall (λ ev : Event, is_migration_call ev.1 = true) evs1) as H1'.
  { eapply Forall_impl; [exact H1|]. intros ev. apply cluster_migration_call_is_migration. }
  destruct out1 as [[]|err|msg]; [|done..].
  apply wp_bind. eapply wp_mono; [apply migrateLegacyProjectAlert_calls|].
  intros out2 w2 evs2 _ (Hp2 & H2 & _).
  assert (Forall (λ ev : Event, is_migration_call ev.1 = true) evs2) as H2'.
  { eapply Forall_impl; [exact H2|]. intros ev. apply project_migration_call_is_migration. }
  destruct out2 as [[]|err|msg]; [| by rewrite Forall_app | done].
  eapply wp_mono; [apply removeLegacyAlerting_calls|].
  intros out3 w3 evs3 _ [Hp3 [r ->]].
  split; [done|]. split; [|done].
  rewrite !Forall_app. repeat split; try done. by repeat constructor.
Qed.

Lemma migrateLegacyClusterAlert_call w c r :
  (c, r) ∈ events_of migrateLegacyClusterAlert w →
  cluster_migration_call (oldClusterAlerts (ro w)) c.
Proof.
  destruct (wp_elim _ _ _ (migrateLegacyClusterAlert_calls w)) as (_ & H & _).
  rewrite Forall_forall in H. apply H.
Qed.

Lemma migrateLegacyProjectAlert_call w c r :
  (c, r) ∈ events_of migrateLegacyProjectAlert w →
  project_migration_call (oldProjectAlerts (ro w)) c.
Proof.
  destruct (wp_elim _ _ _ (migrateLegacyProjectAlert_calls w)) as (_ & H & _).
  rewrite Forall_forall in H. apply H.
Qed.

(** ** The statements about the translation *)

(** C2: the rule built for a legacy alert has the alert's initial wait
    as group wait, the alert's repeat interval as repeat interval and
    180 seconds as group interval; every rule that the migration creates
    or updates carries this timing of a listed legacy alert. *)
Theorem migrated_rule_timing :
  (∀ v, cr_Timing (newClusterRule v)
        = mkTiming (ca_InitialWaitSeconds v) 180 (ca_RepeatIntervalSeconds v))
  ∧ (∀ projectID v,
        prl_Timing (newProjectRule projectID v)
        = mkTiming (pa_InitialWaitSeconds v) 180 (pa_RepeatIntervalSeconds v))
  ∧ (∀ w o r,
        (ClusterAlertRules_Create o, r) ∈ events_of migrateLegacyClusterAlert w
        ∨ (ClusterAlertRules_Update o, r) ∈ events_of migrateLegacyClusterAlert w →
        ∃ v, v ∈ oldClusterAlerts (ro w)
             ∧ cr_Timing o
               = mkTiming (ca_InitialWaitSeconds v) 180 (ca_RepeatIntervalSeconds v))
  ∧ (∀ w o r,
        (ProjectAlertRules_Create o, r) ∈ events_of migrateLegacyProjectAlert w
        ∨ (ProjectAlertRules_Update o, r) ∈ events_of migrateLegacyProjectAlert w →
        ∃ v, in_cluster (oldProjectAlerts (ro w)) v
             ∧ prl_Timing o
               = mkTiming (pa_InitialWaitSeconds v) 180 (pa_RepeatIntervalSeconds v)).
Proof.
  assert (∀ v, cr_Timing (newClusterRule v)
        = mkTiming (ca_InitialWaitSeconds v) 180 (ca_RepeatIntervalSeconds v)) as Hc.
  { intros v. unfold cr_Timing, newClusterRule.
    by destruct (ca_TargetNode v), (ca_TargetEvent v), (ca_TargetSystemService v). }
  assert (∀ projectID v,
        prl_Timing (newProjectRule projectID v)
        = mkTiming (pa_InitialWaitSeconds v) 180 (pa_RepeatIntervalSeconds v)) as Hp.
  { intros projectID v. unfold prl_Timing, newProjectRule.
    by destruct (pa_TargetPod v), (pa_TargetWorkload v). }
  split; [done|]. split; [done|]. split.
  - intros w o r [H|H]; apply migrateLegacyClusterAlert_call in H as (v & Hv & Ho);
      exists v; (split; [done|]); rewrite <- Hc; unfold cr_Timing; congruence.
  - intros w o r [H|H]; apply migrateLegacyProjectAlert_call in H as (v & Hv & Ho);
      exists v; (split; [done|]); rewrite <- (Hp (pa_ProjectName v));
      unfold prl_Timing; congruence.
Qed.

(** C3: the rule built for a legacy alert has a specialization set
    exactly where the alert carries a target, with the fields of the
    target: one matching specialization for an alert with one target,
    none for an alert with none.  The translation is a total function,
    and every rule that the migration creates or updates has the
    specializations of a listed legacy alert. *)
Theorem migrated_rule_specialization :
  (∀ v,
      crs_NodeRule (cr_Spec (newClusterRule v))
      = (λ t, mkNodeRule (tn_NodeName t) (tn_Selector t) (tn_Condition t)
                         (tn_MemThreshold t) (tn_CPUThreshold t)) <$> ca_TargetNode v
      ∧ crs_EventRule (cr_Spec (newClusterRule v))
        = (λ t, mkEventRule (te_EventType t) (te_ResourceKind t)) <$> ca_TargetEvent v
      ∧ crs_SystemServiceRule (cr_Spec (newClusterRule v))
        = (λ t, mkSystemServiceRule (ts_Condition t)) <$> ca_TargetSystemService v
      ∧ cluster_specializations (cr_Spec (newClusterRule v)) = cluster_targets v)
  ∧ (∀ projectID v,
      prs_PodRule (prl_Spec (newProjectRule projectID v))
      = (λ t, mkPodRule (tp_PodName t) (tp_Condition t) (tp_RestartTimes t)
                        (tp_RestartIntervalSeconds t)) <$> pa_TargetPod v
      ∧ prs_WorkloadRule (prl_Spec (newProjectRule projectID v))
        = (λ t, mkWorkloadRule (tw_WorkloadID t) (tw_Selector t)
                               (tw_AvailablePercentage t)) <$> pa_TargetWorkload v
      ∧ project_specializations (prl_Spec (newProjectRule projectID v))
        = project_targets v)
  ∧ (∀ w o r,
        (ClusterAlertRules_Create o, r) ∈ events_of migrateLegacyClusterAlert w
        ∨ (ClusterAlertRules_Update o, r) ∈ events_of migrateLegacyClusterAlert w →
        ∃ v, v ∈ oldClusterAlerts (ro w)
             ∧ cluster_specializations (cr_Spec o) = cluster_targets v)
  ∧ (∀ w o r,
        (ProjectAlertRules_Create o, r) ∈ events_of migrateLegacyProjectAlert w
        ∨ (ProjectAlertRules_Update o, r) ∈ events_of migrateLegacyProjectAlert w →
        ∃ v, in_cluster (oldProjectAlerts (ro w)) v
             ∧ project_specializations (prl_Spec o) = project_targets v).
Proof.
  assert (∀ v, cluster_specializations (cr_Spec (newClusterRule v)) = cluster_targets v)
    as Hc.
  { intros v. unfold newClusterRule, cluster_specializations, cluster_targets.
    by destruct (ca_TargetNode v), (ca_TargetEvent v), (ca_TargetSystemService v). }
  assert (∀ projectID v,
             project_specializations (prl_Spec (newProjectRule projectID v))
             = project_targets v) as Hp.
  { intros projectID v. unfold newProjectRule, project_specializations, project_targets.
    by destruct (pa_TargetPod v), (pa_TargetWorkload v). }
  split; [|split; [|split]].
  - intros v. repeat split; try done; unfold newClusterRule;
      by destruct (ca_TargetNode v), (ca_TargetEvent v), (ca_TargetSystemService v).
  - intros projectID v. repeat split; try done; unfold newProjectRule;
      by destruct (pa_TargetPod v), (pa_TargetWorkload v).
  - intros w o r [H|H]; apply migrateLegacyClusterAlert_call in H as (v & Hv & Ho);
      exists v; (split; [done|]); rewrite <- Hc; congruence.
  - intros w o r [H|H]; apply migrateLegacyProjectAlert_call in H as (v & Hv & Ho);
      exists v; (split; [done|]); rewrite <- (Hp (pa_ProjectName v)); congruence.
Qed.

(** C9: a legacy cluster alert named n gives the rule name migrate-n
    and the group name migrate-group-n, a legacy project alert named n
    the rule name migrate-rule-n and the group name migrate-group-n;
    the names depend on n alone; the group reference of the rule is the
    group id of the namespace and name of the group built for the same
    alert.  The migration reads, creates and updates rules and creates
    groups under these names only. *)
Theorem migrated_names :
  (∀ v,
      Name (cr_Meta (newClusterRule v)) = "migrate-" +:+ Name (ca_Meta v)
      ∧ Name (cg_Meta (clusterLegacyGroup v)) = "migrate-group-" +:+ Name (ca_Meta v)
      ∧ crs_GroupName (cr_Spec (newClusterRule v))
        = GetGroupID (Namespace (cg_Meta (clusterLegacyGroup v)))
                     (Name (cg_Meta (clusterLegacyGroup v))))
  ∧ (∀ projectID v,
      Name (prl_Meta (newProjectRule projectID v)) = "migrate-rule-" +:+ Name (pa_Meta v)
      ∧ Name (pg_Meta (projectLegacyGroup projectID v))
        = "migrate-group-" +:+ Name (pa_Meta v)
      ∧ prs_GroupName (prl_Spec (newProjectRule projectID v))
        = GetGroupID (Namespace (pg_Meta (projectLegacyGroup projectID v)))
                     (Name (pg_Meta (projectLegacyGroup projectID v))))
  ∧ (∀ v v',
      Name (ca_Meta v) = Name (ca_Meta v') →
      Name (cr_Meta (newClusterRule v)) = Name (cr_Meta (newClusterRule v'))
      ∧ Name (cg_Meta (clusterLegacyGroup v)) = Name (cg_Meta (clusterLegacyGroup v')))
  ∧ (∀ projectID projectID' v v',
      Name (pa_Meta v) = Name (pa_Meta v') →
      Name (prl_Meta (newProjectRule projectID v))
      = Name (prl_Meta (newProjectRule projectID' v'))
      ∧ Name (pg_Meta (projectLegacyGroup projectID v))
        = Name (pg_Meta (projectLegacyGroup projectID' v')))
  ∧ (∀ w c r,
      (c, r) ∈ events_of migrateLegacyClusterAlert w →
      match c with
      | ClusterAlertRules_Get name =>
          ∃ v, v ∈ oldClusterAlerts (ro w) ∧ name = "migrate-" +:+ Name (ca_Meta v)
      | ClusterAlertRules_Create o =>
          ∃ v, v ∈ oldClusterAlerts (ro w)
               ∧ Name (cr_Meta o) = "migrate-" +:+ Name (ca_Meta v)
               ∧ crs_GroupName (cr_Spec o)
                 = GetGroupID (clusterName l) ("migrate-group-" +:+ Name (ca_Meta v))
      | ClusterAlertRules_Update o =>
          ∃ v, v ∈ oldClusterAlerts (ro w)
               ∧ crs_GroupName (cr_Spec o)
                 = GetGroupID (clusterName l) ("migrate-group-" +:+ Name (ca_Meta v))
      | ClusterAlertGroups_Create o =>
          ∃ v, v ∈ oldClusterAlerts (ro w)
               ∧ cg_Meta o = mkMeta ("migrate-group-" +:+ Name (ca_Meta v)) (clusterName l) ""
      | _ => True
      end)
  ∧ (∀ w c r,
      (c, r) ∈ events_of migrateLegacyProjectAlert w →
      match c with
      | ProjectAlertRules_GetNamespaced namespace name =>
          ∃ v, in_cluster (oldProjectAlerts (ro w)) v
               ∧ namespace = (ref_Parse (pa_ProjectName v)).2
               ∧ name = "migrate-rule-" +:+ Name (pa_Meta v)
      | ProjectAlertRules_Create o =>
          ∃ v, in_cluster (oldProjectAlerts (ro w)) v
               ∧ Name (prl_Meta o) = "migrate-rule-" +:+ Name (pa_Meta v)
               ∧ prs_GroupName (prl_Spec o)
                 = GetGroupID (ref_Parse (pa_ProjectName v)).2
                              ("migrate-group-" +:+ Name (pa_Meta v))
      | ProjectAlertRules_Update o =>
          ∃ v, in_cluster (oldProjectAlerts (ro w)) v
               ∧ prs_GroupName (prl_Spec o)
                 = GetGroupID (ref_Parse (pa_ProjectName v)).2
                              ("migrate-group-" +:+ Name (pa_Meta v))
      | ProjectAlertGroups_Create o =>
          ∃ v, in_cluster (oldProjectAlerts (ro w)) v
               ∧ pg_Meta o = mkMeta ("migrate-group-" +:+ Name (pa_Meta v))
                                    (ref_Parse (pa_ProjectName v)).2 ""
      | _ => True
      end).
Proof.
  assert (∀ v, crs_GroupName (cr_Spec (newClusterRule v))
               = GetGroupID (clusterName l) ("migrate-group-" +:+ Name (ca_Meta v))) as Hcg.
  { intros v. unfold newClusterRule.
    by destruct (ca_TargetNode v), (ca_TargetEvent v), (ca_TargetSystemService v). }
  assert (∀ projectID v,
             prs_GroupName (prl_Spec (newProjectRule projectID v))
             = GetGroupID (ref_Parse projectID).2 ("migrate-group-" +:+ Name (pa_Meta v)))
    as Hpg.
  { intros projectID v. unfold newProjectRule.
    by destruct (pa_TargetPod v), (pa_TargetWorkload v). }
  repeat apply conj.
  - intros v. by rewrite newClusterRule_Meta, Hcg.
  - intros projectID v. by rewrite newProjectRule_Meta, Hpg.
  - intros v v' Hn. rewrite !newClusterRule_Meta. simpl. by rewrite Hn.
  - intros projectID projectID' v v' Hn. rewrite !newProjectRule_Meta. simpl.
    by rewrite Hn.
  - intros w c r H. apply migrateLegacyClusterAlert_call in H.
    destruct c; try done; destruct H as (v & Hv & Ho); exists v; (split; [done|]).
    + by rewrite Ho, newClusterRule_Meta.
    + by rewrite Ho, newClusterRule_Meta, Hcg.
    + by rewrite Ho, Hcg.
    + by rewrite Ho.
  - intros w c r H. apply migrateLegacyProjectAlert_call in H.
    destruct c; try done.
    + destruct H as (v & Hv & -> & ->). exists v. by rewrite newProjectRule_Meta.
    + destruct H as (v & Hv & ->). exists v. by rewrite newProjectRule_Meta, Hpg.
    + destruct H as (v & Hv & Ho). exists v. by rewrite Ho, Hpg.
    + destruct H as (v & Hv & ->). by exists v.
Qed.

(** ** Failures the migration recovers from *)

(** An event is in a list of events, whichever it is. *)
Ltac ev_any :=
  (apply list_elem_of_here)
  + (apply list_elem_of_further; ev_any)
  + (apply elem_of_app; right; ev_any).

Lemma migrateLegacyClusterAlert_outcome w :
  wp migrateLegacyClusterAlert w
     (λ out _ evs,
        match out with
        | Return _ =>
            ∀ v, v ∈ oldClusterAlerts (ro w) →
                 ∃ r, (ClusterAlertGroups_Create (clusterLegacyGroup v), r) ∈ evs
        | Error _ => ∃ c err, (c, Fail err) ∈ evs ∧ tolerated c err = false
        | Panic _ => False
        end).
Proof.
  unfold migrateLegacyClusterAlert. apply wp_bind. apply wp_api.
  { intros err _. cbv beta iota. apply wp_fail. eexists _, _. split; [ev_any | done]. }
  intros _. cbv beta iota. cbn [fst snd].
  apply wp_forEach
    with (I := λ pre _ evs,
            ∀ v, v ∈ pre →
                 ∃ r, (ClusterAlertGroups_Create (clusterLegacyGroup v), r) ∈ evs).
  - intros v Hv. by apply elem_of_nil in Hv.
  - intros pre v post w1 evs1 _ E1 H1.
    repeat wp_step; rewrite ?negb_true_iff, ?negb_false_iff in *.
    all: first
      [ eexists _, _; split; [right; ev_any | simpl; done]
      | intros v' Hv'; apply elem_of_app in Hv' as [Hv'|Hv'%list_elem_of_singleton];
        [ destruct (H1 v' Hv') as [r' ?]; exists r'; apply elem_of_app; by left
        | subst v'; eexists; apply elem_of_app; right; ev_any ] ].
  - intros w' evs _ H v Hv. destruct (H v Hv) as [r ?]. exists r. by right.
Qed.

Lemma oldProjectAlertGroup_in_cluster items v :
  in_cluster items v →
  pa_ProjectName v ∈ (map_to_list (oldProjectAlertGroup items)).*1
  ∧ v ∈ default [] (oldProjectAlertGroup items !! pa_ProjectName v).
Proof.
  intros [Hv Hc].
  assert (v ∈ default [] (oldProjectAlertGroup items !! pa_ProjectName v)) as Hin.
  { rewrite oldProjectAlertGroup_lookup. by apply list_elem_of_filter. }
  split; [|done].
  destruct (oldProjectAlertGroup items !! pa_ProjectName v) as [vs|] eqn:Hl.
  - apply list_elem_of_fmap. exists (pa_ProjectName v, vs). split; [done|].
    by apply elem_of_map_to_list.
  - by apply elem_of_nil in Hin.
Qed.

Lemma migrateLegacyProjectAlert_outcome w :
  wp migrateLegacyProjectAlert w
     (λ out _ evs,
        match out with
        | Return _ =>
            range_ok w →
            ∀ v, in_cluster (oldProjectAlerts (ro w)) v →
                 ∃ r, (ProjectAlertGroups_Create (projectLegacyGroup (pa_ProjectName v) v), r)
                        ∈ evs
        | Error _ => ∃ c err, (c, Fail err) ∈ evs ∧ tolerated c err = false
        | Panic _ => False
        end).
Proof.
  unfold migrateLegacyProjectAlert. apply wp_bind. apply wp_api.
  { intros err _. cbv beta iota. apply wp_fail. eexists _, _. split; [ev_any | done]. }
  intros _. cbv beta iota. cbn [fst snd].
  set (m := oldProjectAlertGroup (oldProjectAlerts (ro w))).
  apply wp_range_map. cbn [trace rangeOrder].
  set (order := rangeOrder w _ _).
  apply wp_forEach
    with (I := λ pre _ evs,
            ∀ projectID v, projectID ∈ pre → v ∈ default [] (m !! projectID) →
                 ∃ r, (ProjectAlertGroups_Create (projectLegacyGroup projectID v), r) ∈ evs).
  - intros projectID v Hp. by apply elem_of_nil in Hp.
  - intros pre projectID post w1 evs1 _ E1 H1.
    apply wp_forEach
      with (I := λ pre' _ evs,
              ∀ v, v ∈ pre' →
                   ∃ r, (ProjectAlertGroups_Create (projectLegacyGroup projectID v), r)
                          ∈ evs1 ++ evs).
    + intros v Hv. by apply elem_of_nil in Hv.
    + intros pre' v post' w2 evs2 _ E2 H2.
      repeat wp_step; rewrite ?negb_true_iff, ?negb_false_iff in *.
      all: first
        [ eexists _, _; split; [right; apply elem_of_app; right; ev_any | simpl; done]
        | intros v' Hv'; apply elem_of_app in Hv' as [Hv'|Hv'%list_elem_of_singleton];
          [ destruct (H2 v' Hv') as [r' Hr']; exists r';
            rewrite app_assoc; apply elem_of_app; by left
          | subst v'; eexists; apply elem_of_app; right; ev_any ] ].
    + intros w' evs _ H2 projectID' v Hp Hv.
      apply elem_of_app in Hp as [Hp|Hp%list_elem_of_singleton].
      * destruct (H1 _ _ Hp Hv) as [r ?]. exists r. apply elem_of_app. by left.
      * subst projectID'. by apply H2.
  - intros w' evs _ H Hok v Hv.
    apply oldProjectAlertGroup_in_cluster in Hv as [Hk Hv].
    destruct (H (pa_ProjectName v) v) as [r ?]; [|done|exists r; by right].
    unfold order. by rewrite (Hok _ _).
Qed.

Lemma removeLegacyAlerting_outcome w :
  wp removeLegacyAlerting w
     (λ out _ evs,
        match out with
        | Return _ => True
        | Error _ => ∃ c err, (c, Fail err) ∈ evs ∧ tolerated c err = false
        | Panic _ => False
        end).
Proof.
  unfold removeLegacyAlerting.
  repeat wp_step; rewrite ?negb_true_iff, ?negb_false_iff in *; try done.
  eexists _, _. split; [ev_any | done].
Qed.

(** C8: the migration and the cleanup return an error only when some
    call failed otherwise than with not-found on the read of a rule or
    on the deletion of the legacy namespace, or with already-exists on
    the creation of a rule or of a group.  When every failure is of
    these kinds they return no error, and the migration has gone through
    all the records: the group of every legacy alert was submitted. *)
Theorem tolerated_failures_not_surfaced w :
  ((∀ c err, (c, Fail err) ∈ events_of migrateLegacyClusterAlert w →
             tolerated c err = true) →
   outcome_of migrateLegacyClusterAlert w = Return tt
   ∧ ∀ v, v ∈ oldClusterAlerts (ro w) →
          ∃ r, (ClusterAlertGroups_Create (clusterLegacyGroup v), r)
                 ∈ events_of migrateLegacyClusterAlert w)
  ∧ ((∀ c err, (c, Fail err) ∈ events_of migrateLegacyProjectAlert w →
               tolerated c err = true) →
     outcome_of migrateLegacyProjectAlert w = Return tt
     ∧ (range_ok w →
        ∀ v, in_cluster (oldProjectAlerts (ro w)) v →
             ∃ r, (ProjectAlertGroups_Create (projectLegacyGroup (pa_ProjectName v) v), r)
                    ∈ events_of migrateLegacyProjectAlert w))
  ∧ ((∀ c err, (c, Fail err) ∈ events_of removeLegacyAlerting w →
               tolerated c err = true) →
     outcome_of removeLegacyAlerting w = Return tt).
Proof.
  split; [|split]; intros Htol.
  - pose proof (wp_elim _ _ _ (migrateLegacyClusterAlert_outcome w)) as H.
    simpl in H. destruct (outcome_of migrateLegacyClusterAlert w) as [[]|e|msg]; try done.
    destruct H as (c & err & Hev & Hc). apply Htol in Hev. congruence.
  - pose proof (wp_elim _ _ _ (migrateLegacyProjectAlert_outcome w)) as H.
    simpl in H. destruct (outcome_of migrateLegacyProjectAlert w) as [[]|e|msg]; try done.
    destruct H as (c & err & Hev & Hc). apply Htol in Hev. congruence.
  - pose proof (wp_elim _ _ _ (removeLegacyAlerting_outcome w)) as H.
    simpl in H. destruct (outcome_of removeLegacyAlerting w) as [[]|e|msg]; try done.
    destruct H as (c & err & Hev & Hc). apply Htol in Hev. congruence.
Qed.

(** ** Upserts, and why replaying them changes nothing *)

Section Upsert.
Context {A : Type} (merge : A → A → A).
Hypothesis merge_merge : ∀ a b c, merge (merge a b) c = merge a c.
Hypothesis merge_same : ∀ a, merge a a = a.

Lemma upsert_all_lookup (xs : list (Key * A)) (m : gmap Key A) k :
  upsert_all merge xs m !! k
  = upsert_key merge (m !! k) (filter (λ x, x.1 = k) xs).*2.
Proof.
  unfold upsert_all, upsert_key. revert m.
  induction xs as [|[k' new] xs IH]; intros m; [done|]. simpl.
  rewrite IH. unfold upsert.
  destruct (decide (k' = k)) as [->|Hne].
  - rewrite filter_cons_True by done. by rewrite lookup_insert_eq.
  - rewrite filter_cons_False by done. by rewrite lookup_insert_ne.
Qed.

Lemma upsert_key_Some a (news : list A) :
  ∃ a', upsert_key merge (Some a) news = Some a' ∧ ∀ c, merge a' c = merge a c.
Proof using merge_merge.
  unfold upsert_key. revert a. induction news as [|new news IH]; intros a; simpl.
  - by exists a.
  - destruct (IH (merge a new)) as (a' & -> & Ha'). exists a'. split; [done|].
    intros c. by rewrite Ha', merge_merge.
Qed.

Lemma upsert_key_snoc o (news : list A) new :
  upsert_key merge o (news ++ [new])
  = Some (match upsert_key merge o news with Some old => merge old new | None => new end).
Proof. unfold upsert_key. by rewrite foldl_app. Qed.

Lemma upsert_key_idem o (news : list A) :
  upsert_key merge (upsert_key merge o news) news = upsert_key merge o news.
Proof using merge_merge merge_same.
  destruct news as [|new news _] using rev_ind; [done|].
  rewrite (upsert_key_snoc o). set (z := match upsert_key merge o news with
                                         | Some old => merge old new
                                         | None => new
                                         end).
  rewrite upsert_key_snoc. f_equal.
  destruct (upsert_key_Some z news) as (z' & -> & Hz'). rewrite Hz'.
  unfold z. destruct (upsert_key merge o news); [by rewrite merge_merge | done].
Qed.

(** Replaying upserts that, key by key, are the ones already done
    leaves the store as it is. *)
Lemma upsert_all_replay (xs ys : list (Key * A)) (m : gmap Key A) :
  (∀ k, filter (λ x, x.1 = k) ys = filter (λ x, x.1 = k) xs) →
  upsert_all merge ys (upsert_all merge xs m) = upsert_all merge xs m.
Proof using merge_merge merge_same.
  intros H. apply map_eq. intros k.
  rewrite (upsert_all_lookup ys), H, (upsert_all_lookup xs).
  apply upsert_key_idem.
Qed.

Lemma upsert_all_in (xs : list (Key * A)) (m : gmap Key A) (x : Key * A) :
  x ∈ xs → is_Some (upsert_all merge xs m !! x.1).
Proof.
  intros Hx. rewrite upsert_all_lookup.
  assert (x ∈ filter (λ y, y.1 = x.1) xs) as Hin by (by apply list_elem_of_filter).
  destruct (filter (λ y, y.1 = x.1) xs) as [|y ys _] using rev_ind.
  - by apply elem_of_nil in Hin.
  - rewrite fmap_app. simpl. rewrite upsert_key_snoc. eauto.
Qed.

Lemma upsert_all_snoc (xs : list (Key * A)) (x : Key * A) (m : gmap Key A) :
  upsert_all merge (xs ++ [x]) m = upsert merge x.1 x.2 (upsert_all merge xs m).
Proof. unfold upsert_all. by rewrite foldl_app. Qed.
End Upsert.

(** ** The migration when no call fails for a reason of the environment *)

Lemma upsert_all_Some {A} (merge : A → A → A) (xs : list (Key * A)) (m : gmap Key A) k :
  is_Some (m !! k) → is_Some (upsert_all merge xs m !! k).
Proof.
  unfold upsert_all. revert m. induction xs as [|x xs IH]; intros m Hm; [done|].
  simpl. apply IH. unfold upsert. destruct (decide (x.1 = k)) as [->|Hne].
  - rewrite lookup_insert_eq. eauto.
  - by rewrite lookup_insert_ne.
Qed.

Lemma no_faults_extends w w' evs : extends w w' evs → no_faults w → no_faults w'.
Proof. intros E H n c. by rewrite (ext_faults _ _ _ E). Qed.

(** A client call that the environment lets through. *)
Ltac wp_call_ok Hnf :=
  apply wp_bind; wp_client; apply wp_api;
  [ let Hf := fresh "Hf" in
    intros ? Hf; cbn [faults] in Hf; rewrite Hnf in Hf; discriminate Hf
  | intros _; cbv beta iota; cbn [fst snd ro stores faults rangeOrder trace] ].

Lemma cluster_migrated_snoc pre v s :
  cluster_migrated (pre ++ [v]) s
  = with_clusterAlertGroups
      (upsert keep (key_of (cg_Meta (clusterLegacyGroup v))) (clusterLegacyGroup v)
              (clusterAlertGroups (cluster_migrated pre s)))
      (with_clusterAlertRules
         (upsert merge_cluster_rule (key_of (cr_Meta (newClusterRule v))) (newClusterRule v)
                 (clusterAlertRules (cluster_migrated pre s)))
         (cluster_migrated pre s)).
Proof.
  unfold cluster_migrated, cluster_rule_upserts, cluster_group_upserts.
  rewrite !fmap_app. simpl. by rewrite !upsert_all_snoc.
Qed.

Lemma cluster_rules_ok_insert s k o G :
  rules_ok s → key_of (cr_Meta o) = k →
  rules_ok (with_clusterAlertGroups G
              (with_clusterAlertRules (<[k := o]> (clusterAlertRules s)) s)).
Proof.
  intros [Hc Hp] Hk. split; [|done]. simpl. intros k' o' Hl.
  destruct (decide (k = k')) as [<-|Hne].
  - rewrite lookup_insert_eq in Hl. congruence.
  - rewrite lookup_insert_ne in Hl by done. eauto.
Qed.

Lemma cluster_saturated_migrated pre items s v :
  cluster_saturated items s → v ∈ items →
  is_Some (clusterAlertRules (cluster_migrated pre s)
             !! key_of (cr_Meta (newClusterRule v)))
  ∧ is_Some (clusterAlertGroups (cluster_migrated pre s)
               !! key_of (cg_Meta (clusterLegacyGroup v))).
Proof.
  intros Hsat Hv. destruct (Hsat v Hv) as [Hr Hg].
  unfold cluster_migrated. simpl. split; by apply upsert_all_Some.
Qed.

Lemma migrateLegacyClusterAlert_run w :
  no_faults w → rules_ok (stores w) →
  wp migrateLegacyClusterAlert w
     (λ out w' evs,
        out = Return tt
        ∧ stores w' = cluster_migrated (oldClusterAlerts (ro w)) (stores w)
        ∧ rules_ok (stores w')
        ∧ (cluster_saturated (oldClusterAlerts (ro w)) (stores w) →
           Forall (λ ev, replayed ev = true) evs
           ∧ ∀ v, v ∈ oldClusterAlerts (ro w) → cluster_rule_updated evs v)).
Proof.
  intros Hnf Hok. unfold migrateLegacyClusterAlert.
  wp_call_ok Hnf.
  set (items := oldClusterAlerts (ro w)).
  apply wp_forEach
    with (I := λ pre w' evs,
            stores w' = cluster_migrated pre (stores w)
            ∧ rules_ok (stores w')
            ∧ (cluster_saturated items (stores w) →
               Forall (λ ev, replayed ev = true) evs
               ∧ ∀ v, v ∈ pre → cluster_rule_updated evs v)).
  - split; [by destruct (stores w)|]. split; [done|]. intros _.
    split; [constructor|]. intros v Hv. by apply elem_of_nil in Hv.
  - intros pre v post w1 evs1 Hitems E1 (HS & Hok1 & Hq).
    assert (no_faults w1) as Hnf1.
    { eapply no_faults_extends; [exact E1|]. done. }
    pose proof (newClusterRule_Meta v) as Hmeta.
    assert (v ∈ items) as Hv by (rewrite Hitems; apply elem_of_app; right; left).
    wp_call_ok Hnf1. unfold store_get.
    replace (clusterName l, Name (cr_Meta (newClusterRule v)))
      with (key_of (cr_Meta (newClusterRule v))) by (by rewrite Hmeta).
    set (k := key_of (cr_Meta (newClusterRule v))).
    set (gk := key_of (cg_Meta (clusterLegacyGroup v))).
    destruct (clusterAlertRules (stores w1) !! k) as [old|] eqn:Hl; cbv beta iota.
    all: apply wp_bind.
    + wp_call_ok Hnf1. unfold store_update. cbn [cr_Meta].
      rewrite (proj1 Hok1 _ _ Hl), Hl. cbn [fst snd]. apply wp_ret.
      wp_call_ok Hnf1. unfold store_create. cbn [clusterAlertGroups with_clusterAlertRules].
      fold gk.
      destruct (clusterAlertGroups (stores w1) !! gk) as [g|] eqn:Hg; cbn [fst snd];
        apply wp_ret; cbn [stores].
      all: split;
        [ rewrite cluster_migrated_snoc, <- HS; unfold upsert, merge_cluster_rule, keep;
          fold k gk; rewrite Hl, Hg; try rewrite (insert_id _ _ _ Hg); done
        | split; [apply cluster_rules_ok_insert; [done | exact (proj1 Hok1 _ _ Hl)] |] ].
      all: intros Hsat; destruct (Hq Hsat) as [Hq1 Hq2].
      all: destruct (cluster_saturated_migrated pre _ _ _ Hsat Hv) as [Hr Hgr];
        rewrite <- HS in Hr, Hgr; fold k in Hr; fold gk in Hgr.
      * split.
        { rewrite !Forall_app. repeat split; try done; by repeat constructor. }
        intros v' Hv'. apply elem_of_app in Hv' as [Hv'|Hv'%list_elem_of_singleton].
        { destruct (Hq2 v' Hv') as (old' & ? & ?).
          exists old'. split; apply elem_of_app; by left. }
        subst v'. exists old. split; apply elem_of_app; right; ev_any.
      * rewrite Hg in Hgr. by destruct Hgr.
    + wp_call_ok Hnf1. unfold store_create. fold k. rewrite Hl. cbn [fst snd].
      apply wp_ret.
      wp_call_ok Hnf1. unfold store_create. cbn [clusterAlertGroups with_clusterAlertRules].
      fold gk.
      destruct (clusterAlertGroups (stores w1) !! gk) as [g|] eqn:Hg; cbn [fst snd];
        apply wp_ret; cbn [stores].
      all: split;
        [ rewrite cluster_migrated_snoc, <- HS; unfold upsert, merge_cluster_rule, keep;
          fold k gk; rewrite Hl, Hg; try rewrite (insert_id _ _ _ Hg); done
        | split; [by apply cluster_rules_ok_insert |] ].
      all: intros Hsat;
        destruct (cluster_saturated_migrated pre _ _ _ Hsat Hv) as [Hr Hgr];
        rewrite <- HS in Hr; fold k in Hr; rewrite Hl in Hr; by destruct Hr.
  - intros w' evs _ (HS & Hok' & Hq). split; [done|]. split; [done|]. split; [done|].
    intros Hsat. destruct (Hq Hsat) as [Hq1 Hq2]. split; [by constructor|].
    intros v Hv. destruct (Hq2 v Hv) as (old & ? & ?). exists old. split; by right.
Qed.

Lemma project_rules_ok_insert s k o G :
  rules_ok s → key_of (prl_Meta o) = k →
  rules_ok (with_projectAlertGroups G
              (with_projectAlertRules (<[k := o]> (projectAlertRules s)) s)).
Proof.
  intros [Hc Hp] Hk. split; [done|]. simpl. intros k' o' Hl.
  destruct (decide (k = k')) as [<-|Hne].
  - rewrite lookup_insert_eq in Hl. congruence.
  - rewrite lookup_insert_ne in Hl by done. eauto.
Qed.

Lemma project_migrated_snoc work projectID v s :
  project_migrated (work ++ [(projectID, v)]) s
  = with_projectAlertGroups
      (upsert keep (key_of (pg_Meta (projectLegacyGroup projectID v)))
              (projectLegacyGroup projectID v)
              (projectAlertGroups (project_migrated work s)))
      (with_projectAlertRules
         (upsert merge_project_rule (key_of (prl_Meta (newProjectRule projectID v)))
                 (newProjectRule projectID v)
                 (projectAlertRules (project_migrated work s)))
         (project_migrated work s)).
Proof.
  unfold project_migrated, project_rule_upserts, project_group_upserts.
  rewrite !fmap_app. simpl. by rewrite !upsert_all_snoc.
Qed.

Lemma project_saturated_migrated work items s v :
  project_saturated items s → in_cluster items v →
  is_Some (projectAlertRules (project_migrated work s)
             !! key_of (prl_Meta (newProjectRule (pa_ProjectName v) v)))
  ∧ is_Some (projectAlertGroups (project_migrated work s)
               !! key_of (pg_Meta (projectLegacyGroup (pa_ProjectName v) v))).
Proof.
  intros Hsat Hv. destruct (Hsat v Hv) as [Hr Hg].
  unfold project_migrated. simpl. split; by apply upsert_all_Some.
Qed.

Lemma project_work_snoc items pre projectID :
  project_work items (pre ++ [projectID])
  = project_work items pre
    ++ ((λ v, (projectID, v)) <$> default [] (oldProjectAlertGroup items !! projectID)).
Proof. unfold project_work. rewrite bind_app. simpl. by rewrite app_nil_r. Qed.

Lemma migrateLegacyProjectAlert_run w :
  no_faults w → rules_ok (stores w) →
  wp migrateLegacyProjectAlert w
     (λ out w' evs,
        out = Return tt
        ∧ (∃ n, stores w'
                = project_migrated
                    (project_work (oldProjectAlerts (ro w))
                       (rangeOrder w n
                          (map_to_list (oldProjectAlertGroup (oldProjectAlerts (ro w)))).*1))
                    (stores w))
        ∧ rules_ok (stores w')
        ∧ (project_saturated (oldProjectAlerts (ro w)) (stores w) →
           Forall (λ ev, replayed ev = true) evs
           ∧ (range_ok w →
              ∀ v, in_cluster (oldProjectAlerts (ro w)) v → project_rule_updated evs v))).
Proof.
  intros Hnf Hok. unfold migrateLegacyProjectAlert.
  wp_call_ok Hnf.
  set (items := oldProjectAlerts (ro w)).
  apply wp_range_map. cbn [trace rangeOrder].
  set (order := rangeOrder w _ _).
  apply wp_forEach
    with (I := λ pre w' evs,
            stores w' = project_migrated (project_work items pre) (stores w)
            ∧ rules_ok (stores w')
            ∧ (project_saturated items (stores w) →
               Forall (λ ev, replayed ev = true) evs
               ∧ ∀ x, x ∈ project_work items pre →
                      pa_ProjectName x.2 = x.1 ∧ project_rule_updated evs x.2)).
  - split; [by destruct (stores w)|]. split; [done|]. intros _.
    split; [constructor|]. intros x Hx. by apply elem_of_nil in Hx.
  - intros pre projectID post w1 evs1 _ E1 (HS & Hok1 & Hq).
    apply wp_forEach
      with (I := λ pre' w' evs,
              stores w'
              = project_migrated
                  (project_work items pre ++ ((λ v, (projectID, v)) <$> pre')) (stores w)
              ∧ rules_ok (stores w')
              ∧ (project_saturated items (stores w) →
                 Forall (λ ev, replayed ev = true) (evs1 ++ evs)
                 ∧ ∀ x, x ∈ project_work items pre ++ ((λ v, (projectID, v)) <$> pre') →
                        pa_ProjectName x.2 = x.1
                        ∧ project_rule_updated (evs1 ++ evs) x.2)).
    + rewrite !app_nil_r. done.
    + intros pre' v post' w2 evs2 Hgroup E2 (HS2 & Hok2 & Hq2).
      assert (no_faults w2) as Hnf2.
      { eapply no_faults_extends; [exact E2|].
        eapply no_faults_extends; [exact E1|]. done. }
      assert (in_cluster items v ∧ pa_ProjectName v = projectID) as [Hv Hpid].
      { apply oldProjectAlertGroup_elem. rewrite Hgroup. apply elem_of_app. right. left. }
      pose proof (newProjectRule_Meta projectID v) as Hmeta.
      wp_call_ok Hnf2. unfold store_get.
      replace ((ref_Parse projectID).2, Name (prl_Meta (newProjectRule projectID v)))
        with (key_of (prl_Meta (newProjectRule projectID v))) by (by rewrite Hmeta).
      set (k := key_of (prl_Meta (newProjectRule projectID v))).
      set (gk := key_of (pg_Meta (projectLegacyGroup projectID v))).
      rewrite fmap_app, app_assoc. simpl.
      destruct (projectAlertRules (stores w2) !! k) as [old|] eqn:Hl; cbv beta iota.
      all: apply wp_bind.
      * wp_call_ok Hnf2. unfold store_update. cbn [prl_Meta].
        rewrite (proj2 Hok2 _ _ Hl), Hl. cbn [fst snd]. apply wp_ret.
        wp_call_ok Hnf2. unfold store_create.
        cbn [projectAlertGroups with_projectAlertRules]. fold gk.
        destruct (projectAlertGroups (stores w2) !! gk) as [g|] eqn:Hg; cbn [fst snd];
          apply wp_ret; cbn [stores].
        all: split;
          [ rewrite project_migrated_snoc, <- HS2; unfold upsert, merge_project_rule, keep;
            fold k gk; rewrite Hl, Hg; try rewrite (insert_id _ _ _ Hg); done
          | split; [apply project_rules_ok_insert; [done | exact (proj2 Hok2 _ _ Hl)] |] ].
        all: intros Hsat; destruct (Hq2 Hsat) as [Hq3 Hq4].
        all: destruct (project_saturated_migrated
                         (project_work items pre ++ ((λ v, (projectID, v)) <$> pre'))
                         _ _ _ Hsat Hv) as [Hr Hgr];
          rewrite <- HS2, Hpid in Hr, Hgr; fold k in Hr; fold gk in Hgr.
        -- split.
           { apply Forall_app in Hq3 as [? ?]. rewrite !Forall_app.
             repeat split; try done; simpl; by repeat constructor. }
           intros x Hx. apply elem_of_app in Hx as [Hx|Hx%list_elem_of_singleton].
           { destruct (Hq4 x Hx) as (? & old' & ? & ?). split; [done|].
             exists old'.
             split; rewrite (app_assoc evs1 evs2); apply elem_of_app; by left. }
           subst x. split; [done|]. exists old. simpl. rewrite Hpid, Hmeta. simpl.
           split; apply elem_of_app; right; apply elem_of_app; right; ev_any.
        -- rewrite Hg in Hgr. by destruct Hgr.
      * wp_call_ok Hnf2. unfold store_create. fold k. rewrite Hl. cbn [fst snd].
        apply wp_ret.
        wp_call_ok Hnf2. unfold store_create.
        cbn [projectAlertGroups with_projectAlertRules]. fold gk.
        destruct (projectAlertGroups (stores w2) !! gk) as [g|] eqn:Hg; cbn [fst snd];
          apply wp_ret; cbn [stores].
        all: split;
          [ rewrite project_migrated_snoc, <- HS2; unfold upsert, merge_project_rule, keep;
            fold k gk; rewrite Hl, Hg; try rewrite (insert_id _ _ _ Hg); done
          | split; [by apply project_rules_ok_insert |] ].
        all: intros Hsat;
          destruct (project_saturated_migrated
                      (project_work items pre ++ ((λ v, (projectID, v)) <$> pre'))
                      _ _ _ Hsat Hv) as [Hr Hgr];
          rewrite <- HS2, Hpid in Hr; fold k in Hr; rewrite Hl in Hr; by destruct Hr.
    + intros w' evs _ (HS2 & Hok2 & Hq2). by rewrite project_work_snoc.
  - intros w' evs _ (HS & Hok' & Hq). split; [done|]. split; [by eexists|].
    split; [done|]. intros Hsat. destruct (Hq Hsat) as [Hq1 Hq2].
    split; [by constructor|]. intros Hrange v Hv.
    apply oldProjectAlertGroup_in_cluster in Hv as [Hk Hv].
    destruct (Hq2 (pa_ProjectName v, v)) as (_ & old & ? & ?).
    { unfold project_work. apply list_elem_of_bind. exists (pa_ProjectName v).
      split; [by apply list_elem_of_fmap_2|]. unfold order. by rewrite (Hrange _ _). }
    exists old. split; by right.
Qed.

(** ** The order of the projects does not matter *)

Section FilterBind.
Context {A B : Type} (f : A → list B) (P : B → Prop) `{!∀ x, Decision (P x)}.

Lemma filter_none (xs : list B) : (∀ x, x ∈ xs → ¬ P x) → filter P xs = [].
Proof.
  induction xs as [|x xs IH]; intros Hnone; [done|].
  rewrite filter_cons_False by (apply Hnone; left).
  apply IH. intros y Hy. apply Hnone. by right.
Qed.

Lemma filter_bind_none (xs : list A) :
  (∀ a x, a ∈ xs → x ∈ f a → ¬ P x) → filter P (xs ≫= f) = [].
Proof.
  intros Hnone. apply filter_none. intros x Hx.
  apply list_elem_of_bind in Hx as (a & Hx & Ha). eauto.
Qed.

Lemma filter_bind_single (xs : list A) a :
  NoDup xs → a ∈ xs →
  (∀ b x, b ∈ xs → b ≠ a → x ∈ f b → ¬ P x) →
  filter P (xs ≫= f) = filter P (f a).
Proof.
  induction xs as [|c xs IH]; intros Hnd Ha Hnone; [by apply elem_of_nil in Ha|].
  apply NoDup_cons in Hnd as [Hc Hnd]. rewrite bind_cons, filter_app.
  apply elem_of_cons in Ha as [->|Ha].
  - rewrite (filter_bind_none xs); [by rewrite app_nil_r|].
    intros b x Hb. apply Hnone; [by right|]. by intros ->.
  - rewrite (filter_none (f c)).
    + apply IH; [done..|]. intros b x Hb. apply Hnone. by right.
    + intros x. apply Hnone; [left|]. by intros ->.
Qed.

Lemma filter_bind_perm (l1 l2 : list A) :
  l1 ≡ₚ l2 → NoDup l1 →
  (∀ a b x y, a ∈ l1 → b ∈ l1 → x ∈ f a → y ∈ f b → P x → P y → a = b) →
  filter P (l1 ≫= f) = filter P (l2 ≫= f).
Proof.
  intros Hperm Hnd Huniq.
  destruct (decide (Exists (λ a, Exists P (f a)) l1)) as [Hex|Hno].
  - apply Exists_exists in Hex as (a & Ha & Hex).
    apply Exists_exists in Hex as (x & Hx & HPx).
    rewrite (filter_bind_single l1 a); [|done|done|].
    2:{ intros b y Hb Hne Hy HPy. apply Hne. by apply (Huniq b a y x). }
    rewrite (filter_bind_single l2 a);
      [done | by rewrite <- Hperm | by rewrite <- Hperm |].
    intros b y Hb Hne Hy HPy. apply Hne.
    rewrite <- Hperm in Hb. by apply (Huniq b a y x).
  - rewrite !filter_bind_none; [done| |].
    + intros a x Ha Hx HPx. apply Hno. rewrite <- Hperm in Ha.
      apply Exists_exists. exists a. split; [done|].
      apply Exists_exists. by exists x.
    + intros a x Ha Hx HPx. apply Hno.
      apply Exists_exists. exists a. split; [done|].
      apply Exists_exists. by exists x.
Qed.
End FilterBind.

Lemma filter_fmap {A B} (g : A → B) (P : B → Prop) `{!∀ x, Decision (P x)}
    (xs : list A) :
  filter P (g <$> xs) = g <$> filter (λ x, P (g x)) xs.
Proof.
  induction xs as [|x xs IH]; [done|]. rewrite fmap_cons.
  destruct (decide (P (g x))).
  - rewrite !filter_cons_True by done. by rewrite fmap_cons, IH.
  - by rewrite !filter_cons_False.
Qed.

(** Project ids of the form cluster:project, cut at the cluster name,
    have distinct project names. *)
Lemma project_names_distinct_cluster_ids items :
  (∀ v, in_cluster items v →
        pa_ProjectName v = clusterName l +:+ ":" +:+ (ref_Parse (pa_ProjectName v)).2) →
  project_names_distinct items.
Proof. intros H v v' Hv Hv' Heq. rewrite (H v Hv), (H v' Hv'). by rewrite Heq. Qed.

(** Two visiting orders give, key by key, the same upserts. *)
Lemma project_work_filter items order1 order2
    (P : string * ProjectAlert → Prop) `{!∀ x, Decision (P x)} :
  order1 ≡ₚ order2 → NoDup order1 →
  project_names_distinct items →
  (∀ x y, P x → P y → (ref_Parse x.1).2 = (ref_Parse y.1).2) →
  filter P (project_work items order1) = filter P (project_work items order2).
Proof.
  intros Hperm Hnd Hdist HP. unfold project_work.
  apply filter_bind_perm; [done..|].
  intros a b x y _ _ Hx Hy HPx HPy.
  apply list_elem_of_fmap in Hx as (v & -> & Hv).
  apply list_elem_of_fmap in Hy as (v' & -> & Hv').
  apply oldProjectAlertGroup_elem in Hv as [Hv <-].
  apply oldProjectAlertGroup_elem in Hv' as [Hv' <-].
  apply Hdist; [done..|]. apply (HP _ _ HPx HPy).
Qed.

(** ** Running the migration twice *)

Lemma merge_cluster_rule_merge a b c :
  merge_cluster_rule (merge_cluster_rule a b) c = merge_cluster_rule a c.
Proof. done. Qed.

Lemma merge_cluster_rule_same a : merge_cluster_rule a a = a.
Proof. by destruct a. Qed.

Lemma merge_project_rule_merge a b c :
  merge_project_rule (merge_project_rule a b) c = merge_project_rule a c.
Proof. done. Qed.

Lemma merge_project_rule_same a : merge_project_rule a a = a.
Proof. by destruct a. Qed.

Lemma cluster_migrated_replay items s rules groups :
  clusterAlertRules s = upsert_all merge_cluster_rule (cluster_rule_upserts items) rules →
  clusterAlertGroups s = upsert_all keep (cluster_group_upserts items) groups →
  cluster_migrated items s = s.
Proof.
  intros Hr Hg. unfold cluster_migrated. rewrite Hr, Hg.
  rewrite !upsert_all_replay;
    try first [ done | apply merge_cluster_rule_merge | apply merge_cluster_rule_same ].
  destruct s; simpl in *. by subst.
Qed.

Lemma project_migrated_replay work1 work2 s rules groups :
  projectAlertRules s = upsert_all merge_project_rule (project_rule_upserts work1) rules →
  projectAlertGroups s = upsert_all keep (project_group_upserts work1) groups →
  (∀ k, filter (λ x, x.1 = k) (project_rule_upserts work2)
        = filter (λ x, x.1 = k) (project_rule_upserts work1)) →
  (∀ k, filter (λ x, x.1 = k) (project_group_upserts work2)
        = filter (λ x, x.1 = k) (project_group_upserts work1)) →
  project_migrated work2 s = s.
Proof.
  intros Hr Hg Hfr Hfg. unfold project_migrated. rewrite Hr, Hg.
  rewrite !upsert_all_replay;
    try first [ done | apply merge_project_rule_merge | apply merge_project_rule_same ].
  destruct s; simpl in *. by subst.
Qed.

Lemma project_upserts_filter items order1 order2 :
  order1 ≡ₚ order2 → NoDup order1 → project_names_distinct items →
  (∀ k, filter (λ x, x.1 = k) (project_rule_upserts (project_work items order2))
        = filter (λ x, x.1 = k) (project_rule_upserts (project_work items order1)))
  ∧ (∀ k, filter (λ x, x.1 = k) (project_group_upserts (project_work items order2))
          = filter (λ x, x.1 = k) (project_group_upserts (project_work items order1))).
Proof.
  intros Hperm Hnd Hdist.
  split; intros k; unfold project_rule_upserts, project_group_upserts;
    rewrite !filter_fmap; f_equal; symmetry;
    apply project_work_filter; try done; simpl.
  - intros x y <-. rewrite !newProjectRule_Meta. unfold key_of. simpl. congruence.
  - intros x y <-. unfold key_of. simpl. congruence.
Qed.

Lemma cluster_migrated_saturated items s :
  cluster_saturated items (cluster_migrated items s).
Proof.
  intros v Hv. unfold cluster_migrated. simpl. split.
  - apply (upsert_all_in merge_cluster_rule (cluster_rule_upserts items) _
                         (key_of (cr_Meta (newClusterRule v)), newClusterRule v)).
    unfold cluster_rule_upserts.
    by apply (list_elem_of_fmap_2 (λ v, (key_of (cr_Meta (newClusterRule v)), newClusterRule v))).
  - apply (upsert_all_in keep (cluster_group_upserts items) _
                         (key_of (cg_Meta (clusterLegacyGroup v)), clusterLegacyGroup v)).
    unfold cluster_group_upserts.
    by apply (list_elem_of_fmap_2
                (λ v, (key_of (cg_Meta (clusterLegacyGroup v)), clusterLegacyGroup v))).
Qed.

Lemma project_migrated_saturated items order s :
  order ≡ₚ (map_to_list (oldProjectAlertGroup items)).*1 →
  project_saturated items (project_migrated (project_work items order) s).
Proof.
  intros Hperm v Hv. apply oldProjectAlertGroup_in_cluster in Hv as [Hk Hv].
  assert ((pa_ProjectName v, v) ∈ project_work items order) as Hw.
  { unfold project_work. apply list_elem_of_bind. exists (pa_ProjectName v).
    split; [by apply list_elem_of_fmap_2 | by rewrite Hperm]. }
  unfold project_migrated. simpl. split.
  - apply (upsert_all_in merge_project_rule _ _
             (key_of (prl_Meta (newProjectRule (pa_ProjectName v) v)),
              newProjectRule (pa_ProjectName v) v)).
    unfold project_rule_upserts.
    by apply (list_elem_of_fmap_2
                (λ x, (key_of (prl_Meta (newProjectRule x.1 x.2)), newProjectRule x.1 x.2))
                _ (pa_ProjectName v, v)).
  - apply (upsert_all_in keep _ _
             (key_of (pg_Meta (projectLegacyGroup (pa_ProjectName v) v)),
              projectLegacyGroup (pa_ProjectName v) v)).
    unfold project_group_upserts.
    by apply (list_elem_of_fmap_2
                (λ x, (key_of (pg_Meta (projectLegacyGroup x.1 x.2)),
                       projectLegacyGroup x.1 x.2))
                _ (pa_ProjectName v, v)).
Qed.

(** Both migrations, one after the other. *)
Lemma migration_run w :
  no_faults w → rules_ok (stores w) →
  wp (migrateLegacyClusterAlert;; migrateLegacyProjectAlert) w
     (λ out w' evs,
        out = Return tt
        ∧ (∃ n, stores w'
                = project_migrated
                    (project_work (oldProjectAlerts (ro w))
                       (rangeOrder w n
                          (map_to_list (oldProjectAlertGroup (oldProjectAlerts (ro w)))).*1))
                    (cluster_migrated (oldClusterAlerts (ro w)) (stores w)))
        ∧ rules_ok (stores w')
        ∧ (cluster_saturated (oldClusterAlerts (ro w)) (stores w) →
           project_saturated (oldProjectAlerts (ro w)) (stores w) →
           Forall (λ ev, replayed ev = true) evs
           ∧ (∀ v, v ∈ oldClusterAlerts (ro w) → cluster_rule_updated evs v)
           ∧ (range_ok w →
              ∀ v, in_cluster (oldProjectAlerts (ro w)) v → project_rule_updated evs v))).
Proof.
  intros Hnf Hok. apply wp_bind.
  eapply wp_mono; [by apply migrateLegacyClusterAlert_run|].
  intros out1 w1 evs1 E1 (-> & HS1 & Hok1 & Hq1).
  eapply wp_mono; [apply migrateLegacyProjectAlert_run;
                   [by eapply no_faults_extends | done]|].
  intros out2 w2 evs2 E2 (-> & [n HS2] & Hok2 & Hq2).
  rewrite (ext_ro _ _ _ E1), (ext_range _ _ _ E1), HS1 in HS2.
  rewrite (ext_ro _ _ _ E1) in Hq2.
  split; [done|]. split; [by exists n|]. split; [done|].
  intros Hsc Hsp. destruct (Hq1 Hsc) as [Hr1 Hu1].
  destruct Hq2 as [Hr2 Hu2].
  { rewrite HS1. intros v Hv. destruct (Hsp v Hv). by unfold cluster_migrated. }
  split; [by apply Forall_app|]. split.
  - intros v Hv. destruct (Hu1 v Hv) as (old & ? & ?).
    exists old. split; apply elem_of_app; by left.
  - intros Hrange v Hv. destruct (Hu2 (λ n ks, eq_ind_r (λ f, f n ks ≡ₚ ks)
                                             (Hrange n ks) (ext_range _ _ _ E1)) v Hv)
      as (old & ? & ?).
    exists old. split; apply elem_of_app; by right.
Qed.

(** C1: when no call fails for a reason of the environment, a second
    run of the two migrations over the same legacy alerts returns no
    error and leaves every store as the first run left it: it creates
    no rule, it fetches the rule of every legacy alert under its derived
    name and updates it in place, and each of its group creations is
    answered already-exists.  The stores hold every rule under its own
    name, the runtime visits each project once, and the project ids of
    the cluster's alerts have distinct project names. *)
Theorem migration_idempotent w :
  no_faults w → range_ok w → rules_ok (stores w) →
  project_names_distinct (oldProjectAlerts (ro w)) →
  let executor := migrateLegacyClusterAlert;; migrateLegacyProjectAlert in
  let w1 := (executor w).2 in
  outcome_of executor w = Return tt
  ∧ outcome_of executor w1 = Return tt
  ∧ stores (executor w1).2 = stores w1
  ∧ Forall (λ ev, replayed ev = true) (events_of executor w1)
  ∧ (∀ v, v ∈ oldClusterAlerts (ro w) → cluster_rule_updated (events_of executor w1) v)
  ∧ (∀ v, in_cluster (oldProjectAlerts (ro w)) v →
          project_rule_updated (events_of executor w1) v).
Proof.
  intros Hnf Hrange Hok Hdist executor w1.
  pose proof (migration_run w Hnf Hok) as Hrun1.
  destruct (wp_extends _ _ _ Hrun1) as [evs1 E1].
  apply wp_elim in Hrun1 as (Hout1 & [n1 HS1] & Hok1 & _).
  fold executor in Hout1, HS1, Hok1, E1. fold w1 in HS1, Hok1, E1.
  assert (no_faults w1) as Hnf1 by (by eapply no_faults_extends).
  assert (range_ok w1) as Hrange1.
  { intros n ks. rewrite (ext_range _ _ _ E1). apply Hrange. }
  pose proof (migration_run w1 Hnf1 Hok1) as Hrun2.
  apply wp_elim in Hrun2 as (Hout2 & [n2 HS2] & _ & Hq).
  fold executor in Hout2, HS2, Hq.
  rewrite (ext_ro _ _ _ E1), (ext_range _ _ _ E1) in HS2.
  rewrite (ext_ro _ _ _ E1) in Hq.
  set (itemsC := oldClusterAlerts (ro w)) in *.
  set (itemsP := oldProjectAlerts (ro w)) in *.
  set (keys := (map_to_list (oldProjectAlertGroup itemsP)).*1) in *.
  assert (cluster_migrated itemsC (stores w1) = stores w1) as Hc.
  { eapply cluster_migrated_replay; rewrite HS1; unfold project_migrated; simpl; done. }
  destruct (project_upserts_filter itemsP (rangeOrder w n1 keys) (rangeOrder w n2 keys))
    as [Hfr Hfg]; [by rewrite !(Hrange _ _) | | done |].
  { rewrite (Hrange _ _). apply NoDup_fst_map_to_list. }
  assert (project_migrated (project_work itemsP (rangeOrder w n2 keys)) (stores w1)
          = stores w1) as Hp.
  { eapply project_migrated_replay; [| |exact Hfr|exact Hfg];
      rewrite HS1; unfold project_migrated; simpl; done. }
  split; [done|]. split; [done|]. split; [by rewrite HS2, Hc, Hp|].
  destruct Hq as (Hq1 & Hq2 & Hq3).
  - rewrite HS1. intros v Hv.
    destruct (cluster_migrated_saturated itemsC (stores w) v Hv). by unfold project_migrated.
  - rewrite HS1. apply project_migrated_saturated. apply Hrange.
  - split; [done|]. split; [done|]. by apply Hq3.
Qed.

(** ** The paths of [Upgrade] *)

Lemma wp_settings w (Q : Outcome string → World → list Event → Prop) :
  Q (Return (SystemMonitoringCatalogID (ro w))) w [] →
  wp settings_SystemMonitoringCatalogID_Get w Q.
Proof. intros. exists []. split; [apply extends_refl | done]. Qed.

Lemma wp_migration_block currentVersion w
    (Q : Outcome unit → World → list Event → Prop) :
  (∀ w', Q (outcome_of (migration_block currentVersion) w) w'
           (events_of (migration_block currentVersion) w)) →
  wp (migration_block currentVersion) w Q.
Proof.
  intros H. destruct (migration_block_calls currentVersion w) as (evs & E & _).
  eapply wp_mono; [apply wp_intro; eauto|].
  intros out w' evs' _ (-> & _ & ->). apply H.
Qed.

Lemma Upgrade_app_paths cat eid nv (app_block : Go string) w :
  app_block = (
    r ← projectLister_List;
    match r with
    | Fail err => fail (Errorf ("list system project failed, " +:+ err_msg err))
    | Ok defaultSystemProjects =>
      match defaultSystemProjects with
      | [] => fail (Errorf "get system project failed")
      | None :: _ => fail (Errorf "get system project failed")
      | Some systemProject :: _ =>
        r ← apps_GetNamespaced (proj_Name systemProject) ClusterAlertManagerInfo.1;
        match r with
        | Fail err =>
            if IsNotFound err then mret nv
            else fail (Errorf ("get app " +:+ proj_Name systemProject +:+ ":"
                               +:+ ClusterAlertManagerInfo.1 +:+ " failed, "
                               +:+ err_msg err))
        | Ok app =>
          match newApp eid app with
          | None => panic "assignment to entry in nil map"
          | Some newApp =>
            (if bool_decide (newApp ≠ app) then
               r ← clusterLister_Get (clusterName l);
               match r with
               | Fail err =>
                   fail (Errorf ("get cluster " +:+ clusterName l +:+ " failed, "
                                 +:+ err_msg err))
               | Ok cluster =>
                 if negb (ClusterConditionReady cluster) then
                   fail (Errorf ("cluster " +:+ clusterName l +:+ " not ready"))
                 else
                   r ← catalogLister_Get cat;
                   match r with
                   | Fail err =>
                       fail (Errorf ("get catalog " +:+ cat +:+ " failed, " +:+ err_msg err))
                   | Ok systemCatalog =>
                     if negb (CatalogConditionUpgraded systemCatalog)
                        || negb (CatalogConditionRefreshed systemCatalog)
                        || negb (CatalogConditionDiskCached systemCatalog)
                     then fail (Errorf ("catalog " +:+ cat +:+ " not ready"))
                     else
                       r ← apps_Update newApp;
                       match r with
                       | Fail err =>
                           fail (Errorf ("update app " +:+ Namespace (app_Meta app)
                                         +:+ ":" +:+ Name (app_Meta app)
                                         +:+ " failed, " +:+ err_msg err))
                       | Ok _ => mret tt
                       end
                   end
               end
             else mret tt);;
            mret nv
          end
        end
      end
    end) →
  wp app_block w (λ out _ evs, App_path cat eid nv out evs).
Proof.
  intros ->.
  wp_call. destruct r as [ps|err]; [|wp_step; apply app_list_fails].
  destruct ps as [|[sp|] ps];
    [wp_step; apply app_no_project; simpl; auto | |
     wp_step; apply app_no_project; simpl; auto].
  wp_call. destruct r as [app|err].
  2:{ destruct (IsNotFound err) eqn:Hnf; wp_step;
        [by apply app_not_found | by apply app_get_fails]. }
  destruct (newApp eid app) as [app'|] eqn:Hnew.
  2:{ wp_step. apply app_nil_answers. unfold newApp in Hnew.
      by destruct (app_Answers app). }
  apply wp_bind. destruct (bool_decide (app' ≠ app)) eqn:Hd.
  2:{ apply bool_decide_eq_false in Hd. apply dec_stable in Hd as ->.
      wp_step. wp_step. by apply app_unchanged. }
  apply bool_decide_eq_true in Hd.
  wp_call. destruct r as [cluster|err]; [|wp_step; by eapply app_cluster_fails].
  destruct (ClusterConditionReady cluster) eqn:Hready; simpl.
  2:{ wp_step. by eapply app_cluster_not_ready. }
  wp_call. destruct r as [catalog|err]; [|wp_step; by eapply app_catalog_fails].
  destruct (CatalogConditionUpgraded catalog && CatalogConditionRefreshed catalog
            && CatalogConditionDiskCached catalog) eqn:Hcat.
  - pose proof Hcat as Hcat'.
    apply andb_prop in Hcat as [Hcat ->]. apply andb_prop in Hcat as [-> ->]. simpl.
    wp_call. destruct r as [stored|err].
    + wp_step. wp_step. by eapply app_updated.
    + wp_step. by eapply app_update_fails.
  - replace (negb (CatalogConditionUpgraded catalog)
             || negb (CatalogConditionRefreshed catalog)
             || negb (CatalogConditionDiskCached catalog)) with true.
    2:{ by destruct (CatalogConditionUpgraded catalog),
             (CatalogConditionRefreshed catalog),
             (CatalogConditionDiskCached catalog). }
    wp_step. by eapply app_catalog_not_ready.
Qed.

Lemma wp_api_read {A} c inj (f : ReadOnly → Stores → Result A) w
    (Q : Outcome (Result A) → World → list Event → Prop) :
  (∀ r w', extends w w' [(c, result_map inj r)] → stores w' = stores w →
           Q (Return r) w' [(c, result_map inj r)]) →
  wp (api c inj (λ r s, (f r s, s))) w Q.
Proof.
  intros H. apply wp_api.
  - intros err _. apply (H (Fail err)); [by split | done].
  - intros _. apply H; [by split | done].
Qed.

Lemma migration_block_no_panic currentVersion w msg :
  outcome_of (migration_block currentVersion) w ≠ Panic msg.
Proof.
  pose proof (wp_elim _ _ _ (migration_block_calls currentVersion w)) as [H _].
  intros E. by rewrite E in H.
Qed.

Lemma Upgrade_paths currentVersion w :
  wp (Upgrade currentVersion) w (λ out _ evs, Upgrade_path currentVersion w out evs).
Proof.
  unfold Upgrade. apply wp_bind, wp_settings. cbv beta iota.
  destruct (SplitExternalID (SystemMonitoringCatalogID (ro w)))
    as [[[[[tns cat] kind] tn] extra]|err] eqn:Hsplit.
  2:{ wp_step. by apply path_split_fails. }
  apply wp_bind. unfold templateLister_Get. apply wp_api_read.
  intros [template|err] w1 E1 S1; cbv beta iota.
  2:{ wp_step. by eapply path_template_fails. }
  destruct (ParseExternalID (newExternalID cat tn template)) as [[nv extra']|err] eqn:Hparse.
  2:{ wp_step. by eapply path_parse_fails. }
  apply wp_bind. apply (wp_migration_block currentVersion). intros w2.
  destruct (outcome_of (migration_block currentVersion) w1) as [[]|err|msg] eqn:Hmig.
  - eapply wp_mono; [by eapply Upgrade_app_paths|].
    intros out w3 rest _ Hpath. simpl. by eapply path_migrated.
  - rewrite app_nil_l. by eapply path_migration_fails.
  - by apply migration_block_no_panic in Hmig.
Qed.

Lemma Upgrade_run currentVersion w :
  Upgrade_path currentVersion w (outcome_of (Upgrade currentVersion) w)
               (events_of (Upgrade currentVersion) w).
Proof. apply (wp_elim _ _ _ (Upgrade_paths currentVersion w)). Qed.

Lemma migration_block_event currentVersion w ev :
  ev ∈ events_of (migration_block currentVersion) w → is_migration_call ev.1 = true.
Proof.
  pose proof (wp_elim _ _ _ (migration_block_calls currentVersion w)) as (_ & H & _).
  rewrite Forall_forall in H. apply H.
Qed.

Lemma migration_block_skipped currentVersion w :
  strings_Contains currentVersion "system-library-rancher-monitoring" = true →
  events_of (migration_block currentVersion) w = [].
Proof.
  pose proof (wp_elim _ _ _ (migration_block_calls currentVersion w)) as (_ & _ & H).
  intros Hc. by destruct (H Hc).
Qed.

(** Case analysis on which event of a path a given event is. *)
Ltac ev_cases H :=
  repeat lazymatch type of H with
    | _ ∈ [] => by apply elem_of_nil in H
    | _ ∈ _ :: _ =>
        apply elem_of_cons in H as [H|H];
        [try discriminate H; try (injection H as ?; subst) |]
    | _ ∈ _ ++ _ => apply elem_of_app in H as [H|H]
    | _ ∈ events_of (migration_block _) _ =>
        apply migration_block_event in H; try discriminate H
    end.

(** An event is on a path. *)
Ltac ev_in :=
  repeat first [ apply list_elem_of_here
               | apply list_elem_of_further
               | apply elem_of_app; right ].

(** All paths of [Upgrade], with the outcome and the calls named. *)
Ltac upgrade_paths currentVersion w out evs :=
  pose proof (Upgrade_run currentVersion w) as Hpath;
  remember (outcome_of (Upgrade currentVersion) w) as out eqn:Hout;
  remember (events_of (Upgrade currentVersion) w) as evs eqn:Hevs;
  clear Hout Hevs;
  destruct Hpath as [| | | |? ? ? ? ? ? ? ? ? ? ? ? ? ? ? ? Happ];
  [| | | |destruct Happ].

(** ** The statements about [Upgrade] *)

(** C7: when the fetch of the deployed application, by its fixed name in
    the system project, fails, nothing is called afterwards; on not-found
    [Upgrade] returns the resolved new version and no error, on any other
    failure it returns an error. *)
Theorem Upgrade_app_fetch_fails currentVersion w namespace name err :
  (Apps_GetNamespaced namespace name, Fail err) ∈ events_of (Upgrade currentVersion) w →
  (∃ systemProject ps,
      (ProjectLister_List, Ok (VProjects (Some systemProject :: ps)))
        ∈ events_of (Upgrade currentVersion) w
      ∧ namespace = proj_Name systemProject ∧ name = ClusterAlertManagerInfo.1)
  ∧ last (events_of (Upgrade currentVersion) w)
    = Some (Apps_GetNamespaced namespace name, Fail err)
  ∧ (IsNotFound err = true →
     ∃ cat eid nv,
       resolved w (events_of (Upgrade currentVersion) w) cat eid nv
       ∧ outcome_of (Upgrade currentVersion) w = Return nv)
  ∧ (IsNotFound err = false →
     outcome_of (Upgrade currentVersion) w
     = Error (Errorf ("get app " +:+ namespace +:+ ":" +:+ name +:+ " failed, "
                      +:+ err_msg err))).
Proof.
  intros Hev. upgrade_paths currentVersion w out evs; ev_cases Hev.
  - split; [eexists _, _; split; [ev_in|done]|].
    split; [by rewrite last_cons, last_app|].
    split; [|congruence]. intros _. eexists _, _, _. split; [|done].
    eexists _, _, _, _, _, _. repeat split; try done. ev_in.
  - split; [eexists _, _; split; [ev_in|done]|].
    split; [by rewrite last_cons, last_app|].
    split; [congruence|done].
Qed.

(** What a run resolved is what its path resolved. *)
Ltac use_resolved Hres :=
  let Hs := fresh "Hs" in
  let Ht := fresh "Ht" in
  let Hp := fresh "Hp" in
  destruct Hres as (? & ? & ? & ? & ? & ? & Hs & Ht & -> & Hp);
  match goal with
  | Hx : SplitExternalID _ = _ |- _ => rewrite Hx in Hs
  end;
  first [discriminate Hs | injection Hs as <- <- <- <- <-];
  ev_cases Ht;
  match goal with
  | Hx : ParseExternalID _ = _ |- _ => rewrite Hx in Hp
  end;
  first [discriminate Hp | injection Hp as <- <-].

Lemma newApp_nil_answers eid app app' :
  newApp eid app = Some app' → app_Answers app = None → False.
Proof. unfold newApp. intros H Ha. by rewrite Ha in H. Qed.

Lemma newApp_unchanged eid app :
  newApp eid app = Some app ↔
  app_ExternalID app = eid
  ∧ ∃ answers, app_Answers app = Some answers
               ∧ answers !! "operator.enabled" = Some "false".
Proof.
  unfold newApp. destruct app as [meta ext [answers|]]; simpl.
  2:{ split; [done | by intros (_ & a & Ha & _)]. }
  split.
  - intros [= -> Ha]. split; [done|]. exists answers. split; [done|].
    rewrite <- Ha at 1. apply lookup_insert_eq.
  - intros (-> & answers' & [= <-] & Ha). by rewrite insert_id.
Qed.


(** C5: when the desired state of the application is the fetched one,
    [Upgrade] returns the resolved new version and calls neither the
    application update nor the cluster and catalog listers; the listers
    are called only when the desired state differs. *)
Theorem Upgrade_noop_guard currentVersion w cat eid nv :
  resolved w (events_of (Upgrade currentVersion) w) cat eid nv →
  (∀ namespace name app,
      (Apps_GetNamespaced namespace name, Ok (VApp app))
        ∈ events_of (Upgrade currentVersion) w →
      newApp eid app = Some app →
      outcome_of (Upgrade currentVersion) w = Return nv
      ∧ (∀ o r, (Apps_Update o, r) ∉ events_of (Upgrade currentVersion) w)
      ∧ (∀ n r, (ClusterLister_Get n, r) ∉ events_of (Upgrade currentVersion) w)
      ∧ (∀ n r, (CatalogLister_Get n, r) ∉ events_of (Upgrade currentVersion) w))
  ∧ (∀ c r,
      (c, r) ∈ events_of (Upgrade currentVersion) w →
      (∃ n, c = ClusterLister_Get n) ∨ (∃ n, c = CatalogLister_Get n) →
      ∃ namespace name app app',
        (Apps_GetNamespaced namespace name, Ok (VApp app))
          ∈ events_of (Upgrade currentVersion) w
        ∧ newApp eid app = Some app' ∧ app' ≠ app).
Proof.
  intros Hres. split.
  - intros namespace name app Hev Hnew.
    upgrade_paths currentVersion w out evs; ev_cases Hev; use_resolved Hres.
    all: try congruence.
    all: try (exfalso; eapply newApp_nil_answers; eassumption).
    all: split; [done|]; repeat split; intros ? ? Hu; by ev_cases Hu.
  - intros c r Hev [[n ->]|[n ->]].
    all: upgrade_paths currentVersion w out evs; ev_cases Hev; use_resolved Hres.
    all: eexists _, _, _, _; split; [ev_in|]; by split.
Qed.

(** C10: a deployed application fetched with a nil [Answers] map makes
    [Upgrade] panic right after the fetch; [Upgrade] panics in no other
    case, so it completes only for a non-nil map. *)
Theorem Upgrade_nil_answers_panics currentVersion w :
  (∀ namespace name app,
      (Apps_GetNamespaced namespace name, Ok (VApp app))
        ∈ events_of (Upgrade currentVersion) w →
      app_Answers app = None →
      outcome_of (Upgrade currentVersion) w = Panic "assignment to entry in nil map"
      ∧ last (events_of (Upgrade currentVersion) w)
        = Some (Apps_GetNamespaced namespace name, Ok (VApp app)))
  ∧ (∀ namespace name app,
      (Apps_GetNamespaced namespace name, Ok (VApp app))
        ∈ events_of (Upgrade currentVersion) w →
      no_panic (outcome_of (Upgrade currentVersion) w) →
      is_Some (app_Answers app))
  ∧ (∀ msg,
      outcome_of (Upgrade currentVersion) w = Panic msg →
      ∃ namespace name app,
        (Apps_GetNamespaced namespace name, Ok (VApp app))
          ∈ events_of (Upgrade currentVersion) w
        ∧ app_Answers app = None).
Proof.
  assert (∀ eid app app', newApp eid app = Some app' → is_Some (app_Answers app)) as Hsome.
  { unfold newApp. intros eid app app'. destruct (app_Answers app); [eauto | done]. }
  pose proof newApp_nil_answers as Hnone.
  split; [|split].
  - intros namespace name app Hev Ha.
    upgrade_paths currentVersion w out evs; ev_cases Hev;
      try (exfalso; by eauto).
    split; [done | by rewrite last_cons, last_app].
  - intros namespace name app Hev Hnp.
    upgrade_paths currentVersion w out evs; ev_cases Hev; try done; eauto.
  - intros msg Hp. upgrade_paths currentVersion w out evs; try done.
    eexists _, _, _. split; [ev_in | done].
Qed.

(** ** The migration inside [Upgrade] *)

Lemma events_of_extends {A} (m : Go A) w evs :
  extends w (m w).2 evs → events_of m w = evs.
Proof. intros E. unfold events_of. by rewrite (ext_trace _ _ _ E), drop_app_length. Qed.

Lemma events_of_bind {A B} (m : Go A) (k : A → Go B) w :
  (∃ evs, extends w (m w).2 evs) →
  (∀ a, ∃ evs, extends (m w).2 (k a (m w).2).2 evs) →
  events_of (m ≫= k) w
  = events_of m w ++ match outcome_of m w with
                     | Return a => events_of (k a) (m w).2
                     | _ => []
                     end.
Proof.
  intros [evs1 E1] Hk. rewrite (events_of_extends m w evs1 E1).
  unfold outcome_of. unfold events_of at 1. unfold mbind, Go_bind.
  destruct (m w) as [[a|err|msg] w1] eqn:Hm; simpl in *.
  - destruct (Hk a) as [evs2 E2]. rewrite (events_of_extends (k a) w1 evs2 E2).
    by rewrite (ext_trace _ _ _ E2), (ext_trace _ _ _ E1), <- app_assoc, drop_app_length.
  - by rewrite (ext_trace _ _ _ E1), drop_app_length, app_nil_r.
  - by rewrite (ext_trace _ _ _ E1), drop_app_length, app_nil_r.
Qed.

Lemma outcome_of_bind {A B} (m : Go A) (k : A → Go B) w :
  outcome_of (m ≫= k) w
  = match outcome_of m w with
    | Return a => outcome_of (k a) (m w).2
    | Error err => Error err
    | Panic msg => Panic msg
    end.
Proof.
  unfold outcome_of, mbind, Go_bind. by destruct (m w) as [[a|err|msg] w1].
Qed.

Lemma migration_block_events currentVersion w :
  strings_Contains currentVersion "system-library-rancher-monitoring" = false →
  events_of (migration_block currentVersion) w = migration_events w.
Proof.
  intros Hc. unfold migration_block, migration_events. rewrite Hc. simpl.
  rewrite events_of_bind.
  - f_equal. destruct (outcome_of migrateLegacyClusterAlert w); try done.
    rewrite events_of_bind; [done | |].
    + eapply wp_extends, migrateLegacyProjectAlert_calls.
    + intros _. eapply wp_extends, removeLegacyAlerting_calls.
  - eapply wp_extends, migrateLegacyClusterAlert_calls.
  - intros _. eapply (wp_extends (_ ≫= _) _ (λ _ _ _, True)). apply wp_bind.
    eapply wp_mono; [apply migrateLegacyProjectAlert_calls|].
    intros [[]|?|?] w2 evs2 _ _; try done.
    eapply wp_mono; [apply removeLegacyAlerting_calls|]. done.
Qed.

Lemma App_path_calls cat eid nv out evs :
  App_path cat eid nv out evs → Forall (λ ev, is_migration_call ev.1 = false) evs.
Proof. destruct 1; by repeat constructor. Qed.

(** In a world that lets [Upgrade] resolve the version, the run of
    [Upgrade] does resolve it. *)
Lemma Upgrade_resolves currentVersion w cat eid nv :
  resolvable w cat eid nv →
  resolved w (events_of (Upgrade currentVersion) w) cat eid nv.
Proof.
  intros (tns & kind & tn & extra & template & extra' & Hs & Ho & -> & Hp).
  exists tns, kind, tn, extra, template, extra'.
  split; [done|]. split; [|done].
  enough (wp (Upgrade currentVersion) w
            (λ _ _ evs, (TemplateLister_Get tns (cat +:+ "-" +:+ tn),
                         Ok (VTemplate template)) ∈ evs)) as H
      by apply (wp_elim _ _ _ H).
  unfold Upgrade. apply wp_bind, wp_settings. cbv beta iota. rewrite Hs.
  apply wp_bind. unfold templateLister_Get in *. unfold outcome_of, api in Ho.
  apply wp_api.
  { intros err Hf. rewrite Hf in Ho. discriminate Ho. }
  intros Hnf. rewrite Hnf in Ho. cbn [fst snd] in Ho. injection Ho as Ho.
  cbn [fst snd]. rewrite Ho. cbv beta iota. cbn [result_map]. rewrite Hp.
  apply wp_bind. apply (wp_migration_block currentVersion). intros w2.
  destruct (outcome_of (migration_block currentVersion) _) as [[]|err|msg] eqn:Hmig.
  - eapply wp_mono; [by eapply Upgrade_app_paths|].
    intros out w3 rest _ _. apply list_elem_of_here.
  - apply list_elem_of_here.
  - apply list_elem_of_here.
Qed.

(** C6: with the marker in the previous version, [Upgrade] makes no call
    of the migration or of the legacy cleanup.  Without it, in every
    world that lets the new version be resolved (the setting splits, the
    template lister answers the template, its external id parses), the
    calls of [Upgrade] are the fetch of the template, then those of
    [migrateLegacyClusterAlert], [migrateLegacyProjectAlert] and
    [removeLegacyAlerting], run in this order as long as none of them
    returns an error, before anything else.  Each of the three makes a
    first call of its own, so that in such a world
    [migrateLegacyClusterAlert] is run if and only if the marker is
    absent. *)
Theorem Upgrade_migration_gate currentVersion w :
  (strings_Contains currentVersion "system-library-rancher-monitoring" = true →
   Forall (λ ev, is_migration_call ev.1 = false) (events_of (Upgrade currentVersion) w))
  ∧ (strings_Contains currentVersion "system-library-rancher-monitoring" = false →
     ∀ cat eid nv,
       resolvable w cat eid nv →
       ∃ t w1 rest,
         extends w w1 [t] ∧ stores w1 = stores w
         ∧ events_of (Upgrade currentVersion) w = t :: migration_events w1 ++ rest
         ∧ Forall (λ ev, is_migration_call ev.1 = false) (t :: rest))
  ∧ (∀ w1,
       (∃ r rest, events_of migrateLegacyClusterAlert w1
                  = (OldClusterAlerts_List, r) :: rest)
       ∧ (∃ r rest, events_of migrateLegacyProjectAlert w1
                    = (OldProjectAlerts_List, r) :: rest)
       ∧ (∃ r, events_of removeLegacyAlerting w1
               = [(Namespaces_Delete "cattle-alerting", r)]))
  ∧ (∀ cat eid nv,
       resolvable w cat eid nv →
       (∃ r, (OldClusterAlerts_List, r) ∈ events_of (Upgrade currentVersion) w)
       ↔ strings_Contains currentVersion "system-library-rancher-monitoring" = false).
Proof.
  assert (∀ w1,
       (∃ r rest, events_of migrateLegacyClusterAlert w1
                  = (OldClusterAlerts_List, r) :: rest)
       ∧ (∃ r rest, events_of migrateLegacyProjectAlert w1
                    = (OldProjectAlerts_List, r) :: rest)
       ∧ (∃ r, events_of removeLegacyAlerting w1
               = [(Namespaces_Delete "cattle-alerting", r)])) as Hfirst.
  { intros w1. split; [|split].
    - by destruct (wp_elim _ _ _ (migrateLegacyClusterAlert_calls w1)) as (_ & _ & ?).
    - by destruct (wp_elim _ _ _ (migrateLegacyProjectAlert_calls w1)) as (_ & _ & ?).
    - by destruct (wp_elim _ _ _ (removeLegacyAlerting_calls w1)) as (_ & ?). }
  assert (strings_Contains currentVersion "system-library-rancher-monitoring" = false →
     ∀ cat eid nv,
       resolvable w cat eid nv →
       ∃ t w1 rest,
         extends w w1 [t] ∧ stores w1 = stores w
         ∧ events_of (Upgrade currentVersion) w = t :: migration_events w1 ++ rest
         ∧ Forall (λ ev, is_migration_call ev.1 = false) (t :: rest)) as Hrun.
  { intros Hc cat eid nv Hable.
    pose proof (Upgrade_resolves currentVersion w cat eid nv Hable) as Hres.
    clear Hable.
    upgrade_paths currentVersion w out evs; use_resolved Hres.
    all: rewrite migration_block_events by done.
    all: eexists _, _, _; split; [eassumption|]; split; [done|].
    1: split; [by rewrite app_nil_r | by repeat constructor].
    all: split; [done|]; by repeat constructor. }
  assert (strings_Contains currentVersion "system-library-rancher-monitoring" = true →
   Forall (λ ev, is_migration_call ev.1 = false) (events_of (Upgrade currentVersion) w))
    as Hskip.
  { intros Hc.
    upgrade_paths currentVersion w out evs;
      rewrite ?(migration_block_skipped _ _ Hc); by repeat constructor. }
  split; [done|]. split; [done|]. split; [done|].
  intros cat eid nv Hable. split.
  - intros [r Hev].
    destruct (strings_Contains currentVersion _) eqn:Hc; [|done].
    specialize (Hskip eq_refl). rewrite Forall_forall in Hskip.
    by apply Hskip in Hev.
  - intros Hc. destruct (Hrun Hc _ _ _ Hable) as (t & w1 & rest & _ & _ & -> & _).
    destruct (Hfirst w1) as ((r & rest' & Hl) & _). exists r.
    unfold migration_events. rewrite Hl. right. left.
Qed.

(** * The log of a run

    Every function of the deployer keeps the log: what it does to the
    stores is what its trace says. *)

Lemma replay_app evs1 evs2 s : replay (evs1 ++ evs2) s = replay evs2 (replay evs1 s).
Proof. apply foldl_app. Qed.

Lemma valid_app r f n s evs1 evs2 :
  valid r f n s (evs1 ++ evs2)
  ↔ valid r f n s evs1 ∧ valid r f (n + length evs1) (replay evs1 s) evs2.
Proof.
  revert n s. induction evs1 as [|ev evs1 IH]; intros n s; simpl.
  - rewrite Nat.add_0_r. split; [by intros ? | by intros [_ ?]].
  - rewrite IH, <- Nat.add_succ_comm. unfold replay. simpl.
    split; [by intros (? & ? & ?) | by intros ((? & ?) & ?)].
Qed.

Lemma effect_Fail c err s : effect (c, Fail err) s = s.
Proof. by destruct c. Qed.

(** An answer of the store changes the stores as [effect] says. *)
Lemma answer_effect r s c res :
  res = (answer r s c).1 → (answer r s c).2 = effect (c, res) s.
Proof.
  intros ->. destruct s.
  destruct c; simpl; unfold store_create, store_update; simpl;
    repeat case_match; simplify_eq/=; done.
Qed.

Lemma replay_one ev s : replay [ev] s = effect ev s.
Proof. done. Qed.

Lemma tracks_api {A} c inj (op : ReadOnly → Stores → Result A * Stores) :
  (∀ r s, (result_map inj (op r s).1, (op r s).2) = answer r s c) →
  tracks (api c inj op).
Proof.
  intros H w. pose proof (H (ro w) (stores w)) as Ha. apply wp_api.
  - intros err Hf. cbn [valid fst snd]. rewrite Hf, replay_one, effect_Fail. done.
  - intros Hf. cbn [valid fst snd stores]. rewrite Hf, replay_one.
    rewrite <- (answer_effect (ro w)) by (by rewrite <- Ha). by rewrite <- Ha.
Qed.

Lemma tracks_ret {A} (a : A) : tracks (mret a).
Proof. intros w. by apply wp_ret. Qed.

Lemma tracks_fail {A} err : tracks (@fail A err).
Proof. intros w. by apply wp_fail. Qed.

Lemma tracks_panic {A} msg : tracks (@panic A msg).
Proof. intros w. by apply wp_panic. Qed.

Lemma tracks_bind {A B} (m : Go A) (k : A → Go B) :
  tracks m → (∀ a, tracks (k a)) → tracks (m ≫= k).
Proof.
  intros Hm Hk w. apply wp_bind. eapply wp_mono; [apply Hm|].
  intros out w1 evs1 E1 [V1 S1]. destruct out as [a|err|msg]; [|done..].
  eapply wp_mono; [apply Hk|]. intros _ w2 evs2 E2 [V2 S2].
  rewrite (ext_ro _ _ _ E1), (ext_faults _ _ _ E1), (ext_trace _ _ _ E1),
    length_app, S1 in V2.
  split; [apply valid_app; by split | by rewrite replay_app, <- S1].
Qed.

Lemma tracks_forEach {A} (xs : list A) (body : A → Go unit) :
  (∀ x, tracks (body x)) → tracks (forEach xs body).
Proof.
  intros H. induction xs as [|x xs IH]; simpl.
  - apply tracks_ret.
  - apply tracks_bind; [apply H | by intros _].
Qed.

Lemma tracks_range_map {V} (m : gmap string (list V)) body :
  (∀ k vs, tracks (body k vs)) → tracks (range_map m body).
Proof. intros H w. apply wp_range_map. apply tracks_forEach. intros k. apply H. Qed.

Lemma tracks_settings : tracks settings_SystemMonitoringCatalogID_Get.
Proof. intros w. by apply wp_settings. Qed.

Ltac tracks_step :=
  lazymatch goal with
  | |- tracks (mbind _ _) => apply tracks_bind; [|intros ?]
  | |- tracks (mret _) => apply tracks_ret
  | |- tracks (fail _) => apply tracks_fail
  | |- tracks (panic _) => apply tracks_panic
  | |- tracks (forEach _ _) => apply tracks_forEach; intros ?
  | |- tracks (range_map _ _) => apply tracks_range_map; intros ? ?
  | |- tracks (api _ _ _) => apply tracks_api; intros ? ?; simpl; first [done | by case_match]
  | |- tracks settings_SystemMonitoringCatalogID_Get => apply tracks_settings
  | |- tracks (if ?b then _ else _) => destruct b
  | |- tracks (match ?x with _ => _ end) => destruct x
  | |- tracks _ => progress wp_client
  end.

Lemma migrateLegacyClusterAlert_tracks : tracks migrateLegacyClusterAlert.
Proof. unfold migrateLegacyClusterAlert. repeat tracks_step. Qed.

Lemma migrateLegacyProjectAlert_tracks : tracks migrateLegacyProjectAlert.
Proof. unfold migrateLegacyProjectAlert. repeat tracks_step. Qed.

Lemma removeLegacyAlerting_tracks : tracks removeLegacyAlerting.
Proof. unfold removeLegacyAlerting. repeat tracks_step. Qed.

Lemma Version_tracks : tracks Version.
Proof. unfold Version. repeat tracks_step. Qed.

Lemma Upgrade_tracks currentVersion : tracks (Upgrade currentVersion).
Proof.
  unfold Upgrade.
  repeat first [ apply migrateLegacyClusterAlert_tracks
               | apply migrateLegacyProjectAlert_tracks
               | apply removeLegacyAlerting_tracks
               | tracks_step ].
Qed.

Lemma tracks_elim {A} (m : Go A) w :
  tracks m →
  valid (ro w) (faults w) (length (trace w)) (stores w) (events_of m w)
  ∧ stores (m w).2 = replay (events_of m w) (stores w).
Proof. intros H. apply (wp_elim _ _ _ (H w)). Qed.

(** ** What the replay of a trace keeps *)

Lemma replay_cons ev evs s : replay (ev :: evs) s = replay evs (effect ev s).
Proof. done. Qed.

Lemma replay_inv (R : Stores → Stores → Prop) (P : Event → Prop) evs s :
  (∀ s, R s s) → (∀ s1 s2 s3, R s1 s2 → R s2 s3 → R s1 s3) →
  (∀ ev s, P ev → R s (effect ev s)) →
  Forall P evs → R s (replay evs s).
Proof.
  intros Hrefl Htrans Hstep. revert s.
  induction evs as [|ev evs IH]; intros s HP; [apply Hrefl|].
  apply Forall_cons in HP as [H1 H2]. rewrite replay_cons.
  eapply Htrans; [by apply Hstep | by apply IH].
Qed.

(** The calls of the migration and of the cleanup leave the applications
    alone; all other calls leave the rules, the groups and the namespaces
    alone. *)
Lemma replay_migration_apps evs s :
  Forall (λ ev, is_migration_call ev.1 = true) evs → apps (replay evs s) = apps s.
Proof.
  apply (replay_inv (λ s s', apps s' = apps s)); [done | congruence |].
  by intros [[] []] s'.
Qed.

Lemma replay_other_alerting evs s :
  Forall (λ ev, is_migration_call ev.1 = false) evs → same_alerting s (replay evs s).
Proof.
  apply (replay_inv same_alerting).
  - done.
  - intros s1 s2 s3 (? & ? & ? & ? & ?) (? & ? & ? & ? & ?).
    repeat split; congruence.
  - by intros [[] []] s'.
Qed.

Lemma replay_migration_block_apps currentVersion w s :
  apps (replay (events_of (migration_block currentVersion) w) s) = apps s.
Proof.
  apply replay_migration_apps, Forall_forall. intros ev. apply migration_block_event.
Qed.

(** The stores after [Upgrade] are the replay of its calls. *)
Lemma Upgrade_replay currentVersion w :
  stores (Upgrade currentVersion w).2
  = replay (events_of (Upgrade currentVersion) w) (stores w).
Proof. apply tracks_elim, Upgrade_tracks. Qed.

(** X1: [Upgrade] returns a version only when it resolved one, and then
    it returns that version; when the setting cannot be split, the
    template cannot be fetched or its external id cannot be parsed,
    [Upgrade] returns an error after at most the fetch of the template and
    leaves every store as it was. *)
Theorem Upgrade_resolution currentVersion w :
  (∀ v, outcome_of (Upgrade currentVersion) w = Return v →
        ∃ cat eid, resolved w (events_of (Upgrade currentVersion) w) cat eid v)
  ∧ ((∀ cat eid nv, ¬ resolved w (events_of (Upgrade currentVersion) w) cat eid nv) →
     (∃ err, outcome_of (Upgrade currentVersion) w = Error err)
     ∧ (events_of (Upgrade currentVersion) w = []
        ∨ ∃ namespace name r,
            events_of (Upgrade currentVersion) w = [(TemplateLister_Get namespace name, r)])
     ∧ stores (Upgrade currentVersion w).2 = stores w).
Proof.
  pose proof (Upgrade_replay currentVersion w) as HS. split.
  - intros v Hv.
    upgrade_paths currentVersion w out evs; try discriminate Hv.
    all: injection Hv as ->; eexists _, _, _, _, _, _, _, _;
      (split; [eassumption|]); (split; [ev_in|]); split; [reflexivity|eassumption].
  - intros Hno.
    upgrade_paths currentVersion w out evs.
    1-3: split; [by eexists|]; split; [eauto | by rewrite HS].
    all: exfalso; eapply Hno; eexists _, _, _, _, _, _;
      (split; [eassumption|]); (split; [ev_in|]); split; [reflexivity|eassumption].
Qed.

(** X2: the deployed application is looked up in the first system
    project of the list only, under the fixed name of the alert manager
    application; a failed listing, an empty list or a nil first entry end
    [Upgrade] with an error right there, before any application is read. *)
Theorem Upgrade_system_project currentVersion w :
  (∀ err,
      (ProjectLister_List, Fail err) ∈ events_of (Upgrade currentVersion) w →
      outcome_of (Upgrade currentVersion) w
      = Error (Errorf ("list system project failed, " +:+ err_msg err))
      ∧ last (events_of (Upgrade currentVersion) w) = Some (ProjectLister_List, Fail err))
  ∧ (∀ ps,
      (ProjectLister_List, Ok (VProjects ps)) ∈ events_of (Upgrade currentVersion) w →
      match ps with
      | Some sp :: _ =>
          ∃ r, (Apps_GetNamespaced (proj_Name sp) ClusterAlertManagerInfo.1, r)
                 ∈ events_of (Upgrade currentVersion) w
      | _ =>
          outcome_of (Upgrade currentVersion) w = Error (Errorf "get system project failed")
          ∧ last (events_of (Upgrade currentVersion) w)
            = Some (ProjectLister_List, Ok (VProjects ps))
      end)
  ∧ (∀ namespace name r,
      (Apps_GetNamespaced namespace name, r) ∈ events_of (Upgrade currentVersion) w →
      name = ClusterAlertManagerInfo.1
      ∧ ∃ sp ps,
          (ProjectLister_List, Ok (VProjects (Some sp :: ps)))
            ∈ events_of (Upgrade currentVersion) w
          ∧ namespace = proj_Name sp).
Proof.
  split; [|split].
  - intros err Hev. upgrade_paths currentVersion w out evs; ev_cases Hev.
    split; [done|]. by rewrite last_cons, last_app.
  - intros ps Hev. upgrade_paths currentVersion w out evs; ev_cases Hev.
    2-11: eexists; ev_in.
    match goal with
    | Hh : head ?ps = None ∨ _ |- _ =>
        destruct ps as [|[sp|] ps']; simpl in Hh; [| by destruct Hh |]
    end.
    all: split; [done|]; by rewrite last_cons, last_app.
  - intros namespace name r Hev. upgrade_paths currentVersion w out evs; ev_cases Hev.
    all: split; [done|]; eexists _, _; split; [ev_in | done].
Qed.

Lemma replay_nil s : replay [] s = s.
Proof. done. Qed.

(** The stores along a path of [Upgrade]. *)
Ltac replay_path HS :=
  rewrite HS; rewrite ?replay_cons, ?replay_app, ?replay_cons, ?replay_nil;
  cbn [effect apps with_apps clusterAlertRules clusterAlertGroups projectAlertRules
       projectAlertGroups namespaces];
  rewrite ?replay_migration_block_apps.

(** X3: a successful update of the application is the last call of
    [Upgrade], which then returns the resolved version; the application
    written is the fetched one with the new external id and the answer
    operator.enabled set to false, its metadata and its other answers as
    fetched, and no other application is touched. *)
Theorem Upgrade_update_effect currentVersion w o stored :
  (Apps_Update o, Ok stored) ∈ events_of (Upgrade currentVersion) w →
  ∃ cat eid nv namespace name app answers,
    resolved w (events_of (Upgrade currentVersion) w) cat eid nv
    ∧ outcome_of (Upgrade currentVersion) w = Return nv
    ∧ last (events_of (Upgrade currentVersion) w) = Some (Apps_Update o, Ok stored)
    ∧ (Apps_GetNamespaced namespace name, Ok (VApp app))
        ∈ events_of (Upgrade currentVersion) w
    ∧ app_Answers app = Some answers
    ∧ o = mkApp (app_Meta app) eid (Some (<["operator.enabled" := "false"]> answers))
    ∧ apps (stores (Upgrade currentVersion w).2)
      = <[key_of (app_Meta app) := o]> (apps (stores w)).
Proof.
  pose proof (Upgrade_replay currentVersion w) as HS. intros Hev.
  upgrade_paths currentVersion w out evs; ev_cases Hev.
  match goal with
  | Hn : newApp _ ?app = Some _ |- _ =>
      unfold newApp in Hn; destruct (app_Answers app) as [answers|] eqn:Ha;
      [injection Hn as <-|discriminate Hn]
  end.
  eexists _, _, _, _, _, _, _.
  split.
  { eexists _, _, _, _, _, _. split; [eassumption|]. split; [ev_in|].
    split; [reflexivity|eassumption]. }
  split; [done|]. split; [by rewrite last_cons, last_app|].
  split; [ev_in|]. split; [exact Ha|]. split; [done|].
  replay_path HS. done.
Qed.

(** X4: when [Upgrade] does not return a version (it returns an error or
    panics), no update of an application went through and the applications
    are as they were. *)
Theorem Upgrade_error_keeps_apps currentVersion w :
  (∀ v, outcome_of (Upgrade currentVersion) w ≠ Return v) →
  (∀ o stored, (Apps_Update o, Ok stored) ∉ events_of (Upgrade currentVersion) w)
  ∧ apps (stores (Upgrade currentVersion w).2) = apps (stores w).
Proof.
  pose proof (Upgrade_replay currentVersion w) as HS. intros Herr.
  upgrade_paths currentVersion w out evs;
    try (by exfalso; eapply Herr).
  all: split; [intros o stored Hev; by ev_cases Hev|].
  all: by replay_path HS.
Qed.

(** X5: with the marker in the previous version, [Upgrade] leaves the
    rules, the groups and the namespaces exactly as they were, whatever it
    returns. *)
Theorem Upgrade_marker_keeps_alerting currentVersion w :
  strings_Contains currentVersion "system-library-rancher-monitoring" = true →
  same_alerting (stores w) (stores (Upgrade currentVersion w).2).
Proof.
  pose proof (Upgrade_replay currentVersion w) as HS. intros Hc.
  upgrade_paths currentVersion w out evs;
    rewrite ?(migration_block_skipped _ _ Hc) in HS; rewrite HS.
  all: unfold same_alerting, replay; simpl; by destruct (stores w).
Qed.

(** ** What is never lost *)

Lemma valid_inv (R : Stores → Stores → Prop) (P : Event → Prop) r f n evs s :
  (∀ s, R s s) → (∀ s1 s2 s3, R s1 s2 → R s2 s3 → R s1 s3) →
  (∀ ev s, P ev → genuine_ok r s ev → R s (effect ev s)) →
  Forall P evs → valid r f n s evs → R s (replay evs s).
Proof.
  intros Hrefl Htrans Hstep. revert n s.
  induction evs as [|ev evs IH]; intros n s HP HV; [apply Hrefl|].
  apply Forall_cons in HP as [H1 H2]. destruct HV as [HV1 HV2]. rewrite replay_cons.
  eapply Htrans; [|by eapply IH]. apply Hstep; [done|].
  intros v Hv. destruct (f n ev.1); congruence.
Qed.

Lemma nothing_lost_refl s : nothing_lost s s.
Proof.
  unfold nothing_lost. repeat split; try done. by apply subseteq_difference_l.
Qed.

Lemma nothing_lost_trans s1 s2 s3 :
  nothing_lost s1 s2 → nothing_lost s2 s3 → nothing_lost s1 s3.
Proof.
  intros (A1 & B1 & C1 & D1 & E1 & F1 & G1) (A2 & B2 & C2 & D2 & E2 & F2 & G2).
  repeat split.
  - intros k g Hk. by apply A2, A1.
  - intros k g Hk. by apply B2, B1.
  - intros k Hk. by apply C2, C1.
  - intros k Hk. by apply D2, D1.
  - intros k Hk. by apply E2, E1.
  - by etrans.
  - intros x Hx. apply G2. apply elem_of_difference in Hx as [Hx Hne].
    apply elem_of_difference. split; [|done]. apply G1. by apply elem_of_difference.
Qed.

Lemma nothing_lost_step r s ev :
  (∀ n, ev.1 = Namespaces_Delete n → n = "cattle-alerting") →
  genuine_ok r s ev → nothing_lost s (effect ev s).
Proof.
  intros Hns Hg. destruct ev as [c [v|err]]; [|rewrite effect_Fail; apply nothing_lost_refl].
  specialize (Hg v eq_refl). simpl in Hg.
  destruct c; simpl; try apply nothing_lost_refl; unfold nothing_lost; simpl.
  all: try rewrite (Hns name eq_refl).
  all: repeat split; try done; try (by apply subseteq_difference_l).
  all: try (intros k' Hk; apply lookup_insert_is_Some'; by right).
  all: intros k' g Hk; simpl in Hg; unfold store_create in Hg;
    match type of Hg with
    | context [?m !! ?k] => destruct (m !! k) eqn:Hl; [discriminate Hg|]
    end;
    rewrite lookup_insert_ne; [done | congruence].
Qed.

Lemma migration_block_delete currentVersion w n r :
  (Namespaces_Delete n, r) ∈ events_of (migration_block currentVersion) w →
  n = "cattle-alerting".
Proof.
  destruct (strings_Contains currentVersion "system-library-rancher-monitoring") eqn:Hc.
  { rewrite (migration_block_skipped _ _ Hc). intros H. by apply elem_of_nil in H. }
  rewrite (migration_block_events _ _ Hc). unfold migration_events.
  intros H. apply elem_of_app in H as [H|H].
  { by apply migrateLegacyClusterAlert_call in H. }
  destruct (outcome_of migrateLegacyClusterAlert w); try by apply elem_of_nil in H.
  apply elem_of_app in H as [H|H].
  { by apply migrateLegacyProjectAlert_call in H. }
  destruct (outcome_of migrateLegacyProjectAlert _); try by apply elem_of_nil in H.
  destruct (wp_elim _ _ _ (removeLegacyAlerting_calls (migrateLegacyProjectAlert
              (migrateLegacyClusterAlert w).2).2)) as [_ [r' Hr]].
  rewrite Hr in H. apply list_elem_of_singleton in H. congruence.
Qed.

(** X6: whatever fails, [Upgrade] loses nothing: an alert group that
    exists is left exactly as it is, no rule and no application is
    deleted, no namespace is added and none but cattle-alerting is
    removed. *)
Theorem Upgrade_nothing_lost currentVersion w :
  nothing_lost (stores w) (stores (Upgrade currentVersion w).2).
Proof.
  destruct (tracks_elim _ w (Upgrade_tracks currentVersion)) as [HV HS].
  rewrite HS.
  eapply (valid_inv nothing_lost
            (λ ev, ∀ n, ev.1 = Namespaces_Delete n → n = "cattle-alerting"));
    [apply nothing_lost_refl | apply nothing_lost_trans
    | intros ev s; apply nothing_lost_step | | exact HV].
  apply Forall_forall. intros [c r] Hin n Hc. simpl in Hc. subst c.
  clear HV HS.
  upgrade_paths currentVersion w out evs.
  all: repeat lazymatch type of Hin with
    | _ ∈ [] => by apply elem_of_nil in Hin
    | _ ∈ _ :: _ => apply elem_of_cons in Hin as [Hin|Hin]; [discriminate Hin|]
    | _ ∈ _ ++ _ => apply elem_of_app in Hin as [Hin|Hin]
    | _ ∈ events_of (migration_block _) _ => by eapply migration_block_delete
    end.
Qed.

(** ** Stopping at the first failure *)

Lemma string_app_assoc (a b c : string) : (a +:+ b) +:+ c = a +:+ b +:+ c.
Proof.
  induction a as [|x a IH]; [done|].
  change (String x ((a +:+ b) +:+ c) = String x (a +:+ b +:+ c)). by rewrite IH.
Qed.

Lemma mentions_refl msg : mentions msg msg.
Proof. by exists "". Qed.

Lemma mentions_app a msg cause : mentions msg cause → mentions (a +:+ msg) cause.
Proof. intros [p ->]. exists (a +:+ p). by rewrite string_app_assoc. Qed.

(** The failures among the events of a leaf are tolerated. *)
Ltac tolerated_events H1 :=
  let c := fresh "c" in
  let e := fresh "e" in
  let Hin := fresh "Hin" in
  intros c e Hin;
  repeat lazymatch type of Hin with
    | _ ∈ _ ++ _ => apply elem_of_app in Hin as [Hin|Hin]
    end;
  try (by (eapply H1;
           first [ exact Hin
                 | apply elem_of_app; left; exact Hin
                 | apply elem_of_app; right; exact Hin ]));
  apply list_elem_of_singleton in Hin;
  first [discriminate Hin | injection Hin as -> ->; simpl; done].

Ltac failfast_leaf H1 :=
  lazymatch goal with
  | |- failed_fast (Error _) _ =>
      eexists _, _, _; split; [reflexivity|];
      split; [simpl; done|];
      split; [tolerated_events H1|];
      split; [done|];
      unfold Errorf, Wrap; cbn [err_msg];
      repeat apply mentions_app; apply mentions_refl
  | |- _ => tolerated_events H1
  end.

Lemma migrateLegacyClusterAlert_failfast w :
  wp migrateLegacyClusterAlert w (λ out _ evs, failed_fast out evs).
Proof.
  unfold migrateLegacyClusterAlert. apply wp_bind. apply wp_api.
  { intros err _. cbv beta iota. apply wp_fail. exists [], OldClusterAlerts_List, err.
    repeat split; try done.
    - intros c' err' H. by apply elem_of_nil in H.
    - apply mentions_app, mentions_refl. }
  intros _. cbv beta iota. cbn [fst snd result_map].
  apply wp_forEach_inv
    with (I := λ _ evs, ∀ c err, (c, Fail err) ∈ evs → tolerated c err = true).
  - intros c err H. by apply elem_of_nil in H.
  - intros v w1 evs1 Hv E1 H1.
    repeat wp_step; rewrite ?negb_true_iff, ?negb_false_iff in *.
    all: cbn [result_map]; rewrite ?app_nil_r, ?app_assoc.
    all: failfast_leaf H1.
  - intros w' evs _ H c err Hin. apply elem_of_cons in Hin as [Hin|Hin]; [done|].
    by apply H.
Qed.

Lemma migrateLegacyProjectAlert_failfast w :
  wp migrateLegacyProjectAlert w (λ out _ evs, failed_fast out evs).
Proof.
  unfold migrateLegacyProjectAlert. apply wp_bind. apply wp_api.
  { intros err _. cbv beta iota. apply wp_fail. exists [], OldProjectAlerts_List, err.
    repeat split; try done.
    - intros c' err' H. by apply elem_of_nil in H.
    - apply mentions_app, mentions_refl. }
  intros _. cbv beta iota. cbn [fst snd result_map].
  apply wp_range_map.
  apply wp_forEach_inv
    with (I := λ _ evs, ∀ c err, (c, Fail err) ∈ evs → tolerated c err = true).
  - intros c err H. by apply elem_of_nil in H.
  - intros projectID w1 evs1 _ E1 H1.
    apply wp_forEach_inv
      with (I := λ _ evs, ∀ c err, (c, Fail err) ∈ evs1 ++ evs → tolerated c err = true).
    + by rewrite app_nil_r.
    + intros v w2 evs2 Hv E2 H2.
      repeat wp_step; rewrite ?negb_true_iff, ?negb_false_iff in *.
      all: cbn [result_map]; rewrite ?app_nil_r, ?app_assoc.
      all: failfast_leaf H2.
    + done.
  - intros w' evs _ H c err Hin. apply elem_of_cons in Hin as [Hin|Hin]; [done|].
    by apply H.
Qed.

Lemma removeLegacyAlerting_failfast w :
  wp removeLegacyAlerting w (λ out _ evs, failed_fast out evs).
Proof.
  unfold removeLegacyAlerting.
  repeat wp_step; rewrite ?negb_true_iff, ?negb_false_iff in *.
  all: cbn [result_map]; rewrite ?app_nil_r.
  - intros c e Hin. apply list_elem_of_singleton in Hin. discriminate Hin.
  - exists [], (Namespaces_Delete "cattle-alerting"), err.
    repeat split; try done.
    + intros c' err' Hin. by apply elem_of_nil in Hin.
    + unfold Wrap. cbn [err_msg]. repeat apply mentions_app. apply mentions_refl.
  - intros c e Hin. apply list_elem_of_singleton in Hin. by injection Hin as -> ->.
Qed.

(** X7: [migrateLegacyClusterAlert], [migrateLegacyProjectAlert] and
    [removeLegacyAlerting] stop at the first failure they do not recover
    from: when one returns an error, its last call is the failure, no call
    before it failed otherwise than in a tolerated way, and the error
    carries the message of the failure and no status of the store; when
    one returns no error, all the failures among its calls are tolerated
    ones.  None of them panics. *)
Theorem migration_fails_fast w :
  failed_fast (outcome_of migrateLegacyClusterAlert w) (events_of migrateLegacyClusterAlert w)
  ∧ failed_fast (outcome_of migrateLegacyProjectAlert w)
                (events_of migrateLegacyProjectAlert w)
  ∧ failed_fast (outcome_of removeLegacyAlerting w) (events_of removeLegacyAlerting w).
Proof.
  split; [|split].
  - apply (wp_elim _ _ _ (migrateLegacyClusterAlert_failfast w)).
  - apply (wp_elim _ _ _ (migrateLegacyProjectAlert_failfast w)).
  - apply (wp_elim _ _ _ (removeLegacyAlerting_failfast w)).
Qed.

(** ** The cleanup comes last *)

(** X8: [Upgrade] deletes a namespace only if it is cattle-alerting, the
    previous version does not carry the marker, and the migration before
    it went through: no call before the deletion failed otherwise than in
    a tolerated way, and the group of every legacy cluster alert and of
    every legacy project alert of the cluster was created or was there
    already. *)
Theorem cleanup_after_migration currentVersion w n r :
  (Namespaces_Delete n, r) ∈ events_of (Upgrade currentVersion) w →
  n = "cattle-alerting"
  ∧ strings_Contains currentVersion "system-library-rancher-monitoring" = false
  ∧ (∃ pre post,
        events_of (Upgrade currentVersion) w = pre ++ (Namespaces_Delete n, r) :: post
        ∧ ∀ c err, (c, Fail err) ∈ pre → tolerated c err = true)
  ∧ (∀ v, v ∈ oldClusterAlerts (ro w) →
          ∃ r', (ClusterAlertGroups_Create (clusterLegacyGroup v), r')
                  ∈ events_of (Upgrade currentVersion) w
                ∧ accepted r')
  ∧ (range_ok w →
     ∀ v, in_cluster (oldProjectAlerts (ro w)) v →
          ∃ r', (ProjectAlertGroups_Create (projectLegacyGroup (pa_ProjectName v) v), r')
                  ∈ events_of (Upgrade currentVersion) w
                ∧ accepted r').
Proof.
  intros Hin.
  destruct (strings_Contains currentVersion "system-library-rancher-monitoring") eqn:Hc.
  { exfalso. upgrade_paths currentVersion w out evs;
      rewrite ?(migration_block_skipped _ _ Hc) in Hin; by ev_cases Hin. }
  assert (∃ tns id template w1 rest,
             extends w w1 [(TemplateLister_Get tns id, Ok (VTemplate template))]
             ∧ events_of (Upgrade currentVersion) w
               = (TemplateLister_Get tns id, Ok (VTemplate template))
                   :: migration_events w1 ++ rest
             ∧ (Namespaces_Delete n, r) ∈ migration_events w1) as Hrun.
  { upgrade_paths currentVersion w out evs; try by ev_cases Hin.
    all: rewrite (migration_block_events _ _ Hc) in Hin |- *.
    all: apply elem_of_cons in Hin as [Hin|Hin]; [discriminate Hin|].
    1: eexists _, _, _, _, []; rewrite app_nil_r;
      split; [eassumption|]; split; [reflexivity | assumption].
    all: apply elem_of_app in Hin as [Hin|Hin]; [|by ev_cases Hin].
    all: eexists _, _, _, _, _; split; [eassumption|]; split; [reflexivity | assumption]. }
  destruct Hrun as (tns & id & template & w1 & rest & E1 & -> & Hmig).
  unfold migration_events in *.
  pose proof (wp_elim _ _ _ (migrateLegacyClusterAlert_failfast w1)) as HfA.
  pose proof (wp_elim _ _ _ (migrateLegacyClusterAlert_outcome w1)) as HoA.
  destruct (wp_extends _ _ _ (migrateLegacyClusterAlert_calls w1)) as [evsA EA].
  set (A := events_of migrateLegacyClusterAlert w1) in *.
  set (w2 := (migrateLegacyClusterAlert w1).2) in *.
  apply elem_of_app in Hmig as [Hmig|Hmig].
  { by apply migrateLegacyClusterAlert_call in Hmig. }
  destruct (outcome_of migrateLegacyClusterAlert w1) as [[]|?|?];
    try by apply elem_of_nil in Hmig.
  pose proof (wp_elim _ _ _ (migrateLegacyProjectAlert_failfast w2)) as HfB.
  pose proof (wp_elim _ _ _ (migrateLegacyProjectAlert_outcome w2)) as HoB.
  set (B := events_of migrateLegacyProjectAlert w2) in *.
  apply elem_of_app in Hmig as [Hmig|Hmig].
  { by apply migrateLegacyProjectAlert_call in Hmig. }
  destruct (outcome_of migrateLegacyProjectAlert w2) as [[]|?|?];
    try by apply elem_of_nil in Hmig.
  destruct (wp_elim _ _ _ (removeLegacyAlerting_calls (migrateLegacyProjectAlert w2).2))
    as [_ [r' Hr]].
  rewrite Hr in Hmig |- *. apply list_elem_of_singleton in Hmig. injection Hmig as -> ->.
  simpl in HfA, HoA, HfB, HoB.
  assert (ro w2 = ro w) as Hro.
  { by rewrite (ext_ro _ _ _ EA), (ext_ro _ _ _ E1). }
  assert (ro w1 = ro w) as Hro1 by (by rewrite (ext_ro _ _ _ E1)).
  split; [done|]. split; [done|]. split; [|split].
  - exists ((TemplateLister_Get tns id, Ok (VTemplate template)) :: A ++ B), rest.
    split; [simpl; by rewrite <- !app_assoc|].
    intros c err H. apply elem_of_cons in H as [H|H]; [discriminate H|].
    apply elem_of_app in H as [H|H]; [by apply HfA | by apply HfB].
  - intros v Hv. rewrite <- Hro1 in Hv. destruct (HoA v Hv) as [ra Ha].
    exists ra. split.
    + apply list_elem_of_further, elem_of_app. left. apply elem_of_app. by left.
    + destruct ra as [|err]; [done|]. by apply HfA in Ha.
  - intros Hrange v Hv. rewrite <- Hro in Hv.
    assert (range_ok w2) as Hrange2.
    { intros k ks. rewrite (ext_range _ _ _ EA), (ext_range _ _ _ E1). apply Hrange. }
    destruct (HoB Hrange2 v Hv) as [rb Hb].
    exists rb. split.
    + apply list_elem_of_further, elem_of_app. left. apply elem_of_app. right.
      apply elem_of_app. by left.
    + destruct rb as [|err]; [done|]. by apply HfB in Hb.
Qed.

(** ** [Version] *)

(** X9: [Version] calls nothing and changes nothing; it answers the
    version parsed from the catalog setting, or an error that carries the
    message of the parser.  Where the setting is the external id that
    [Upgrade] resolved, [Version] answers, after [Upgrade], the version
    that [Upgrade] returned. *)
Theorem Version_reads_setting w :
  (Version w).2 = w
  ∧ outcome_of Version w
    = match ParseExternalID (SystemMonitoringCatalogID (ro w)) with
      | Ok (v, _) => Return v
      | Fail err =>
          Error (Errorf ("get system monitor catalog version failed, " +:+ err_msg err))
      end
  ∧ (∀ currentVersion cat eid nv v,
       resolved w (events_of (Upgrade currentVersion) w) cat eid nv →
       SystemMonitoringCatalogID (ro w) = eid →
       outcome_of (Upgrade currentVersion) w = Return v →
       outcome_of Version (Upgrade currentVersion w).2 = Return v).
Proof.
  assert (∀ w0, outcome_of Version w0
    = match ParseExternalID (SystemMonitoringCatalogID (ro w0)) with
      | Ok (v, _) => Return v
      | Fail err =>
          Error (Errorf ("get system monitor catalog version failed, " +:+ err_msg err))
      end) as HVer.
  { intros w0. unfold outcome_of, Version, settings_SystemMonitoringCatalogID_Get,
      mbind, Go_bind. simpl.
    by destruct (ParseExternalID (SystemMonitoringCatalogID (ro w0))) as [[v x]|err]. }
  split; [|split; [apply HVer|]].
  - unfold Version, settings_SystemMonitoringCatalogID_Get, mbind, Go_bind. simpl.
    by destruct (ParseExternalID (SystemMonitoringCatalogID (ro w))) as [[v x]|err].
  - intros currentVersion cat eid nv v Hres Hset Hv.
    destruct (wp_extends _ _ _ (Upgrade_paths currentVersion w)) as [evs0 E].
    rewrite HVer, (ext_ro _ _ _ E), Hset.
    destruct Hres as (tns & kind & tn & extra & template & extra' & Hs & Ht & -> & Hp).
    rewrite Hp. f_equal.
    upgrade_paths currentVersion w out evs; try discriminate Hv.
    all: injection Hv as <-.
    all: match goal with
         | Hx : SplitExternalID _ = _ |- _ => rewrite Hx in Hs; injection Hs as <- <- <- <- <-
         end.
    all: ev_cases Ht.
    all: match goal with
         | Hx : ParseExternalID _ = _ |- _ => rewrite Hx in Hp; by injection Hp as <- <-
         end.
Qed.

(** ** The desired state of the application *)

(** The desired state computed from an application is a fixed point
    of the computation; it has the metadata of the application, the new
    external id, the answer operator.enabled false and every other answer
    of the application.  There is a desired state exactly when the answers
    are not nil. *)
Theorem newApp_settles eid app :
  (newApp eid app = None ↔ app_Answers app = None)
  ∧ (∀ app', newApp eid app = Some app' →
       newApp eid app' = Some app'
       ∧ app_Meta app' = app_Meta app
       ∧ app_ExternalID app' = eid
       ∧ ∃ answers answers',
           app_Answers app = Some answers
           ∧ app_Answers app' = Some answers'
           ∧ answers' !! "operator.enabled" = Some "false"
           ∧ ∀ k, k ≠ "operator.enabled" → answers' !! k = answers !! k).
Proof.
  unfold newApp. destruct app as [meta ext [answers|]]; simpl.
  2:{ split; [done|]. by intros app'. }
  split; [done|]. intros app' [= <-]. simpl.
  split; [by rewrite insert_insert_eq|]. split; [done|]. split; [done|].
  eexists _, _. split; [done|]. split; [done|].
  split; [apply lookup_insert_eq|]. intros k Hk. by apply lookup_insert_ne.
Qed.

(** ** Grouping the legacy project alerts *)

Lemma oldProjectAlertGroup_Some items projectID vs :
  oldProjectAlertGroup items !! projectID = Some vs → vs ≠ [].
Proof.
  unfold oldProjectAlertGroup. revert projectID vs.
  induction items as [|x xs IH] using rev_ind; intros projectID vs; [done|].
  rewrite foldl_app. simpl.
  destruct (ObjectInCluster (clusterName l) x); [|apply IH].
  destruct (decide (pa_ProjectName x = projectID)) as [<-|Hne].
  - rewrite lookup_insert_eq. intros [= <-]. by destruct (default [] _).
  - rewrite lookup_insert_ne by done. apply IH.
Qed.

(** X10: grouping the legacy project alerts by project id loses and
    invents nothing: the group of a project id holds, in listing order,
    exactly the listed alerts of this cluster with that project id, no
    group is empty, and an alert is in the group of its project id exactly
    when it belongs to this cluster. *)
Theorem oldProjectAlertGroup_partition items :
  (∀ projectID vs,
      oldProjectAlertGroup items !! projectID = Some vs →
      vs ≠ []
      ∧ vs = filter (λ v, ObjectInCluster (clusterName l) v = true
                          ∧ pa_ProjectName v = projectID) items)
  ∧ (∀ v, v ∈ items →
          (∃ vs, oldProjectAlertGroup items !! pa_ProjectName v = Some vs ∧ v ∈ vs)
          ↔ ObjectInCluster (clusterName l) v = true)
  ∧ (∀ projectID vs v,
        oldProjectAlertGroup items !! projectID = Some vs → v ∈ vs →
        v ∈ items ∧ pa_ProjectName v = projectID).
Proof.
  split; [|split].
  - intros projectID vs H. split; [by eapply oldProjectAlertGroup_Some|].
    rewrite <- oldProjectAlertGroup_lookup. by rewrite H.
  - intros v Hv. split.
    + intros (vs & Hl & Hin).
      pose proof (oldProjectAlertGroup_lookup items (pa_ProjectName v)) as Hf.
      rewrite Hl in Hf. simpl in Hf. rewrite Hf in Hin.
      by apply list_elem_of_filter in Hin as [[? ?] ?].
    + intros Hc.
      destruct (oldProjectAlertGroup_in_cluster items v (conj Hv Hc)) as [_ Hin].
      destruct (oldProjectAlertGroup items !! pa_ProjectName v) as [vs|] eqn:Hl.
      * by exists vs.
      * by apply elem_of_nil in Hin.
  - intros projectID vs v Hl Hin.
    pose proof (oldProjectAlertGroup_lookup items projectID) as Hf.
    rewrite Hl in Hf. simpl in Hf. rewrite Hf in Hin.
    by apply list_elem_of_filter in Hin as [[? ?] ?].
Qed.

(** ** Nothing to migrate *)

Lemma oldProjectAlertGroup_empty items :
  (∀ v, ¬ in_cluster items v) → oldProjectAlertGroup items = ∅.
Proof.
  intros Hnone. apply map_empty. intros projectID.
  destruct (oldProjectAlertGroup items !! projectID) as [vs|] eqn:Hl; [|done].
  exfalso. pose proof (oldProjectAlertGroup_Some _ _ _ Hl) as Hne.
  destruct vs as [|v vs]; [done|].
  apply (Hnone v).
  apply (oldProjectAlertGroup_elem items projectID). rewrite Hl. simpl. left.
Qed.

(** X11: with no legacy cluster alert, [migrateLegacyClusterAlert] only
    lists, changes nothing and returns no error unless the listing fails;
    with no legacy project alert in this cluster, so does
    [migrateLegacyProjectAlert]. *)
Theorem migration_of_nothing w :
  (oldClusterAlerts (ro w) = [] →
   stores (migrateLegacyClusterAlert w).2 = stores w
   ∧ ∃ r, events_of migrateLegacyClusterAlert w = [(OldClusterAlerts_List, r)]
          ∧ (is_Ok r = true → outcome_of migrateLegacyClusterAlert w = Return tt))
  ∧ ((∀ v, ¬ in_cluster (oldProjectAlerts (ro w)) v) → range_ok w →
     stores (migrateLegacyProjectAlert w).2 = stores w
     ∧ ∃ r, events_of migrateLegacyProjectAlert w = [(OldProjectAlerts_List, r)]
            ∧ (is_Ok r = true → outcome_of migrateLegacyProjectAlert w = Return tt)).
Proof.
  split.
  - intros Hnil.
    enough (wp migrateLegacyClusterAlert w
              (λ out w' evs,
                 stores w' = stores w
                 ∧ ∃ r, evs = [(OldClusterAlerts_List, r)]
                        ∧ (is_Ok r = true → out = Return tt))) as H
      by apply (wp_elim _ _ _ H).
    unfold migrateLegacyClusterAlert. apply wp_bind. apply wp_api.
    { intros err _. cbv beta iota. apply wp_fail. split; [done|]. by eexists. }
    intros _. cbv beta iota. cbn [fst snd]. rewrite Hnil. apply wp_ret.
    split; [done|]. by eexists.
  - intros Hnone Hrange.
    enough (wp migrateLegacyProjectAlert w
              (λ out w' evs,
                 stores w' = stores w
                 ∧ ∃ r, evs = [(OldProjectAlerts_List, r)]
                        ∧ (is_Ok r = true → out = Return tt))) as H
      by apply (wp_elim _ _ _ H).
    unfold migrateLegacyProjectAlert. apply wp_bind. apply wp_api.
    { intros err _. cbv beta iota. apply wp_fail. split; [done|]. by eexists. }
    intros _. cbv beta iota. cbn [fst snd]. apply wp_range_map.
    rewrite (oldProjectAlertGroup_empty _ Hnone), map_to_list_empty. simpl.
    cbn [rangeOrder trace].
    assert (rangeOrder w (length (trace w ++
              [(OldProjectAlerts_List, Ok (VProjectAlerts (oldProjectAlerts (ro w))))])) []
            = []) as ->.
    { apply Permutation_nil_r, Hrange. }
    apply wp_ret. split; [done|]. by eexists.
Qed.

(** ** The cleanup *)

Lemma removeLegacyAlerting_run w :
  no_faults w →
  wp removeLegacyAlerting w
     (λ out w' _,
        out = Return tt
        ∧ stores w'
          = with_namespaces (namespaces (stores w) ∖ {["cattle-alerting"]}) (stores w)).
Proof.
  intros Hnf. unfold removeLegacyAlerting. wp_call_ok Hnf.
  destruct (decide ("cattle-alerting" ∈ namespaces (stores w))) as [Hin|Hin];
    cbn [fst snd]; apply wp_ret; cbn [stores]; [done|].
  split; [done|].
  replace (namespaces (stores w) ∖ {["cattle-alerting"]}) with (namespaces (stores w)).
  - by destruct (stores w).
  - symmetry. apply difference_disjoint_L. by apply disjoint_singleton_r.
Qed.

(** X12: when no call fails for a reason of the environment,
    [removeLegacyAlerting] returns no error whether the namespace
    cattle-alerting exists or not; afterwards the namespace is gone, every
    other namespace and every other store is as before, and a second run
    returns no error and changes nothing. *)
Theorem removeLegacyAlerting_idempotent w :
  no_faults w →
  let w1 := (removeLegacyAlerting w).2 in
  outcome_of removeLegacyAlerting w = Return tt
  ∧ stores w1 = with_namespaces (namespaces (stores w) ∖ {["cattle-alerting"]}) (stores w)
  ∧ outcome_of removeLegacyAlerting w1 = Return tt
  ∧ stores (removeLegacyAlerting w1).2 = stores w1.
Proof.
  intros Hnf w1.
  destruct (wp_extends _ _ _ (removeLegacyAlerting_run w Hnf)) as [evs E].
  destruct (wp_elim _ _ _ (removeLegacyAlerting_run w Hnf)) as [Hout HS].
  fold w1 in HS, E.
  assert (no_faults w1) as Hnf1 by (by eapply no_faults_extends).
  destruct (wp_elim _ _ _ (removeLegacyAlerting_run w1 Hnf1)) as [Hout1 HS1].
  split; [done|]. split; [done|]. split; [done|].
  rewrite HS1, HS. cbn [namespaces with_namespaces].
  replace (namespaces (stores w) ∖ {["cattle-alerting"]} ∖ {["cattle-alerting"]})
    with (namespaces (stores w) ∖ {["cattle-alerting"]}); [by destruct (stores w)|].
  symmetry. apply difference_disjoint_L. apply disjoint_singleton_r.
  rewrite elem_of_difference, elem_of_singleton. by intros [_ ?].
Qed.

(** ** Running [Upgrade] again *)

Lemma migration_block_ok currentVersion w :
  no_faults w → rules_ok (stores w) →
  outcome_of (migration_block currentVersion) w = Return tt.
Proof.
  intros Hnf Hok.
  enough (wp (migration_block currentVersion) w (λ out _ _, out = Return tt)) as H
    by apply (wp_elim _ _ _ H).
  unfold migration_block.
  destruct (strings_Contains currentVersion _); simpl; [by apply wp_ret|].
  apply wp_bind. eapply wp_mono; [by apply migrateLegacyClusterAlert_run|].
  intros out1 w1 evs1 E1 (-> & _ & Hok1 & _).
  assert (no_faults w1) as Hnf1 by (by eapply no_faults_extends).
  apply wp_bind. eapply wp_mono; [by apply migrateLegacyProjectAlert_run|].
  intros out2 w2 evs2 E2 (-> & _ & Hok2 & _).
  assert (no_faults w2) as Hnf2 by (by eapply no_faults_extends).
  eapply wp_mono; [by apply removeLegacyAlerting_run|].
  by intros out3 w3 evs3 E3 (-> & _).
Qed.

Lemma valid_ext r f g n s evs :
  (∀ n c, f n c = g n c) → valid r f n s evs → valid r g n s evs.
Proof.
  intros Hfg. revert n s. induction evs as [|ev evs IH]; intros n s; [done|].
  simpl. rewrite Hfg. intros [? ?]. split; [done | by apply IH].
Qed.

(** When nothing fails for a reason of the environment, the calls of
    [Upgrade] are answered by the store. *)
Lemma Upgrade_genuine currentVersion w :
  no_faults w →
  valid (ro w) (λ _ _, None) (length (trace w)) (stores w)
        (events_of (Upgrade currentVersion) w).
Proof.
  intros Hnf. destruct (tracks_elim _ w (Upgrade_tracks currentVersion)) as [HV _].
  eapply valid_ext; [|exact HV]. intros n c. apply Hnf.
Qed.

Lemma newApp_idem eid app app' :
  newApp eid app = Some app' →
  newApp eid app' = Some app' ∧ app_Meta app' = app_Meta app.
Proof.
  unfold newApp. destruct (app_Answers app) as [answers|]; [|done].
  intros [= <-]. simpl. by rewrite insert_insert_eq.
Qed.

Ltac replay_apps :=
  rewrite ?replay_cons, ?replay_app, ?replay_cons, ?replay_nil;
  cbn [effect apps with_apps];
  rewrite ?replay_migration_block_apps.

Lemma Upgrade_settles currentVersion w v :
  no_faults w → apps_ok (stores w) →
  outcome_of (Upgrade currentVersion) w = Return v →
  settled (ro w) (stores (Upgrade currentVersion w).2) v.
Proof.
  intros Hnf Haok Hv.
  pose proof (Upgrade_genuine currentVersion w Hnf) as HV.
  pose proof (Upgrade_replay currentVersion w) as HS.
  revert HV. generalize (length (trace w)). intros n HV.
  upgrade_paths currentVersion w out evs; try discriminate Hv.
  all: injection Hv as ->.
  all: rewrite HS; clear HS.
  all: cbn [valid fst snd] in HV; destruct HV as [Ht HV].
  all: apply valid_app in HV as [HVm HVr].
  all: cbn [valid fst snd answer effect] in HVr, Ht.
  all: unfold store_get in Ht, HVr.
  all: match type of Ht with
       | context [@lookup ?K ?A ?M ?I ?k ?m] =>
           destruct (@lookup K A M I k m) as [t0|] eqn:Htpl
       end; simpl in Ht; [|discriminate Ht]; injection Ht as <-.
  all: destruct HVr as [Hps [Hget HVr]]; injection Hps as Hps.
  all: rewrite replay_migration_block_apps in Hget.
  all: match type of Hget with
       | context [@lookup ?K ?A ?M ?I ?k ?m] =>
           destruct (@lookup K A M I k m) as [a|] eqn:Hl
       end; simpl in Hget; try discriminate Hget.
  all: try injection Hget as <-.
  all: exists tns, cat, kind, tn, extra, template, extra', sp, ps.
  all: split; [done|]; split; [done|]; split; [done|]; split; [done|].
  all: replay_apps.
  - by left.
  - right. by exists app.
  - match goal with
    | Hn : newApp _ app = Some _ |- _ => destruct (newApp_idem _ _ _ Hn) as [Hid Hmeta]
    end.
    right. exists app'. split; [|done].
    rewrite Hmeta, (Haok _ _ Hl). apply lookup_insert_eq.
Qed.

Lemma store_get_Some {A} (k : Key) (m : gmap Key A) o :
  m !! k = Some o → store_get k m = Ok o.
Proof. unfold store_get. by intros ->. Qed.

Lemma store_get_None {A} (k : Key) (m : gmap Key A) :
  m !! k = None → store_get k m = Fail (NewNotFound k.2).
Proof. unfold store_get. by intros ->. Qed.

Lemma Upgrade_settled currentVersion w v :
  no_faults w → rules_ok (stores w) → settled (ro w) (stores w) v →
  outcome_of (Upgrade currentVersion) w = Return v
  ∧ (∀ c r, (c, r) ∈ events_of (Upgrade currentVersion) w →
            (∀ o, c ≠ Apps_Update o)
            ∧ (∀ name, c ≠ ClusterLister_Get name)
            ∧ (∀ name, c ≠ CatalogLister_Get name))
  ∧ apps (stores (Upgrade currentVersion w).2) = apps (stores w).
Proof.
  intros Hnf Hok (tns & cat & kind & tn & extra & template & extra' & sp & ps
                  & Hs & Htpl & Hp & Hsp & Hset).
  pose proof (Upgrade_genuine currentVersion w Hnf) as HV.
  pose proof (Upgrade_replay currentVersion w) as HS.
  revert HV. generalize (length (trace w)). intros n HV.
  upgrade_paths currentVersion w out evs.
  all: rewrite HS; clear HS.
  all: match goal with
       | Hx : SplitExternalID _ = _ |- _ =>
           rewrite Hx in Hs; first [discriminate Hs | injection Hs as <- <- <- <- <-]
       end.
  all: cbn [valid fst snd answer effect] in HV; destruct HV as [Ht HV].
  all: rewrite (store_get_Some _ _ _ Htpl) in Ht; simpl in Ht;
    first [discriminate Ht | injection Ht as <-].
  all: match goal with
       | Hx : ParseExternalID _ = _ |- _ =>
           rewrite Hx in Hp; first [discriminate Hp | injection Hp as <- <-]
       end.
  all: match goal with
       | He : extends _ ?w1 _, Hst : stores ?w1 = stores _ |- _ =>
           assert (outcome_of (migration_block currentVersion) w1 = Return tt) as Hmig
             by (apply migration_block_ok; [by eapply no_faults_extends | by rewrite Hst])
       end.
  1: congruence.
  all: apply valid_app in HV as [_ HVr].
  all: cbn [valid fst snd answer effect] in HVr.
  all: destruct HVr as [Hl HVr]; first [discriminate Hl | injection Hl as Hl].
  all: rewrite Hsp in Hl; subst.
  1: match goal with Hh : head _ = None ∨ _ |- _ => by destruct Hh end.
  all: injection Hl as -> ->.
  all: destruct HVr as [Hget _]; rewrite replay_migration_block_apps in Hget.
  all: destruct Hset as [Hnone|(app0 & Hsome & Hnew)];
    [ rewrite (store_get_None _ _ Hnone) in Hget
    | rewrite (store_get_Some _ _ _ Hsome) in Hget ];
    simpl in Hget; first [discriminate Hget | injection Hget as ->].
  all: try (match goal with
            | Hx : IsNotFound (NewNotFound _) = false |- _ => discriminate Hx
            end).
  all: try (exfalso; eapply newApp_nil_answers; eassumption).
  all: try (match goal with
            | Hx : newApp ?e ?a = Some ?a', Hy : ?a' ≠ ?a |- _ =>
                rewrite Hnew in Hx; injection Hx as <-; done
            end).
  all: split; [done|]; split; [|by replay_apps].
  all: intros c r Hin; repeat split; intros x ->; by ev_cases Hin.
Qed.

Lemma effect_rules_ok ev s : rules_ok s → rules_ok (effect ev s).
Proof.
  intros [Hc Hp]. destruct ev as [[] []]; simpl; try done.
  all: split; simpl; try done.
  all: intros k o' Hl; apply lookup_insert_Some in Hl as [[<- <-]|[_ Hl]]; eauto.
Qed.

Lemma Upgrade_rules_ok currentVersion w :
  rules_ok (stores w) → rules_ok (stores (Upgrade currentVersion w).2).
Proof.
  rewrite Upgrade_replay.
  apply (replay_inv (λ s s', rules_ok s → rules_ok s') (λ _, True)).
  - done.
  - intros s1 s2 s3 H12 H23 H1. by apply H23, H12.
  - intros ev s _. apply effect_rules_ok.
  - by apply Forall_forall.
Qed.

(** X13: once [Upgrade] has returned a version, with no call failing for
    a reason of the environment and every rule and application stored
    under its own namespace and name, running it again, with whatever
    previous version, returns the same version without reading the
    cluster or the catalog and without updating the application: the
    applications are left as the first run left them. *)
Theorem Upgrade_converges currentVersion currentVersion' w v :
  no_faults w → rules_ok (stores w) → apps_ok (stores w) →
  outcome_of (Upgrade currentVersion) w = Return v →
  let w' := (Upgrade currentVersion w).2 in
  outcome_of (Upgrade currentVersion') w' = Return v
  ∧ (∀ c r, (c, r) ∈ events_of (Upgrade currentVersion') w' →
            (∀ o, c ≠ Apps_Update o)
            ∧ (∀ name, c ≠ ClusterLister_Get name)
            ∧ (∀ name, c ≠ CatalogLister_Get name))
  ∧ apps (stores (Upgrade currentVersion' w').2) = apps (stores w').
Proof.
  intros Hnf Hok Haok Hv w'.
  destruct (wp_extends _ _ _ (Upgrade_paths currentVersion w)) as [evs E].
  fold w' in E.
  apply Upgrade_settled.
  - by eapply no_faults_extends.
  - by apply Upgrade_rules_ok.
  - rewrite (ext_ro _ _ _ E). by apply Upgrade_settles.
Qed.

(** ** What the migration leaves in the stores *)

Lemma string_app_inj (p a b : string) : p +:+ a = p +:+ b → a = b.
Proof.
  induction p as [|x p IH]; [done|]. intros H. apply IH.
  change (String x (p +:+ a) = String x (p +:+ b)) in H. by injection H.
Qed.

(** Upserts of one and the same record amount to one upsert. *)
Lemma upsert_key_const {A} (merge : A → A → A) o (news : list A) new :
  (∀ a b c, merge (merge a b) c = merge a c) → (∀ a, merge a a = a) →
  news ≠ [] → (∀ x, x ∈ news → x = new) →
  upsert_key merge o news
  = Some (match o with Some old => merge old new | None => new end).
Proof.
  intros Hmm Hms. induction news as [|x pre IH] using rev_ind; [done|].
  intros _ Hall. unfold upsert_key in *. rewrite foldl_app. simpl.
  rewrite (Hall x) by (apply elem_of_app; right; left).
  destruct pre as [|y pre]; [done|].
  rewrite IH; [|done|].
  - destruct o; by rewrite ?Hmm, ?Hms.
  - intros z Hz. apply Hall. apply elem_of_app. by left.
Qed.

Lemma upsert_key_nil {A} (merge : A → A → A) o : upsert_key merge o [] = o.
Proof. done. Qed.

(** The upserts of a list of records under the key [k], when the records
    with that key are the image of one element. *)
Lemma upsert_all_single {A B} (merge : B → B → B) (key : A → Key) (val : A → B)
    (items : list A) (m : gmap Key B) (v : A) :
  (∀ a b c, merge (merge a b) c = merge a c) → (∀ a, merge a a = a) →
  v ∈ items → (∀ v', v' ∈ items → key v' = key v → val v' = val v) →
  upsert_all merge ((λ x, (key x, val x)) <$> items) m !! key v
  = Some (match m !! key v with Some old => merge old (val v) | None => val v end).
Proof.
  intros Hmm Hms Hv Huniq. rewrite upsert_all_lookup, filter_fmap, <- list_fmap_compose.
  apply upsert_key_const; try done.
  - intros Hnil. apply fmap_nil_inv in Hnil.
    assert (v ∈ filter (λ x, (key x, val x).1 = key v) items) as Hin
        by (by apply list_elem_of_filter).
    rewrite Hnil in Hin. by apply elem_of_nil in Hin.
  - intros x Hx. apply list_elem_of_fmap in Hx as (v' & -> & Hv').
    apply list_elem_of_filter in Hv' as [Hk Hv']. simpl in *. by apply Huniq.
Qed.

Lemma upsert_all_other {A B} (merge : B → B → B) (key : A → Key) (val : A → B)
    (items : list A) (m : gmap Key B) k :
  (∀ v', v' ∈ items → key v' ≠ k) →
  upsert_all merge ((λ x, (key x, val x)) <$> items) m !! k = m !! k.
Proof.
  intros Hne. rewrite upsert_all_lookup, filter_fmap, <- list_fmap_compose.
  rewrite (filter_none (λ x, (key x, val x).1 = k)); [done|].
  intros x Hx. simpl. by apply Hne.
Qed.

Lemma keep_keep {A} (a b c : A) : keep (keep a b) c = keep a c.
Proof. done. Qed.

Lemma keep_same {A} (a : A) : keep a a = a.
Proof. done. Qed.

(** X14: when no call fails for a reason of the environment, every rule
    is stored under its own namespace and name and the legacy cluster
    alert [v] is the only one of its name, the migration
    leaves under migrate-<name> a rule with the specification translated
    from [v], and with the metadata of the rule that was there if there
    was one; it leaves under migrate-group-<name> the group that was
    there, or else the group built from [v].  Rules and groups under
    other names than those derived from the legacy alerts, and all other
    stores, are untouched. *)
Theorem migrateLegacyClusterAlert_result w :
  no_faults w → rules_ok (stores w) →
  let s := stores w in
  let s' := stores (migrateLegacyClusterAlert w).2 in
  (∀ v, v ∈ oldClusterAlerts (ro w) →
        (∀ v', v' ∈ oldClusterAlerts (ro w) → Name (ca_Meta v') = Name (ca_Meta v) →
               v' = v) →
        clusterAlertRules s' !! (clusterName l, "migrate-" +:+ Name (ca_Meta v))
        = Some (match clusterAlertRules s
                        !! (clusterName l, "migrate-" +:+ Name (ca_Meta v)) with
                | Some old => mkClusterRule (cr_Meta old) (cr_Spec (newClusterRule v))
                | None => newClusterRule v
                end)
        ∧ clusterAlertGroups s' !! (clusterName l, "migrate-group-" +:+ Name (ca_Meta v))
          = Some (match clusterAlertGroups s
                          !! (clusterName l, "migrate-group-" +:+ Name (ca_Meta v)) with
                  | Some g => g
                  | None => clusterLegacyGroup v
                  end))
  ∧ (∀ k, (∀ v, v ∈ oldClusterAlerts (ro w) →
                k ≠ (clusterName l, "migrate-" +:+ Name (ca_Meta v))) →
          clusterAlertRules s' !! k = clusterAlertRules s !! k)
  ∧ (∀ k, (∀ v, v ∈ oldClusterAlerts (ro w) →
                k ≠ (clusterName l, "migrate-group-" +:+ Name (ca_Meta v))) →
          clusterAlertGroups s' !! k = clusterAlertGroups s !! k)
  ∧ projectAlertRules s' = projectAlertRules s
  ∧ projectAlertGroups s' = projectAlertGroups s
  ∧ namespaces s' = namespaces s
  ∧ apps s' = apps s.
Proof.
  intros Hnf Hok s s'.
  destruct (wp_elim _ _ _ (migrateLegacyClusterAlert_run w Hnf Hok)) as (_ & HS & _).
  unfold s'. rewrite HS. unfold cluster_migrated. simpl. fold s.
  assert (∀ v, key_of (cr_Meta (newClusterRule v))
               = (clusterName l, "migrate-" +:+ Name (ca_Meta v))) as Hk
      by (intros v; by rewrite newClusterRule_Meta).
  split; [|split; [|split]]; [| | |done].
  - intros v Hv Huniq. split.
    + rewrite <- Hk. unfold cluster_rule_upserts.
      rewrite (upsert_all_single merge_cluster_rule
                 (λ v, key_of (cr_Meta (newClusterRule v))) newClusterRule
                 _ _ v merge_cluster_rule_merge merge_cluster_rule_same Hv); [done|].
      intros v' Hv' Heq. rewrite !Hk in Heq. injection Heq as Heq.
      apply string_app_inj in Heq. by rewrite (Huniq v' Hv' Heq).
    + unfold cluster_group_upserts.
      rewrite (upsert_all_single keep
                 (λ v, key_of (cg_Meta (clusterLegacyGroup v))) clusterLegacyGroup
                 _ _ v keep_keep keep_same Hv); [done|].
      intros v' Hv' Heq. injection Heq as Heq.
      apply string_app_inj in Heq. by rewrite (Huniq v' Hv' Heq).
  - intros k Hne. unfold cluster_rule_upserts.
    apply (upsert_all_other merge_cluster_rule
             (λ v, key_of (cr_Meta (newClusterRule v))) newClusterRule).
    intros v' Hv'. rewrite Hk. intros <-. by eapply Hne.
  - intros k Hne. unfold cluster_group_upserts.
    apply (upsert_all_other keep
             (λ v, key_of (cg_Meta (clusterLegacyGroup v))) clusterLegacyGroup).
    intros v' Hv' <-. by eapply Hne.
Qed.

Lemma upsert_all_ext {A} (merge : A → A → A) (xs ys : list (Key * A)) (m : gmap Key A) :
  (∀ k, filter (λ x, x.1 = k) ys = filter (λ x, x.1 = k) xs) →
  upsert_all merge ys m = upsert_all merge xs m.
Proof. intros H. apply map_eq. intros k. by rewrite !upsert_all_lookup, H. Qed.

(** X15: the order in which the runtime visits the projects does not
    matter: when no call fails for a reason of the environment, every
    rule is stored under its own namespace and name, and two legacy
    alerts of this cluster with the same project name have the same
    project id, two runs of [migrateLegacyProjectAlert] from the same
    stores and the same legacy alerts, under whatever two visiting
    orders, return no error and leave the same stores. *)
Theorem project_migration_order_independent w1 w2 :
  ro w1 = ro w2 → stores w1 = stores w2 →
  no_faults w1 → no_faults w2 → range_ok w1 → range_ok w2 →
  rules_ok (stores w1) →
  project_names_distinct (oldProjectAlerts (ro w1)) →
  outcome_of migrateLegacyProjectAlert w1 = Return tt
  ∧ outcome_of migrateLegacyProjectAlert w2 = Return tt
  ∧ stores (migrateLegacyProjectAlert w1).2 = stores (migrateLegacyProjectAlert w2).2.
Proof.
  intros Hro Hst Hnf1 Hnf2 Hr1 Hr2 Hok Hdist.
  assert (rules_ok (stores w2)) as Hok2 by (by rewrite <- Hst).
  destruct (wp_elim _ _ _ (migrateLegacyProjectAlert_run w1 Hnf1 Hok))
    as (Ho1 & [n1 HS1] & _).
  destruct (wp_elim _ _ _ (migrateLegacyProjectAlert_run w2 Hnf2 Hok2))
    as (Ho2 & [n2 HS2] & _).
  split; [done|]. split; [done|].
  rewrite HS1, HS2, <- Hro, <- Hst.
  set (items := oldProjectAlerts (ro w1)).
  set (keys := (map_to_list (oldProjectAlertGroup items)).*1).
  assert (rangeOrder w2 n2 keys ≡ₚ rangeOrder w1 n1 keys) as Hperm
      by (by rewrite (Hr1 _ _), (Hr2 _ _)).
  assert (NoDup (rangeOrder w2 n2 keys)) as Hnd.
  { rewrite (Hr2 _ _). apply NoDup_fst_map_to_list. }
  destruct (project_upserts_filter items _ _ Hperm Hnd Hdist) as [Hfr Hfg].
  unfold project_migrated.
  by rewrite (upsert_all_ext _ _ _ _ Hfr), (upsert_all_ext _ _ _ _ Hfg).
Qed.

(** X16: when no call fails for a reason of the environment, every rule
    is stored under its own namespace and name and the legacy project
    alert [v] of this cluster is the only one of its name in its
    project, the migration leaves under migrate-rule-<name>, in
    the namespace of the project, a rule with the specification
    translated from [v], and with the metadata of the rule that was there
    if there was one; it leaves under migrate-group-<name> the group that
    was there, or else the group built from [v].  The cluster rules and
    groups, the namespaces and the applications are untouched. *)
Theorem migrateLegacyProjectAlert_result w :
  no_faults w → range_ok w → rules_ok (stores w) →
  let s := stores w in
  let s' := stores (migrateLegacyProjectAlert w).2 in
  (∀ v, in_cluster (oldProjectAlerts (ro w)) v →
        (∀ v', in_cluster (oldProjectAlerts (ro w)) v' →
               (ref_Parse (pa_ProjectName v')).2 = (ref_Parse (pa_ProjectName v)).2 →
               Name (pa_Meta v') = Name (pa_Meta v) → v' = v) →
        let projectName := (ref_Parse (pa_ProjectName v)).2 in
        projectAlertRules s' !! (projectName, "migrate-rule-" +:+ Name (pa_Meta v))
        = Some (match projectAlertRules s
                        !! (projectName, "migrate-rule-" +:+ Name (pa_Meta v)) with
                | Some old =>
                    mkProjectRule (prl_Meta old)
                                  (prl_Spec (newProjectRule (pa_ProjectName v) v))
                | None => newProjectRule (pa_ProjectName v) v
                end)
        ∧ projectAlertGroups s' !! (projectName, "migrate-group-" +:+ Name (pa_Meta v))
          = Some (match projectAlertGroups s
                          !! (projectName, "migrate-group-" +:+ Name (pa_Meta v)) with
                  | Some g => g
                  | None => projectLegacyGroup (pa_ProjectName v) v
                  end))
  ∧ clusterAlertRules s' = clusterAlertRules s
  ∧ clusterAlertGroups s' = clusterAlertGroups s
  ∧ namespaces s' = namespaces s
  ∧ apps s' = apps s.
Proof.
  intros Hnf Hrange Hok s s'.
  destruct (wp_elim _ _ _ (migrateLegacyProjectAlert_run w Hnf Hok)) as (_ & [n HS] & _).
  unfold s'. rewrite HS. unfold project_migrated. simpl. fold s.
  split; [|done].
  intros v Hv Huniq. set (projectName := (ref_Parse (pa_ProjectName v)).2) in *.
  set (items := oldProjectAlerts (ro w)) in *.
  set (work := project_work items _).
  assert ((pa_ProjectName v, v) ∈ work) as Hw.
  { pose proof Hv as Hv0. apply oldProjectAlertGroup_in_cluster in Hv0 as [Hk Hin].
    unfold work, project_work. apply list_elem_of_bind. exists (pa_ProjectName v).
    split; [by apply list_elem_of_fmap_2 | by rewrite (Hrange _ _)]. }
  assert (∀ x, x ∈ work →
               (ref_Parse x.1).2 = projectName → Name (pa_Meta x.2) = Name (pa_Meta v) →
               x = (pa_ProjectName v, v)) as Hone.
  { intros [p v'] Hx Hp Hn. simpl in *.
    unfold work, project_work in Hx. apply list_elem_of_bind in Hx as (p' & Hx & _).
    apply list_elem_of_fmap in Hx as (v'' & [= -> ->] & Hx).
    apply oldProjectAlertGroup_elem in Hx as [Hc <-].
    by rewrite (Huniq v'' Hc Hp Hn). }
  assert (key_of (prl_Meta (newProjectRule (pa_ProjectName v) v))
          = (projectName, "migrate-rule-" +:+ Name (pa_Meta v))) as Hk
      by (by rewrite newProjectRule_Meta).
  split.
  - pose proof (upsert_all_single merge_project_rule
                  (λ x, key_of (prl_Meta (newProjectRule x.1 x.2)))
                  (λ x, newProjectRule x.1 x.2)
                  work (projectAlertRules s) (pa_ProjectName v, v)
                  merge_project_rule_merge merge_project_rule_same Hw) as Hr.
    cbn [fst snd] in Hr. rewrite Hk in Hr. apply Hr.
    intros x Hx Heq. rewrite newProjectRule_Meta in Heq.
    injection Heq as Hp Hn. apply string_app_inj in Hn.
    by rewrite (Hone x Hx Hp Hn).
  - pose proof (upsert_all_single keep
                  (λ x, key_of (pg_Meta (projectLegacyGroup x.1 x.2)))
                  (λ x, projectLegacyGroup x.1 x.2)
                  work (projectAlertGroups s) (pa_ProjectName v, v)
                  keep_keep keep_same Hw) as Hr.
    cbn [fst snd] in Hr. apply Hr.
    intros x Hx Heq. injection Heq as Hp Hn. apply string_app_inj in Hn.
    by rewrite (Hone x Hx Hp Hn).
Qed.

(** ** Read before write *)

(** A list that ends with [e], cut at one of its elements. *)
Lemma snoc_split {A} (X : list A) e pre x post :
  X ++ [e] = pre ++ x :: post →
  (post = [] ∧ x = e ∧ pre = X) ∨ ∃ post', post = post' ++ [e] ∧ X = pre ++ x :: post'.
Proof.
  destruct post as [|y post _] using rev_ind; intros H.
  - apply app_inj_tail in H as [-> ->]. by left.
  - right. exists post.
    change (X ++ [e] = pre ++ [x] ++ (post ++ [y])) in H.
    rewrite !app_assoc in H. apply app_inj_tail in H as [-> ->].
    split; [done|]. by rewrite <- app_assoc.
Qed.

Lemma single_split {A} (a x : A) pre post : [a] = pre ++ x :: post → a = x.
Proof.
  destruct pre as [|b pre]; simpl; intros H.
  - by injection H.
  - injection H as _ H. by destruct pre.
Qed.

(** The cut falls in the new events of an iteration, one by one, or in the
    events before it. *)
Ltac proto_cases Hin H1 H2 :=
  first
    [ exact (H1 _ _ _ _ Hin)
    | exact (H2 _ _ _ _ Hin)
    | let Heq := fresh "Heq" in
      let post' := fresh "post" in
      apply snoc_split in Hin as [(-> & Heq & ->) | (post' & -> & Hin)];
      [ first [ discriminate Heq
              | injection Heq as -> ->;
                first [ eexists _, _; split; [eassumption|]; split; [reflexivity|];
                        split; [rewrite ?newProjectRule_Meta; apply last_snoc
                               | assumption]
                      | eexists _, _; split; [eassumption|];
                        split; [rewrite ?newProjectRule_Meta; apply last_snoc
                               | reflexivity] ] ]
      | proto_cases Hin H1 H2 ] ].

Ltac proto_start :=
  split; intros pre post o r Hin; rewrite app_nil_r in Hin;
  apply single_split in Hin; discriminate Hin.

Lemma migrateLegacyClusterAlert_protocol w :
  wp migrateLegacyClusterAlert w
     (λ _ _ evs, cluster_protocol (oldClusterAlerts (ro w)) evs).
Proof.
  unfold migrateLegacyClusterAlert. apply wp_bind. apply wp_api.
  { intros err _. cbv beta iota. apply wp_fail. proto_start. }
  intros _. cbv beta iota. cbn [fst snd result_map].
  set (L := (OldClusterAlerts_List, Ok (VClusterAlerts (oldClusterAlerts (ro w))))).
  set (items := oldClusterAlerts (ro w)).
  apply wp_forEach_inv with (I := λ _ evs, cluster_protocol items ([L] ++ evs)).
  - proto_start.
  - intros v w1 evs1 Hv E1 [H1 H2].
    repeat wp_step; rewrite ?negb_true_iff, ?negb_false_iff in *.
    all: cbn [result_map]; rewrite ?app_nil_r, ?app_assoc.
    all: split; intros pre post o r Hin; proto_cases Hin H1 H2.
  - done.
Qed.

Lemma migrateLegacyProjectAlert_protocol w :
  wp migrateLegacyProjectAlert w
     (λ _ _ evs, project_protocol (oldProjectAlerts (ro w)) evs).
Proof.
  unfold migrateLegacyProjectAlert. apply wp_bind. apply wp_api.
  { intros err _. cbv beta iota. apply wp_fail. proto_start. }
  intros _. cbv beta iota. cbn [fst snd result_map].
  set (L := (OldProjectAlerts_List, Ok (VProjectAlerts (oldProjectAlerts (ro w))))).
  set (items := oldProjectAlerts (ro w)).
  apply wp_range_map.
  apply wp_forEach_inv with (I := λ _ evs, project_protocol items ([L] ++ evs)).
  - proto_start.
  - intros projectID w1 evs1 _ E1 H1.
    apply wp_forEach_inv
      with (I := λ _ evs, project_protocol items ([L] ++ (evs1 ++ evs))).
    + by rewrite app_nil_r.
    + intros v w2 evs2 Hv E2 [H2 H3].
      apply oldProjectAlertGroup_elem in Hv as [Hv <-].
      repeat wp_step; rewrite ?negb_true_iff, ?negb_false_iff in *.
      all: cbn [result_map]; rewrite ?app_nil_r, ?app_assoc in *.
      all: split; intros pre post o r Hin; proto_cases Hin H2 H3.
    + done.
  - done.
Qed.

(** X17: the migration reads before it writes: every creation of a rule
    among its calls directly follows a read of the name of the rule that
    was answered not-found, and every update of a rule directly follows a
    read of the derived name and updates the rule that was read, with its
    metadata kept and its specification replaced by the translation of
    the legacy alert. *)
Theorem migration_reads_before_writes w :
  cluster_protocol (oldClusterAlerts (ro w)) (events_of migrateLegacyClusterAlert w)
  ∧ project_protocol (oldProjectAlerts (ro w)) (events_of migrateLegacyProjectAlert w).
Proof.
  split.
  - apply (wp_elim _ _ _ (migrateLegacyClusterAlert_protocol w)).
  - apply (wp_elim _ _ _ (migrateLegacyProjectAlert_protocol w)).
Qed.

(** ** The cause of an error *)

Lemma failed_fast_app out evs1 evs2 :
  (∀ c err, (c, Fail err) ∈ evs1 → tolerated c err = true) →
  failed_fast out evs2 → failed_fast out (evs1 ++ evs2).
Proof.
  intros H1. destruct out as [a|e|msg]; simpl; [| |done].
  - intros H2 c err Hin. apply elem_of_app in Hin as [Hin|Hin]; [by apply H1 | by apply H2].
  - intros (pre & c & err & -> & Hc & Hpre & Hr & Hm).
    exists (evs1 ++ pre), c, err. rewrite app_assoc. repeat split; try done.
    intros c' err' Hin. apply elem_of_app in Hin as [Hin|Hin]; [by apply H1 | by apply Hpre].
Qed.

Lemma migration_block_failfast currentVersion w :
  wp (migration_block currentVersion) w (λ out _ evs, failed_fast out evs).
Proof.
  unfold migration_block.
  destruct (strings_Contains currentVersion _); simpl.
  { apply wp_ret. intros c err Hin. by apply elem_of_nil in Hin. }
  apply wp_bind. eapply wp_mono; [apply migrateLegacyClusterAlert_failfast|].
  intros [[]|e|msg] w1 evs1 _ H1; try done.
  apply wp_bind. eapply wp_mono; [apply migrateLegacyProjectAlert_failfast|].
  intros [[]|e|msg] w2 evs2 _ H2; try done.
  - eapply wp_mono; [apply removeLegacyAlerting_failfast|].
    intros out w3 evs3 _ H3. by repeat apply failed_fast_app.
  - by apply failed_fast_app.
Qed.

(** X18: every error that [Upgrade] returns is explained by its last
    call.  With no call made, the setting could not be split and the
    error is the one of the splitter; after a call that failed, the error
    carries the message of that failure; after the fetch of the template,
    its external id could not be parsed; after the listing of the system
    projects, the list has no usable first project; after the read of the
    cluster or of the catalog, that one is not ready.  In particular an
    error never follows a successful update of the application. *)
Theorem Upgrade_error_cause currentVersion w e :
  outcome_of (Upgrade currentVersion) w = Error e →
  match last (events_of (Upgrade currentVersion) w) with
  | None => SplitExternalID (SystemMonitoringCatalogID (ro w)) = Fail e
  | Some (c, Fail err) => mentions (err_msg e) (err_msg err) ∧ tolerated c err = false
  | Some (TemplateLister_Get _ _, Ok (VTemplate template)) =>
      ∃ cat tn, ParseExternalID (newExternalID cat tn template) = Fail e
  | Some (ProjectLister_List, Ok (VProjects ps)) =>
      (head ps = None ∨ head ps = Some None) ∧ e = Errorf "get system project failed"
  | Some (ClusterLister_Get _, Ok (VCluster cluster)) =>
      ClusterConditionReady cluster = false
      ∧ e = Errorf ("cluster " +:+ clusterName l +:+ " not ready")
  | Some (CatalogLister_Get name, Ok (VCatalog catalog)) =>
      CatalogConditionUpgraded catalog && CatalogConditionRefreshed catalog
        && CatalogConditionDiskCached catalog = false
      ∧ e = Errorf ("catalog " +:+ name +:+ " not ready")
  | _ => False
  end.
Proof.
  intros He.
  upgrade_paths currentVersion w out evs; try discriminate He.
  all: injection He as <-.
  4:{ match goal with
      | Hm : outcome_of (migration_block _) ?w1 = Error _ |- _ =>
          pose proof (wp_elim _ _ _ (migration_block_failfast currentVersion w1)) as Hf;
          rewrite Hm in Hf; destruct Hf as (pre & c & err' & -> & Hc & _ & _ & Hmen)
      end.
      rewrite last_cons, last_snoc. by destruct c. }
  all: rewrite ?last_cons, ?last_app; cbn [last].
  all: try (split; [unfold Errorf, Wrap; cbn [err_msg];
                    repeat apply mentions_app; apply mentions_refl | done]).
  all: try done.
  by eexists _, _.
Qed.

(** ** The number of calls *)

(** The groups hold, together, the legacy project alerts of the cluster. *)
Lemma oldProjectAlertGroup_all items :
  map_to_list (oldProjectAlertGroup items) ≫= snd
  ≡ₚ filter (λ v, ObjectInCluster (clusterName l) v = true) items.
Proof.
  unfold oldProjectAlertGroup.
  induction items as [|x xs IH] using rev_ind.
  { simpl. by rewrite map_to_list_empty. }
  rewrite foldl_app, filter_app. simpl.
  set (m := foldl _ ∅ xs) in *.
  destruct (ObjectInCluster (clusterName l) x) eqn:Hc.
  2:{ rewrite filter_cons_False by congruence. by rewrite filter_nil, app_nil_r. }
  rewrite filter_cons_True by done. rewrite filter_nil.
  destruct (m !! pa_ProjectName x) as [old|] eqn:Hl; simpl.
  - rewrite <- insert_delete_eq.
    rewrite map_to_list_insert by apply lookup_delete_eq.
    rewrite <- IH, <- (map_to_list_delete m _ _ Hl). simpl.
    rewrite <- !app_assoc. apply Permutation_app_head, Permutation_app_comm.
  - rewrite map_to_list_insert by done. simpl. rewrite IH.
    apply Permutation_cons_append.
Qed.

Lemma project_work_length items order :
  order ≡ₚ (map_to_list (oldProjectAlertGroup items)).*1 →
  length (project_work items order)
  = length (filter (λ v, ObjectInCluster (clusterName l) v = true) items).
Proof.
  intros Hperm. unfold project_work. rewrite Hperm, <- (oldProjectAlertGroup_all items).
  set (m := oldProjectAlertGroup items).
  assert (∀ kvs : list (string * list ProjectAlert),
            (∀ kv, kv ∈ kvs → m !! kv.1 = Some kv.2) →
            length (kvs.*1 ≫= λ p, (λ v, (p, v)) <$> default [] (m !! p))
            = length (kvs ≫= snd)) as Hlen.
  { induction kvs as [|[k vs] kvs IH]; intros Hall; [done|].
    rewrite fmap_cons, !bind_cons, !length_app, length_fmap. simpl.
    assert (m !! k = Some vs) as Hk by (apply (Hall (k, vs)); left).
    rewrite Hk. simpl. f_equal. apply IH.
    intros kv Hkv. apply Hall. by right. }
  apply Hlen. intros [k vs] Hkv. by apply elem_of_map_to_list in Hkv.
Qed.

Ltac budget_leaf :=
  rewrite ?length_app in *; cbn [length] in *;
  first [lia | split; [lia | done]].

Lemma migrateLegacyClusterAlert_budget w :
  wp migrateLegacyClusterAlert w
     (λ out _ evs,
        (length evs ≤ 1 + 3 * length (oldClusterAlerts (ro w)))%nat
        ∧ (out = Return tt →
           length evs = (1 + 3 * length (oldClusterAlerts (ro w)))%nat)).
Proof.
  unfold migrateLegacyClusterAlert. apply wp_bind. apply wp_api.
  { intros err _. cbv beta iota. apply wp_fail. simpl. split; [lia | done]. }
  intros _. cbv beta iota. cbn [fst snd result_map].
  apply wp_forEach with (I := λ pre _ evs, length evs = (3 * length pre)%nat).
  - done.
  - intros pre v post w1 evs1 Hitems E1 H1.
    assert (length (oldClusterAlerts (ro w)) = (length pre + S (length post))%nat) as Hlen
        by (by rewrite Hitems, length_app).
    repeat wp_step; budget_leaf.
  - intros w' evs _ H. simpl. split; [lia|]. intros _. lia.
Qed.

Lemma project_work_app items pre post :
  project_work items (pre ++ post) = project_work items pre ++ project_work items post.
Proof. apply bind_app. Qed.

Lemma project_work_cons items projectID post :
  project_work items (projectID :: post)
  = ((λ v, (projectID, v)) <$> default [] (oldProjectAlertGroup items !! projectID))
    ++ project_work items post.
Proof. done. Qed.

Lemma migrateLegacyProjectAlert_budget w :
  wp migrateLegacyProjectAlert w
     (λ out _ evs,
        ∃ n,
          let work := project_work (oldProjectAlerts (ro w))
                        (rangeOrder w n
                           (map_to_list (oldProjectAlertGroup (oldProjectAlerts (ro w)))).*1)
          in
          (length evs ≤ 1 + 3 * length work)%nat
          ∧ (out = Return tt → length evs = (1 + 3 * length work)%nat)).
Proof.
  unfold migrateLegacyProjectAlert. apply wp_bind. apply wp_api.
  { intros err _. cbv beta iota. apply wp_fail. exists 0. simpl. split; [lia | done]. }
  intros _. cbv beta iota. cbn [fst snd result_map].
  apply wp_range_map. cbn [trace rangeOrder].
  set (items := oldProjectAlerts (ro w)).
  set (order := rangeOrder w _ _).
  eapply (wp_mono _ _ (λ out _ evs,
                         (length evs ≤ 3 * length (project_work items order))%nat
                         ∧ (out = Return tt →
                            length evs = (3 * length (project_work items order))%nat))).
  2:{ intros out w' evs _ [Hle Heq].
      exists (length (trace w ++ [(OldProjectAlerts_List, Ok (VProjectAlerts items))])).
      fold items order. simpl. split; [lia|].
      intros Hout. rewrite (Heq Hout). lia. }
  apply wp_forEach
    with (I := λ pre _ evs, length evs = (3 * length (project_work items pre))%nat).
  - done.
  - intros pre projectID post w1 evs1 Horder E1 H1.
    set (group := default [] (oldProjectAlertGroup items !! projectID)).
    assert (length (project_work items order)
            = (length (project_work items pre) + length group
               + length (project_work items post))%nat) as Hlen.
    { rewrite Horder, project_work_app, project_work_cons, !length_app, length_fmap.
      fold group. lia. }
    apply wp_forEach
      with (I := λ pre' _ evs,
              length (evs1 ++ evs)
              = (3 * length (project_work items pre) + 3 * length pre')%nat).
    + rewrite app_nil_r. simpl. lia.
    + intros pre' v post' w2 evs2 Hgroup E2 H2.
      assert (length group = (length pre' + S (length post'))%nat) as Hlen'
          by (by rewrite Hgroup, length_app).
      repeat wp_step; budget_leaf.
    + intros w' evs _ H. rewrite project_work_snoc, !length_app, length_fmap.
      rewrite length_app in H. fold group. lia.
  - intros w' evs _ H. split; [lia | done].
Qed.

(** X19: the migration makes one listing call and at most three calls
    for each legacy alert it has to migrate: the read of the rule, its
    creation or its update, and the creation of the group; when it
    returns no error it has made exactly that many.  For the project
    alerts, the alerts to migrate are those of this cluster. *)
Theorem migration_call_budget w :
  ((length (events_of migrateLegacyClusterAlert w)
    ≤ 1 + 3 * length (oldClusterAlerts (ro w)))%nat
   ∧ (outcome_of migrateLegacyClusterAlert w = Return tt →
      length (events_of migrateLegacyClusterAlert w)
      = (1 + 3 * length (oldClusterAlerts (ro w)))%nat))
  ∧ (range_ok w →
     let n := length (filter (λ v, ObjectInCluster (clusterName l) v = true)
                             (oldProjectAlerts (ro w))) in
     (length (events_of migrateLegacyProjectAlert w) ≤ 1 + 3 * n)%nat
     ∧ (outcome_of migrateLegacyProjectAlert w = Return tt →
        length (events_of migrateLegacyProjectAlert w) = (1 + 3 * n)%nat)).
Proof.
  split.
  - apply (wp_elim _ _ _ (migrateLegacyClusterAlert_budget w)).
  - intros Hrange n.
    destruct (wp_elim _ _ _ (migrateLegacyProjectAlert_budget w)) as (k & H).
    simpl in H. rewrite project_work_length in H by apply Hrange. exact H.
Qed.

End Deployer.

(** * A sample cluster

    Concrete helpers and worlds on which the statements above are
    exercised. *)

Module Sample.

(** A setting that names the catalog system-library and the template
    rancher-monitoring. *)
Definition SplitExternalID (externalID : string)
  : Result (string * string * string * string * string) :=
  Ok ("cattle-global-data", "system-library", "", "rancher-monitoring", "").

(** The version is what follows the last parameter of the external id. *)
Definition ParseExternalID (externalID : string) : Result (string * string) :=
  match String.index 0 "&version=" externalID with
  | Some i => Ok (String.substring (i + 9) (String.length externalID - (i + 9)) externalID,
                  "")
  | None => Fail (Errorf "no version")
  end.

Definition ClusterAlertManagerInfo : string * string :=
  ("cluster-alerting", "alertmanager").

Definition GetGroupID (namespace name : string) : string :=
  namespace +:+ ":" +:+ name.

(** A reference cluster:project is cut at the first colon. *)
Definition ref_Parse (ref : string) : string * string :=
  match String.index 0 ":" ref with
  | Some i => (String.substring 0 i ref,
               String.substring (S i) (String.length ref - S i) ref)
  | None => ("", ref)
  end.

Definition ObjectInCluster (cluster : string) (v : ProjectAlert) : bool :=
  bool_decide ((ref_Parse (pa_ProjectName v)).1 = cluster).

Definition service : AlertService := mkAlertService "c-1".

Definition high_cpu : ClusterAlert :=
  mkClusterAlert (mkMeta "high-cpu" "c-1" "7") "High CPU" "critical" ["a@x.com"] 30 300
                 (Some (mkTargetNode "n1" ∅ "cpu" 0 70)) None None.

Definition pod_down : ProjectAlert :=
  mkProjectAlert (mkMeta "pod-down" "p-1" "3") "c-1:p-1" "Pod down" "warning" ["b@x.com"]
                 10 20 (Some (mkTargetPod "pod" "notrunning" 3 300)) None.

Definition workload_low : ProjectAlert :=
  mkProjectAlert (mkMeta "wl" "p-2" "4") "c-1:p-2" "Workload" "warning" ["b@x.com"]
                 10 20 None (Some (mkTargetWorkload "w" ∅ 50)).

Definition elsewhere : ProjectAlert :=
  mkProjectAlert (mkMeta "wl" "p-9" "5") "c-2:p-9" "Workload" "warning" ["c@x.com"]
                 10 20 None (Some (mkTargetWorkload "w" ∅ 50)).

Definition template : CatalogTemplate := mkTemplate "0.0.3".

Definition new_id : string :=
  "catalog://?catalog=system-library&template=rancher-monitoring&version=0.0.3".

Definition read_only (ready : bool) : ReadOnly :=
  mkReadOnly "catalog://?catalog=system-library&template=rancher-monitoring&version=0.0.2"
             {[ ("cattle-global-data", "system-library-rancher-monitoring") := template ]}
             [high_cpu] [pod_down; workload_low; elsewhere]
             [Some (mkProject "p-sys")]
             {[ "c-1" := mkCluster ready ]}
             {[ "system-library" := mkCatalog true true true ]}.

Definition old_rule : ClusterAlertRule :=
  mkClusterRule (mkMeta "migrate-high-cpu" "c-1" "41")
                (mkClusterRuleSpec "c-1" "" (mkCommonRule "" "" (mkTiming 1 2 3))
                                   None None None).

Definition app_at (externalID : string) (answers : option (gmap string string)) : App :=
  mkApp (mkMeta "cluster-alerting" "p-sys" "1") externalID answers.

Definition stores_with (apps : gmap Key App) : Stores :=
  mkStores {[ ("c-1", "migrate-high-cpu") := old_rule ]} ∅ ∅ ∅ {[ "cattle-alerting" ]} apps.

Definition world (ready : bool) (apps : gmap Key App) : World :=
  mkWorld (read_only ready) (stores_with apps) (λ _ _, None) (λ _ ks, ks) [].

Definition old_app : App := app_at "catalog://old" (Some ∅).

Definition with_app (ready : bool) (app : App) : World :=
  world ready {[ ("p-sys", "cluster-alerting") := app ]}.

(** The cluster before any migration. *)
Definition fresh : World :=
  mkWorld (read_only true)
          (mkStores ∅ ∅ ∅ ∅ {[ "cattle-alerting" ]}
                    {[ ("p-sys", "cluster-alerting") := old_app ]})
          (λ _ _, None) (λ _ ks, ks) [].

(** A store that answers already-exists to every creation. *)
Definition racing : World :=
  mkWorld (read_only true) (mkStores ∅ ∅ ∅ ∅ ∅ ∅)
          (λ _ c, match c with
                  | ClusterAlertRules_Create _ | ClusterAlertGroups_Create _
                  | ProjectAlertRules_Create _ | ProjectAlertGroups_Create _ =>
                      Some (NewAlreadyExists "taken")
                  | _ => None
                  end)
          (λ _ ks, ks) [].

Definition Upgrade : string → Go string :=
  Upgrade SplitExternalID ParseExternalID ClusterAlertManagerInfo GetGroupID ref_Parse
          ObjectInCluster service.

Definition migrateLegacyClusterAlert : Go unit :=
  migrateLegacyClusterAlert GetGroupID service.

Definition migrateLegacyProjectAlert : Go unit :=
  migrateLegacyProjectAlert GetGroupID ref_Parse ObjectInCluster service.

Definition Version : Go string := Version ParseExternalID.

(** The same cluster with the setting naming the default version of the
    template. *)
Definition pinned : World :=
  mkWorld (mkReadOnly new_id
             {[ ("cattle-global-data", "system-library-rancher-monitoring") := template ]}
             [high_cpu] [pod_down; workload_low; elsewhere]
             [Some (mkProject "p-sys")]
             {[ "c-1" := mkCluster true ]}
             {[ "system-library" := mkCatalog true true true ]})
          (stores_with {[ ("p-sys", "cluster-alerting") := old_app ]})
          (λ _ _, None) (λ _ ks, ks) [].

(** A cluster without legacy alerts of its own. *)
Definition quiet : World :=
  mkWorld (mkReadOnly new_id ∅ [] [elsewhere] [] ∅ ∅)
          (stores_with ∅) (λ _ _, None) (λ _ ks, ks) [].

(** A runtime that visits the projects in the opposite order. *)
Definition reversed : World :=
  mkWorld (read_only true) (stores_with ∅) (λ _ _, None) (λ _ ks, reverse ks) [].

(** A store that refuses every read of a cluster rule. *)
Definition broken : World :=
  mkWorld (read_only true) (stores_with ∅)
          (λ _ c, match c with
                  | ClusterAlertRules_Get _ => Some (Errorf "connection refused")
                  | _ => None
                  end)
          (λ _ ks, ks) [].

End Sample.

(** * The statements on the sample cluster *)

(** A closed decidable statement, by evaluation. *)
Ltac by_compute :=
  lazymatch goal with
  | |- ?P => apply (@bool_decide_unpack P _); vm_compute; exact I
  end.

Lemma sample_no_faults ready apps : no_faults (Sample.world ready apps).
Proof. intros n c. reflexivity. Qed.

Lemma sample_range_ok ready apps : range_ok (Sample.world ready apps).
Proof. intros n ks. reflexivity. Qed.

Lemma sample_rules_ok ready apps : rules_ok (stores (Sample.world ready apps)).
Proof.
  split; intros k o H; simpl in H.
  - apply lookup_singleton_Some in H as [<- <-]. reflexivity.
  - rewrite lookup_empty in H. discriminate H.
Qed.

Lemma sample_project_names_distinct ready :
  project_names_distinct Sample.ref_Parse Sample.ObjectInCluster Sample.service
                         (oldProjectAlerts (Sample.read_only ready)).
Proof.
  intros v v' [Hv Hc] [Hv' Hc'] Heq.
  apply list_elem_of_In in Hv, Hv'. simpl in Hv, Hv'.
  destruct Hv as [<-|[<-|[<-|[]]]]; destruct Hv' as [<-|[<-|[<-|[]]]];
    try reflexivity; vm_compute in Hc, Hc', Heq; congruence.
Qed.

Lemma sample_resolved currentVersion w :
  (TemplateLister_Get "cattle-global-data" "system-library-rancher-monitoring",
   Ok (VTemplate Sample.template)) ∈ events_of (Sample.Upgrade currentVersion) w →
  resolved Sample.SplitExternalID Sample.ParseExternalID w
           (events_of (Sample.Upgrade currentVersion) w)
           "system-library" Sample.new_id "0.0.3".
Proof.
  intros H. exists "cattle-global-data", "", "rancher-monitoring", "", Sample.template, "".
  split; [reflexivity|]. split; [exact H|]. split; reflexivity.
Qed.

(** The end-to-end scenario of the specification: from a previous
    version without the marker and one legacy cluster alert high-cpu with
    a node target, the upgrade leaves the rule migrate-high-cpu with its
    node rule, the group migrate-group-high-cpu with the recipients of the
    alert, no legacy namespace, and answers the default version of the
    template. *)
Example end_to_end :
  let w' := (Sample.Upgrade "0.0.1" Sample.fresh).2 in
  outcome_of (Sample.Upgrade "0.0.1") Sample.fresh = Return "0.0.3"
  ∧ (crs_NodeRule ∘ cr_Spec)
      <$> (clusterAlertRules (stores w') !! ("c-1", "migrate-high-cpu"))
    = Some (Some (mkNodeRule "n1" ∅ "cpu" 0 70))
  ∧ cg_Recipients <$> (clusterAlertGroups (stores w') !! ("c-1", "migrate-group-high-cpu"))
    = Some ["a@x.com"]
  ∧ ("cattle-alerting" ∉ namespaces (stores w'))
  ∧ app_ExternalID <$> (apps (stores w') !! ("p-sys", "cluster-alerting"))
    = Some Sample.new_id.
Proof.
  intros w'. split; [by vm_compute|]. split; [by vm_compute|]. split; [by vm_compute|].
  split; [by_compute | by vm_compute].
Qed.

Lemma migration_idempotent_witness :
  let w := Sample.with_app true Sample.old_app in
  let executor := Sample.migrateLegacyClusterAlert;; Sample.migrateLegacyProjectAlert in
  (no_faults w ∧ range_ok w ∧ rules_ok (stores w)
   ∧ project_names_distinct Sample.ref_Parse Sample.ObjectInCluster Sample.service
                            (oldProjectAlerts (ro w)))
  ∧ outcome_of executor (executor w).2 = Return tt
  ∧ stores (executor (executor w).2).2 = stores (executor w).2
  ∧ Forall (λ ev, replayed ev = true) (events_of executor (executor w).2).
Proof.
  intros w executor.
  pose proof (sample_no_faults true {[ ("p-sys", "cluster-alerting") := Sample.old_app ]})
    as H1.
  pose proof (sample_range_ok true {[ ("p-sys", "cluster-alerting") := Sample.old_app ]})
    as H2.
  pose proof (sample_rules_ok true {[ ("p-sys", "cluster-alerting") := Sample.old_app ]})
    as H3.
  pose proof (sample_project_names_distinct true) as H4.
  split; [exact (conj H1 (conj H2 (conj H3 H4)))|].
  destruct (migration_idempotent Sample.GetGroupID Sample.ref_Parse Sample.ObjectInCluster
              Sample.service w H1 H2 H3 H4) as (_ & Ha & Hb & Hc & _).
  repeat split; assumption.
Defined.

Lemma migrated_rule_timing_witness :
  let w := Sample.with_app true Sample.old_app in
  let o := mkClusterRule (cr_Meta Sample.old_rule)
             (cr_Spec (newClusterRule Sample.GetGroupID Sample.service Sample.high_cpu)) in
  (ClusterAlertRules_Update o, Ok (VClusterRule o))
    ∈ events_of Sample.migrateLegacyClusterAlert w
  ∧ ∃ v, v ∈ oldClusterAlerts (ro w)
         ∧ cr_Timing o = mkTiming (ca_InitialWaitSeconds v) 180 (ca_RepeatIntervalSeconds v).
Proof.
  intros w o.
  assert ((ClusterAlertRules_Update o, Ok (VClusterRule o))
            ∈ events_of Sample.migrateLegacyClusterAlert w) as H by by_compute.
  split; [exact H|].
  destruct (migrated_rule_timing Sample.GetGroupID Sample.ref_Parse Sample.ObjectInCluster
              Sample.service) as (_ & _ & Hc & _).
  apply (Hc w o (Ok (VClusterRule o))). right. exact H.
Defined.

Lemma migrated_rule_specialization_witness :
  let w := Sample.with_app true Sample.old_app in
  let o := newProjectRule Sample.GetGroupID Sample.ref_Parse "c-1:p-1" Sample.pod_down in
  (ProjectAlertRules_Create o, Ok (VProjectRule o))
    ∈ events_of Sample.migrateLegacyProjectAlert w
  ∧ ∃ v, in_cluster Sample.ObjectInCluster Sample.service (oldProjectAlerts (ro w)) v
         ∧ project_specializations (prl_Spec o) = project_targets v.
Proof.
  intros w o.
  assert ((ProjectAlertRules_Create o, Ok (VProjectRule o))
            ∈ events_of Sample.migrateLegacyProjectAlert w) as H by by_compute.
  split; [exact H|].
  destruct (migrated_rule_specialization Sample.GetGroupID Sample.ref_Parse
              Sample.ObjectInCluster Sample.service) as (_ & _ & _ & Hp).
  apply (Hp w o (Ok (VProjectRule o))). left. exact H.
Defined.

Lemma migrated_names_witness :
  let w := Sample.with_app true Sample.old_app in
  (ClusterAlertRules_Get "migrate-high-cpu", Ok (VClusterRule Sample.old_rule))
    ∈ events_of Sample.migrateLegacyClusterAlert w
  ∧ ∃ v, v ∈ oldClusterAlerts (ro w) ∧ "migrate-high-cpu" = "migrate-" +:+ Name (ca_Meta v).
Proof.
  intros w.
  assert ((ClusterAlertRules_Get "migrate-high-cpu", Ok (VClusterRule Sample.old_rule))
            ∈ events_of Sample.migrateLegacyClusterAlert w) as H by by_compute.
  split; [exact H|].
  destruct (migrated_names Sample.GetGroupID Sample.ref_Parse Sample.ObjectInCluster
              Sample.service) as (_ & _ & _ & _ & Hc & _).
  apply (Hc w _ _ H).
Defined.


Lemma Upgrade_noop_guard_witness :
  let app := Sample.app_at Sample.new_id (Some {[ "operator.enabled" := "false" ]}) in
  let w := Sample.with_app true app in
  newApp Sample.new_id app = Some app
  ∧ outcome_of (Sample.Upgrade "0.0.1") w = Return "0.0.3"
  ∧ (∀ o r, (Apps_Update o, r) ∉ events_of (Sample.Upgrade "0.0.1") w)
  ∧ (∀ n r, (ClusterLister_Get n, r) ∉ events_of (Sample.Upgrade "0.0.1") w)
  ∧ (∀ n r, (CatalogLister_Get n, r) ∉ events_of (Sample.Upgrade "0.0.1") w).
Proof.
  intros app w.
  assert (newApp Sample.new_id app = Some app) as Hnew by (vm_compute; reflexivity).
  split; [exact Hnew|].
  assert (resolved Sample.SplitExternalID Sample.ParseExternalID w
            (events_of (Sample.Upgrade "0.0.1") w)
            "system-library" Sample.new_id "0.0.3") as Hres.
  { apply sample_resolved. by_compute. }
  destruct (Upgrade_noop_guard Sample.SplitExternalID Sample.ParseExternalID
              Sample.ClusterAlertManagerInfo Sample.GetGroupID Sample.ref_Parse
              Sample.ObjectInCluster Sample.service "0.0.1" w _ _ _ Hres) as (H1 & _).
  apply (H1 "p-sys" "cluster-alerting" app); [by_compute | exact Hnew].
Defined.

Lemma Upgrade_migration_gate_witness :
  let w := Sample.with_app true Sample.old_app in
  (strings_Contains "system-library-rancher-monitoring-0.0.2"
                    "system-library-rancher-monitoring" = true
   ∧ Forall (λ ev, is_migration_call ev.1 = false)
            (events_of (Sample.Upgrade "system-library-rancher-monitoring-0.0.2") w))
  ∧ (strings_Contains "0.0.1" "system-library-rancher-monitoring" = false
     ∧ resolvable Sample.SplitExternalID Sample.ParseExternalID w "system-library" Sample.new_id "0.0.3"
     ∧ ∃ t w1 rest,
         extends w w1 [t] ∧ stores w1 = stores w
         ∧ events_of (Sample.Upgrade "0.0.1") w
           = t :: migration_events Sample.GetGroupID Sample.ref_Parse
                    Sample.ObjectInCluster Sample.service w1 ++ rest
         ∧ Forall (λ ev, is_migration_call ev.1 = false) (t :: rest)).
Proof.
  intros w.
  assert (resolvable Sample.SplitExternalID Sample.ParseExternalID w "system-library" Sample.new_id "0.0.3")
    as Hable.
  { exists "cattle-global-data", "", "rancher-monitoring", "", Sample.template, "".
    split; [reflexivity|]. split; [vm_compute; reflexivity|]. split; reflexivity. }
  split.
  - split; [reflexivity|].
    destruct (Upgrade_migration_gate Sample.SplitExternalID Sample.ParseExternalID
                Sample.ClusterAlertManagerInfo Sample.GetGroupID Sample.ref_Parse
                Sample.ObjectInCluster Sample.service
                "system-library-rancher-monitoring-0.0.2" w) as (H1 & _).
    exact (H1 eq_refl).
  - split; [reflexivity|]. split; [exact Hable|].
    destruct (Upgrade_migration_gate Sample.SplitExternalID Sample.ParseExternalID
                Sample.ClusterAlertManagerInfo Sample.GetGroupID Sample.ref_Parse
                Sample.ObjectInCluster Sample.service "0.0.1" w) as (_ & H2 & _).
    exact (H2 eq_refl _ _ _ Hable).
Defined.

Lemma Upgrade_app_fetch_fails_witness :
  let w := Sample.world true ∅ in
  let err := NewNotFound "cluster-alerting" in
  ((Apps_GetNamespaced "p-sys" "cluster-alerting", Fail err)
     ∈ events_of (Sample.Upgrade "0.0.1") w
   ∧ IsNotFound err = true)
  ∧ last (events_of (Sample.Upgrade "0.0.1") w)
    = Some (Apps_GetNamespaced "p-sys" "cluster-alerting", Fail err)
  ∧ ∃ cat eid nv,
      resolved Sample.SplitExternalID Sample.ParseExternalID w
               (events_of (Sample.Upgrade "0.0.1") w) cat eid nv
      ∧ outcome_of (Sample.Upgrade "0.0.1") w = Return nv.
Proof.
  intros w err.
  assert ((Apps_GetNamespaced "p-sys" "cluster-alerting", Fail err)
            ∈ events_of (Sample.Upgrade "0.0.1") w) as Hev by by_compute.
  split; [exact (conj Hev eq_refl)|].
  destruct (Upgrade_app_fetch_fails Sample.SplitExternalID Sample.ParseExternalID
              Sample.ClusterAlertManagerInfo Sample.GetGroupID Sample.ref_Parse
              Sample.ObjectInCluster Sample.service "0.0.1" w _ _ _ Hev)
    as (_ & Hlast & Hnf & _).
  split; [exact Hlast | exact (Hnf eq_refl)].
Defined.

Lemma tolerated_failures_not_surfaced_witness :
  (∀ c err, (c, Fail err) ∈ events_of Sample.migrateLegacyClusterAlert Sample.racing →
            tolerated c err = true)
  ∧ (ClusterAlertRules_Create (newClusterRule Sample.GetGroupID Sample.service Sample.high_cpu),
     Fail (NewAlreadyExists "taken"))
      ∈ events_of Sample.migrateLegacyClusterAlert Sample.racing
  ∧ outcome_of Sample.migrateLegacyClusterAlert Sample.racing = Return tt.
Proof.
  assert (∀ c err, (c, Fail err) ∈ events_of Sample.migrateLegacyClusterAlert Sample.racing →
                   tolerated c err = true) as Htol.
  { assert (Forall (λ ev, match ev.2 with
                          | Fail err => tolerated ev.1 err
                          | Ok _ => true
                          end = true)
                   (events_of Sample.migrateLegacyClusterAlert Sample.racing)) as HF
        by by_compute.
    intros c err H. rewrite Forall_forall in HF. exact (HF _ H). }
  split; [exact Htol|]. split; [by_compute|].
  destruct (tolerated_failures_not_surfaced Sample.GetGroupID Sample.ref_Parse
              Sample.ObjectInCluster Sample.service Sample.racing) as (H1 & _).
  exact (proj1 (H1 Htol)).
Defined.

Lemma Upgrade_nil_answers_panics_witness :
  let app := Sample.app_at "catalog://old" None in
  let w := Sample.with_app true app in
  ((Apps_GetNamespaced "p-sys" "cluster-alerting", Ok (VApp app))
     ∈ events_of (Sample.Upgrade "0.0.1") w
   ∧ app_Answers app = None)
  ∧ outcome_of (Sample.Upgrade "0.0.1") w = Panic "assignment to entry in nil map".
Proof.
  intros app w.
  assert ((Apps_GetNamespaced "p-sys" "cluster-alerting", Ok (VApp app))
            ∈ events_of (Sample.Upgrade "0.0.1") w) as Hev by by_compute.
  split; [exact (conj Hev eq_refl)|].
  destruct (Upgrade_nil_answers_panics Sample.SplitExternalID Sample.ParseExternalID
              Sample.ClusterAlertManagerInfo Sample.GetGroupID Sample.ref_Parse
              Sample.ObjectInCluster Sample.service "0.0.1" w) as (H1 & _).
  exact (proj1 (H1 _ _ _ Hev eq_refl)).
Defined.

(** * The further statements on the sample cluster *)

Lemma sample_apps_ok ready :
  apps_ok (stores (Sample.with_app ready Sample.old_app)).
Proof.
  intros k o H. simpl in H. apply lookup_singleton_Some in H as [<- <-]. reflexivity.
Qed.

Lemma reversed_range_ok : range_ok Sample.reversed.
Proof. intros n ks. simpl. apply reverse_Permutation. Qed.

Lemma Upgrade_resolution_witness :
  let w := Sample.with_app true Sample.old_app in
  outcome_of (Sample.Upgrade "0.0.1") w = Return "0.0.3"
  ∧ ∃ cat eid,
      resolved Sample.SplitExternalID Sample.ParseExternalID w
               (events_of (Sample.Upgrade "0.0.1") w) cat eid "0.0.3".
Proof.
  intros w.
  assert (outcome_of (Sample.Upgrade "0.0.1") w = Return "0.0.3") as H
      by (vm_compute; reflexivity).
  split; [exact H|].
  exact (proj1 (Upgrade_resolution Sample.SplitExternalID Sample.ParseExternalID
                  Sample.ClusterAlertManagerInfo Sample.GetGroupID Sample.ref_Parse
                  Sample.ObjectInCluster Sample.service "0.0.1" w) "0.0.3" H).
Defined.

Lemma Upgrade_system_project_witness :
  let w := Sample.with_app true Sample.old_app in
  (ProjectLister_List, Ok (VProjects [Some (mkProject "p-sys")]))
    ∈ events_of (Sample.Upgrade "0.0.1") w
  ∧ ∃ r, (Apps_GetNamespaced "p-sys" "cluster-alerting", r)
           ∈ events_of (Sample.Upgrade "0.0.1") w.
Proof.
  intros w.
  assert ((ProjectLister_List, Ok (VProjects [Some (mkProject "p-sys")]))
            ∈ events_of (Sample.Upgrade "0.0.1") w) as H by by_compute.
  split; [exact H|].
  destruct (Upgrade_system_project Sample.SplitExternalID Sample.ParseExternalID
              Sample.ClusterAlertManagerInfo Sample.GetGroupID Sample.ref_Parse
              Sample.ObjectInCluster Sample.service "0.0.1" w) as (_ & H2 & _).
  exact (H2 _ H).
Defined.

Lemma Upgrade_update_effect_witness :
  let w := Sample.with_app true Sample.old_app in
  let app' := Sample.app_at Sample.new_id (Some {[ "operator.enabled" := "false" ]}) in
  (Apps_Update app', Ok (VApp app')) ∈ events_of (Sample.Upgrade "0.0.1") w
  ∧ ∃ cat eid nv namespace name app answers,
      resolved Sample.SplitExternalID Sample.ParseExternalID w
               (events_of (Sample.Upgrade "0.0.1") w) cat eid nv
      ∧ outcome_of (Sample.Upgrade "0.0.1") w = Return nv
      ∧ last (events_of (Sample.Upgrade "0.0.1") w)
        = Some (Apps_Update app', Ok (VApp app'))
      ∧ (Apps_GetNamespaced namespace name, Ok (VApp app))
          ∈ events_of (Sample.Upgrade "0.0.1") w
      ∧ app_Answers app = Some answers
      ∧ app' = mkApp (app_Meta app) eid (Some (<["operator.enabled" := "false"]> answers))
      ∧ apps (stores (Sample.Upgrade "0.0.1" w).2)
        = <[key_of (app_Meta app) := app']> (apps (stores w)).
Proof.
  intros w app'.
  assert ((Apps_Update app', Ok (VApp app')) ∈ events_of (Sample.Upgrade "0.0.1") w) as H
      by by_compute.
  split; [exact H|].
  exact (Upgrade_update_effect Sample.SplitExternalID Sample.ParseExternalID
           Sample.ClusterAlertManagerInfo Sample.GetGroupID Sample.ref_Parse
           Sample.ObjectInCluster Sample.service "0.0.1" w _ _ H).
Defined.

Lemma Upgrade_error_keeps_apps_witness :
  let w := Sample.with_app false Sample.old_app in
  (∀ v, outcome_of (Sample.Upgrade "0.0.1") w ≠ Return v)
  ∧ apps (stores (Sample.Upgrade "0.0.1" w).2) = apps (stores w).
Proof.
  intros w.
  assert (∀ v, outcome_of (Sample.Upgrade "0.0.1") w ≠ Return v) as H.
  { intros v Hv. vm_compute in Hv. discriminate Hv. }
  split; [exact H|].
  exact (proj2 (Upgrade_error_keeps_apps Sample.SplitExternalID Sample.ParseExternalID
                  Sample.ClusterAlertManagerInfo Sample.GetGroupID Sample.ref_Parse
                  Sample.ObjectInCluster Sample.service "0.0.1" w H)).
Defined.

Lemma Upgrade_marker_keeps_alerting_witness :
  let w := Sample.with_app true Sample.old_app in
  strings_Contains "system-library-rancher-monitoring-0.0.2"
                   "system-library-rancher-monitoring" = true
  ∧ same_alerting (stores w)
      (stores (Sample.Upgrade "system-library-rancher-monitoring-0.0.2" w).2).
Proof.
  intros w. split; [reflexivity|].
  exact (Upgrade_marker_keeps_alerting Sample.SplitExternalID Sample.ParseExternalID
           Sample.ClusterAlertManagerInfo Sample.GetGroupID Sample.ref_Parse
           Sample.ObjectInCluster Sample.service
           "system-library-rancher-monitoring-0.0.2" w eq_refl).
Defined.

Lemma Upgrade_nothing_lost_witness :
  nothing_lost (stores Sample.fresh) (stores (Sample.Upgrade "0.0.1" Sample.fresh).2).
Proof.
  exact (Upgrade_nothing_lost Sample.SplitExternalID Sample.ParseExternalID
           Sample.ClusterAlertManagerInfo Sample.GetGroupID Sample.ref_Parse
           Sample.ObjectInCluster Sample.service "0.0.1" Sample.fresh).
Defined.

Lemma migration_fails_fast_witness :
  failed_fast (outcome_of Sample.migrateLegacyClusterAlert Sample.broken)
              (events_of Sample.migrateLegacyClusterAlert Sample.broken)
  ∧ outcome_of Sample.migrateLegacyClusterAlert Sample.broken
    = Error (Errorf "migrate c-1:high-cpu failed, get alert rule failed, connection refused").
Proof.
  split; [|vm_compute; reflexivity].
  exact (proj1 (migration_fails_fast Sample.GetGroupID Sample.ref_Parse
                  Sample.ObjectInCluster Sample.service Sample.broken)).
Defined.

Lemma cleanup_after_migration_witness :
  let w := Sample.with_app true Sample.old_app in
  (Namespaces_Delete "cattle-alerting", Ok VNone) ∈ events_of (Sample.Upgrade "0.0.1") w
  ∧ strings_Contains "0.0.1" "system-library-rancher-monitoring" = false
  ∧ ∀ v, v ∈ oldClusterAlerts (ro w) →
         ∃ r', (ClusterAlertGroups_Create (clusterLegacyGroup Sample.service v), r')
                 ∈ events_of (Sample.Upgrade "0.0.1") w
               ∧ accepted r'.
Proof.
  intros w.
  assert ((Namespaces_Delete "cattle-alerting", Ok VNone)
            ∈ events_of (Sample.Upgrade "0.0.1") w) as H by by_compute.
  split; [exact H|].
  destruct (cleanup_after_migration Sample.SplitExternalID Sample.ParseExternalID
              Sample.ClusterAlertManagerInfo Sample.GetGroupID Sample.ref_Parse
              Sample.ObjectInCluster Sample.service "0.0.1" w _ _ H)
    as (_ & Hc & _ & Hg & _).
  exact (conj Hc Hg).
Defined.

Lemma Version_reads_setting_witness :
  let w := Sample.pinned in
  SystemMonitoringCatalogID (ro w) = Sample.new_id
  ∧ outcome_of (Sample.Upgrade "0.0.1") w = Return "0.0.3"
  ∧ outcome_of Sample.Version (Sample.Upgrade "0.0.1" w).2 = Return "0.0.3".
Proof.
  intros w.
  assert (outcome_of (Sample.Upgrade "0.0.1") w = Return "0.0.3") as H
      by (vm_compute; reflexivity).
  assert (resolved Sample.SplitExternalID Sample.ParseExternalID w
            (events_of (Sample.Upgrade "0.0.1") w) "system-library" Sample.new_id "0.0.3")
    as Hres by (apply sample_resolved; by_compute).
  split; [reflexivity|]. split; [exact H|].
  exact (proj2 (proj2 (Version_reads_setting Sample.SplitExternalID Sample.ParseExternalID
                         Sample.ClusterAlertManagerInfo Sample.GetGroupID Sample.ref_Parse
                         Sample.ObjectInCluster Sample.service w))
           "0.0.1" _ _ _ _ Hres eq_refl H).
Defined.

Lemma oldProjectAlertGroup_partition_witness :
  let items := [Sample.pod_down; Sample.workload_low; Sample.elsewhere] in
  oldProjectAlertGroup Sample.ObjectInCluster Sample.service items !! "c-1:p-1"
  = Some [Sample.pod_down]
  ∧ [Sample.pod_down]
    = filter (λ v, Sample.ObjectInCluster (clusterName Sample.service) v = true
                   ∧ pa_ProjectName v = "c-1:p-1") items.
Proof.
  intros items.
  assert (oldProjectAlertGroup Sample.ObjectInCluster Sample.service items !! "c-1:p-1"
          = Some [Sample.pod_down]) as H by (vm_compute; reflexivity).
  split; [exact H|].
  exact (proj2 (proj1 (oldProjectAlertGroup_partition Sample.ObjectInCluster
                         Sample.service items) _ _ H)).
Defined.

Lemma migration_of_nothing_witness :
  let w := Sample.quiet in
  oldClusterAlerts (ro w) = []
  ∧ stores (Sample.migrateLegacyClusterAlert w).2 = stores w.
Proof.
  intros w. split; [reflexivity|].
  exact (proj1 (proj1 (migration_of_nothing Sample.GetGroupID Sample.ref_Parse
                         Sample.ObjectInCluster Sample.service w) eq_refl)).
Defined.

Lemma removeLegacyAlerting_idempotent_witness :
  let w := Sample.with_app true Sample.old_app in
  no_faults w
  ∧ outcome_of removeLegacyAlerting w = Return tt
  ∧ outcome_of removeLegacyAlerting (removeLegacyAlerting w).2 = Return tt.
Proof.
  intros w.
  assert (no_faults w) as Hnf by (intros n c; reflexivity).
  split; [exact Hnf|].
  destruct (removeLegacyAlerting_idempotent w Hnf) as (H1 & _ & H2 & _).
  exact (conj H1 H2).
Defined.

Lemma Upgrade_converges_witness :
  let w := Sample.with_app true Sample.old_app in
  let w' := (Sample.Upgrade "0.0.1" w).2 in
  outcome_of (Sample.Upgrade "0.0.1") w = Return "0.0.3"
  ∧ outcome_of (Sample.Upgrade "0.0.3") w' = Return "0.0.3"
  ∧ apps (stores (Sample.Upgrade "0.0.3" w').2) = apps (stores w').
Proof.
  intros w w'.
  assert (outcome_of (Sample.Upgrade "0.0.1") w = Return "0.0.3") as H
      by (vm_compute; reflexivity).
  split; [exact H|].
  destruct (Upgrade_converges Sample.SplitExternalID Sample.ParseExternalID
              Sample.ClusterAlertManagerInfo Sample.GetGroupID Sample.ref_Parse
              Sample.ObjectInCluster Sample.service "0.0.1" "0.0.3" w "0.0.3"
              (sample_no_faults true _) (sample_rules_ok true _) (sample_apps_ok true) H)
    as (H1 & _ & H2).
  exact (conj H1 H2).
Defined.

Lemma migrateLegacyClusterAlert_result_witness :
  let w := Sample.with_app true Sample.old_app in
  no_faults w ∧ rules_ok (stores w)
  ∧ clusterAlertRules (stores (Sample.migrateLegacyClusterAlert w).2)
      !! ("c-1", "migrate-high-cpu")
    = Some (mkClusterRule (cr_Meta Sample.old_rule)
              (cr_Spec (newClusterRule Sample.GetGroupID Sample.service Sample.high_cpu))).
Proof.
  intros w.
  split; [exact (sample_no_faults true _)|]. split; [exact (sample_rules_ok true _)|].
  destruct (migrateLegacyClusterAlert_result Sample.GetGroupID Sample.service w
              (sample_no_faults true _) (sample_rules_ok true _)) as (H & _).
  assert (Sample.high_cpu ∈ oldClusterAlerts (ro w)) as Hin by (simpl; left).
  assert (∀ v', v' ∈ oldClusterAlerts (ro w) →
                Name (ca_Meta v') = Name (ca_Meta Sample.high_cpu) →
                v' = Sample.high_cpu) as Huniq.
  { intros v' Hv' _. apply list_elem_of_In in Hv'. simpl in Hv'.
    destruct Hv' as [<-|[]]. reflexivity. }
  exact (proj1 (H Sample.high_cpu Hin Huniq)).
Defined.

Lemma project_migration_order_independent_witness :
  let w1 := Sample.world true ∅ in
  let w2 := Sample.reversed in
  range_ok w1 ∧ range_ok w2
  ∧ stores (Sample.migrateLegacyProjectAlert w1).2
    = stores (Sample.migrateLegacyProjectAlert w2).2.
Proof.
  intros w1 w2.
  split; [exact (sample_range_ok true ∅)|]. split; [exact reversed_range_ok|].
  assert (no_faults w2) as Hnf2 by (intros n c; reflexivity).
  exact (proj2 (proj2 (project_migration_order_independent Sample.GetGroupID
                         Sample.ref_Parse Sample.ObjectInCluster Sample.service w1 w2
                         eq_refl eq_refl (sample_no_faults true ∅) Hnf2
                         (sample_range_ok true ∅) reversed_range_ok
                         (sample_rules_ok true ∅)
                         (sample_project_names_distinct true)))).
Defined.

Lemma migrateLegacyProjectAlert_result_witness :
  let w := Sample.world true ∅ in
  no_faults w ∧ range_ok w ∧ rules_ok (stores w)
  ∧ projectAlertRules (stores (Sample.migrateLegacyProjectAlert w).2)
      !! ("p-1", "migrate-rule-pod-down")
    = Some (newProjectRule Sample.GetGroupID Sample.ref_Parse "c-1:p-1" Sample.pod_down).
Proof.
  intros w.
  split; [exact (sample_no_faults true ∅)|]. split; [exact (sample_range_ok true ∅)|].
  split; [exact (sample_rules_ok true ∅)|].
  destruct (migrateLegacyProjectAlert_result Sample.GetGroupID Sample.ref_Parse
              Sample.ObjectInCluster Sample.service w
              (sample_no_faults true ∅) (sample_range_ok true ∅)
              (sample_rules_ok true ∅)) as (H & _).
  assert (in_cluster Sample.ObjectInCluster Sample.service (oldProjectAlerts (ro w))
                     Sample.pod_down) as Hin.
  { split; [simpl; left | reflexivity]. }
  assert (∀ v', in_cluster Sample.ObjectInCluster Sample.service
                           (oldProjectAlerts (ro w)) v' →
                (Sample.ref_Parse (pa_ProjectName v')).2
                = (Sample.ref_Parse (pa_ProjectName Sample.pod_down)).2 →
                Name (pa_Meta v') = Name (pa_Meta Sample.pod_down) →
                v' = Sample.pod_down) as Huniq.
  { intros v' [Hv' Hc'] Hp _. apply list_elem_of_In in Hv'. simpl in Hv'.
    destruct Hv' as [<-|[<-|[<-|[]]]]; try reflexivity;
      vm_compute in Hp; discriminate Hp. }
  exact (proj1 (H Sample.pod_down Hin Huniq)).
Defined.

Lemma migration_reads_before_writes_witness :
  cluster_protocol Sample.GetGroupID Sample.service
                   (oldClusterAlerts (ro Sample.fresh))
                   (events_of Sample.migrateLegacyClusterAlert Sample.fresh).
Proof.
  exact (proj1 (migration_reads_before_writes Sample.GetGroupID Sample.ref_Parse
                  Sample.ObjectInCluster Sample.service Sample.fresh)).
Defined.

Lemma Upgrade_error_cause_witness :
  let w := Sample.with_app false Sample.old_app in
  outcome_of (Sample.Upgrade "0.0.1") w = Error (Errorf "cluster c-1 not ready")
  ∧ last (events_of (Sample.Upgrade "0.0.1") w)
    = Some (ClusterLister_Get "c-1", Ok (VCluster (mkCluster false)))
  ∧ ClusterConditionReady (mkCluster false) = false.
Proof.
  intros w.
  assert (outcome_of (Sample.Upgrade "0.0.1") w = Error (Errorf "cluster c-1 not ready"))
    as He by (vm_compute; reflexivity).
  assert (last (events_of (Sample.Upgrade "0.0.1") w)
          = Some (ClusterLister_Get "c-1", Ok (VCluster (mkCluster false)))) as Hl
      by (vm_compute; reflexivity).
  split; [exact He|]. split; [exact Hl|].
  pose proof (Upgrade_error_cause Sample.SplitExternalID Sample.ParseExternalID
                Sample.ClusterAlertManagerInfo Sample.GetGroupID Sample.ref_Parse
                Sample.ObjectInCluster Sample.service "0.0.1" w _ He) as H.
  unfold Sample.Upgrade in Hl. rewrite Hl in H. exact (proj1 H).
Defined.

Lemma migration_call_budget_witness :
  let w := Sample.world true ∅ in
  range_ok w
  ∧ outcome_of Sample.migrateLegacyProjectAlert w = Return tt
  ∧ length (events_of Sample.migrateLegacyProjectAlert w) = 7.
Proof.
  intros w.
  assert (outcome_of Sample.migrateLegacyProjectAlert w = Return tt) as H
      by (vm_compute; reflexivity).
  split; [exact (sample_range_ok true ∅)|]. split; [exact H|].
  exact (proj2 (proj2 (migration_call_budget Sample.GetGroupID Sample.ref_Parse
                         Sample.ObjectInCluster Sample.service w)
                  (sample_range_ok true ∅)) H).
Defined.
